(** * Verification of the course-content-dl tutorial solutions

    Shallow embedding of
    - [ex_net_rsm]                      (W1D2_Tutorial3_Solution_322ede5f.py)
    - [MonteCarloBasedPlayer], [n1p]    (W3D5_Tutorial1_Solution_9524e84f.py)
    - [Net]                             (W1D3_Tutorial1_Solution_a1ac91af.py)
    - [SimpleGraph], [sq_loss]          (W1D2_Tutorial1_Solution_8510dab4.py)

    Numeric model.  The arrays handled by the Python code hold IEEE floats.
    Here every array entry is an exact rational ([Q]); rounding, infinities
    and NaN are not modelled.  Statements about numbers are therefore
    statements about the exact values the floating-point code approximates,
    and they are given up to [Qeq] ([==]).

    Collaborators.  The game, the network and the simulator are parameters:
    the game and the network are read-only functions, the simulator threads
    a state of its own, and every call of the predictor, of the simulator
    and of the logger is recorded in a trace.  [np.argpartition] is modelled
    by its documented contract; a stable sort of the indices is the one
    concrete kernel used to run examples. *)

From Stdlib Require Import String.
From Stdlib Require Import Bool Arith ZArith QArith Lia List.
From Stdlib Require Import Permutation Sorted.
Import ListNotations.

Local Open Scope Q_scope.

(* ================================================================== *)
(** * Exceptions and results *)
(* ================================================================== *)

(** The Python exceptions the modelled code can raise. *)
Inductive Exn : Type :=
| ValueError_broadcast (n m : nat)  (* operands could not be broadcast *)
| ValueError_kth (kth : Z) (n : nat) (* kth(=..) out of bounds (..) *)
| RuntimeError_shape (n m : nat)    (* shapes cannot be multiplied *)
| AttributeError                    (* object has no attribute *)
| IndexError.                       (* index out of range *)

Inductive Res (A : Type) : Type :=
| Ok (a : A)
| Raise (e : Exn).
Arguments Ok {A} a.
Arguments Raise {A} e.

(* ================================================================== *)
(** * Rational helpers *)
(* ================================================================== *)

Definition Qlt_bool (x y : Q) : bool := negb (Qle_bool y x).
Definition Qnonzero (x : Q) : bool := negb (Qeq_bool x 0).

(** A mask entry as a number: [True] is 1, [False] is 0. *)
Definition b2q (b : bool) : Q := if b then 1 else 0.

Definition nat2q (n : nat) : Q := inject_Z (Z.of_nat n).

(* ================================================================== *)
(** * One-dimensional numpy arrays *)
(* ================================================================== *)

Module Np.

(** [a (op) b] for 1-D arrays: equal lengths work element-wise, a
    length-1 operand is broadcast, anything else raises. *)
Fixpoint zip_with (f : Q -> Q -> Q) (a b : list Q) : list Q :=
  match a, b with
  | x :: a', y :: b' => f x y :: zip_with f a' b'
  | _, _ => []
  end.

Definition broadcast2 (f : Q -> Q -> Q) (a b : list Q) : Res (list Q) :=
  if Nat.eqb (length a) (length b) then Ok (zip_with f a b)
  else if Nat.eqb (length a) 1 then Ok (map (f (hd 0 a)) b)
  else if Nat.eqb (length b) 1 then Ok (map (fun x => f x (hd 0 b)) a)
  else Raise (ValueError_broadcast (length a) (length b)).

Definition mul := broadcast2 Qmult.
Definition add := broadcast2 Qplus.

(** [np.sum(a)] *)
Fixpoint sum (a : list Q) : Q :=
  match a with
  | [] => 0
  | x :: a' => x + sum a'
  end.

(** [a /= s] for a scalar [s] *)
Definition div_scalar (a : list Q) (s : Q) : list Q :=
  map (fun x => x / s) a.

(** [np.mean(values)].  For no values at all numpy answers nan (with a
    warning); here the quotient by zero is 0, and the statements about
    averages are made for [numMCsims >= 1]. *)
Definition mean (values : list Q) : Q := sum values / nat2q (length values).

(** [np.shape(np.nonzero(a))[1]]: how many entries are not zero. *)
Definition count_nonzero (a : list Q) : nat :=
  length (filter Qnonzero a).

(** [np.zeros(n)] *)
Definition zeros (n : nat) : list Q := repeat 0 n.

(** [a[i] = x]; an index outside the array raises. *)
Fixpoint set_item (a : list Q) (i : nat) (x : Q) : Res (list Q) :=
  match a, i with
  | [], _ => Raise IndexError
  | _ :: a', O => Ok (x :: a')
  | y :: a', S i' =>
      match set_item a' i' x with
      | Ok r => Ok (y :: r)
      | Raise e => Raise e
      end
  end.

End Np.

(** [l[start:]] with Python's treatment of a negative or too large start. *)
Definition py_slice_from {A : Type} (start : Z) (l : list A) : list A :=
  let n := Z.of_nat (length l) in
  let s := if (start <? 0)%Z then Z.max 0 (start + n) else Z.min start n in
  skipn (Z.to_nat s) l.

(* ================================================================== *)
(** * Python's stable [list.sort(key=...)] *)
(* ================================================================== *)

Section StableSort.
Context {A : Type}.
Variable key : A -> Q.

(** [x] is put in front of the first element whose key is not smaller, so
    an element that came first stays first among equal keys.  The result of
    a stable sort is fixed by its input, so this insertion sort returns
    what Python's sort returns. *)
Fixpoint insert_by (x : A) (l : list A) : list A :=
  match l with
  | [] => [x]
  | y :: l' => if Qle_bool (key x) (key y) then x :: l
               else y :: insert_by x l'
  end.

Fixpoint sort_by (l : list A) : list A :=
  match l with
  | [] => []
  | x :: l' => insert_by x (sort_by l')
  end.

End StableSort.

(* ================================================================== *)
(** * [ex_net_rsm] : the representational similarity matrix *)
(* ================================================================== *)

Module Torch.

(** A 2-D tensor: its shape and its rows. *)
Record Tensor2 : Type := mkTensor2 {
  t_rows : nat;
  t_cols : nat;
  t_data : list (list Q)
}.

(** The shape describes the data. *)
Definition wf (t : Tensor2) : Prop :=
  length (t_data t) = t_rows t /\
  Forall (fun r => length r = t_cols t) (t_data t).

Definition entry (t : Tensor2) (i j : nat) : Q :=
  nth j (nth i (t_data t) []) 0.

Definition column (j : nat) (d : list (list Q)) : list Q :=
  map (fun r => nth j r 0) d.

(** [t.T] *)
Definition transpose (t : Tensor2) : Tensor2 :=
  {| t_rows := t_cols t;
     t_cols := t_rows t;
     t_data := map (fun j => column j (t_data t)) (seq 0 (t_cols t)) |}.

Fixpoint dot (u v : list Q) : Q :=
  match u, v with
  | x :: u', y :: v' => x * y + dot u' v'
  | _, _ => 0
  end.

(** [a @ b] for 2-D tensors; the inner dimensions have to agree. *)
Definition matmul (a b : Tensor2) : Res Tensor2 :=
  if Nat.eqb (t_cols a) (t_rows b) then
    Ok {| t_rows := t_rows a;
          t_cols := t_cols b;
          t_data := map (fun r => map (fun j => dot r (column j (t_data b)))
                                      (seq 0 (t_cols b)))
                        (t_data a) |}
  else Raise (RuntimeError_shape (t_cols a) (t_rows b)).

(** W1D2_Tutorial3_Solution_322ede5f.py, lines 1-14 *)
Definition ex_net_rsm (h : Tensor2) : Res Tensor2 :=
  let rsm := matmul h (transpose h) in
  rsm.

End Torch.

(* ================================================================== *)
(** * [MonteCarloBasedPlayer] *)
(* ================================================================== *)

(** The option bag [args] built at line 116. *)
Record Args : Type := mkArgs {
  numMCsims : Z;
  maxRollouts : Z;
  maxDepth : Z;
  mc_topk : Z
}.

Section Collaborators.

Variable Board : Type.
(** What the simulator keeps between two calls of [simulate] (its random
    generator, its caches); the player never looks at it. *)
Variable SimState : Type.

(** The rules provider.  An action is an index into the action space and the
    legality mask is a vector of flags. *)
Record Game : Type := mkGame {
  getActionSize : nat;
  stringRepresentation : Board -> string;
  getValidMoves : Board -> Z -> list bool;
  getNextState : Board -> Z -> nat -> Board * Z;
  getCanonicalForm : Board -> Z -> Board;
  getGameEnded : Board -> Z -> Z
}.

(** The predictor: [predict(board)] gives the prior vector and a value. *)
Record NNet : Type := mkNNet {
  predict : Board -> list Q * Q
}.

(** The simulator: [simulate(board)] gives one outcome and moves on the
    simulator's own state. *)
Record MonteCarloObj : Type := mkMonteCarlo {
  simulate : Board -> SimState -> Q * SimState
}.

(** The attributes of a player object.  [qsa] is [None]
    as long as the attribute has not been assigned. *)
Record MonteCarloBasedPlayer : Type := mkPlayer {
  game : Game;
  nnet : NNet;
  args : Args;
  mc : MonteCarloObj;
  K : Z;
  qsa : option (list (Q * nat))
}.

(** Calls that leave the player, in the order they happen.  A simulation is
    recorded with the outcome it returned. *)
Inductive Event : Type :=
| EvPredict (b : Board)
| EvSimulate (b : Board) (value : Q)
| EvLogError (msg : string).

(** Everything a method call can read or write. *)
Record World : Type := mkWorld {
  self : MonteCarloBasedPlayer;
  sim_state : SimState;
  trace : list Event
}.

(** ** The state and exception monad of the methods *)

Definition M (A : Type) : Type := World -> Res A * World.

Definition ret {A : Type} (a : A) : M A := fun w => (Ok a, w).

Definition bind {A B : Type} (m : M A) (f : A -> M B) : M B :=
  fun w =>
    match m w with
    | (Ok a, w') => f a w'
    | (Raise e, w') => (Raise e, w')
    end.

Definition raise {A : Type} (e : Exn) : M A := fun w => (Raise e, w).

Definition lift {A : Type} (r : Res A) : M A := fun w => (r, w).

Definition get_self : M MonteCarloBasedPlayer := fun w => (Ok (self w), w).

Definition with_qsa (p : MonteCarloBasedPlayer) (q : option (list (Q * nat)))
  : MonteCarloBasedPlayer :=
  {| game := game p; nnet := nnet p; args := args p; mc := mc p; K := K p;
     qsa := q |}.

(** [self.qsa = q] *)
Definition assign_qsa (q : list (Q * nat)) : M unit :=
  fun w => (Ok tt, {| self := with_qsa (self w) (Some q);
                      sim_state := sim_state w;
                      trace := trace w |}).

(** reading [self.qsa] *)
Definition read_qsa : M (list (Q * nat)) :=
  fun w => match qsa (self w) with
           | Some q => (Ok q, w)
           | None => (Raise AttributeError, w)
           end.

Definition emit (e : Event) : M unit :=
  fun w => (Ok tt, {| self := self w;
                      sim_state := sim_state w;
                      trace := trace w ++ [e] |}).

(** [self.nnet.predict(board)] *)
Definition call_predict (b : Board) : M (list Q * Q) :=
  bind get_self (fun p =>
  bind (emit (EvPredict b)) (fun _ =>
  ret (predict (nnet p) b))).

(** [self.mc.simulate(board)] *)
Definition call_simulate (b : Board) : M Q :=
  fun w =>
    let (value, s') := simulate (mc (self w)) b (sim_state w) in
    (Ok value, {| self := self w;
                  sim_state := s';
                  trace := trace w ++ [EvSimulate b value] |}).

End Collaborators.

Arguments getActionSize {Board} _.
Arguments stringRepresentation {Board} _ _.
Arguments getValidMoves {Board} _ _ _.
Arguments getNextState {Board} _ _ _ _.
Arguments getCanonicalForm {Board} _ _ _.
Arguments getGameEnded {Board} _ _ _.
Arguments predict {Board} _ _.
Arguments simulate {Board SimState} _ _ _.
Arguments game {Board SimState} _.
Arguments nnet {Board SimState} _.
Arguments args {Board SimState} _.
Arguments mc {Board SimState} _.
Arguments K {Board SimState} _.
Arguments qsa {Board SimState} _.
Arguments EvPredict {Board} b.
Arguments EvSimulate {Board} b value.
Arguments EvLogError {Board} msg.
Arguments self {Board SimState} _.
Arguments sim_state {Board SimState} _.
Arguments trace {Board SimState} _.
Arguments mkWorld {Board SimState} _ _ _.
Arguments mkPlayer {Board SimState} _ _ _ _ _ _.
Arguments ret {Board SimState A} a _.
Arguments bind {Board SimState A B} m f _.
Arguments raise {Board SimState A} e _.
Arguments lift {Board SimState A} r _.
Arguments get_self {Board SimState} _.
Arguments with_qsa {Board SimState} p q.
Arguments assign_qsa {Board SimState} q _.
Arguments read_qsa {Board SimState} _.
Arguments emit {Board SimState} e _.
Arguments call_predict {Board SimState} b _.
Arguments call_simulate {Board SimState} b _.

Declare Scope py_scope.
Delimit Scope py_scope with py.
Notation "x <- m ;; k" := (bind m (fun x => k))
  (at level 61, m at next level, right associativity) : py_scope.
Notation "' pat <- m ;; k" := (bind m (fun x => match x with pat => k end))
  (at level 61, pat pattern, m at next level, right associativity) : py_scope.
Notation "m ;; k" := (bind m (fun _ => k))
  (at level 61, right associativity) : py_scope.

Local Open Scope py_scope.

Definition res_map {A B : Type} (f : A -> B) (r : Res A) : Res B :=
  match r with
  | Ok a => Ok (f a)
  | Raise e => Raise e
  end.

(** The message of line 52. *)
Definition masked_msg : string :=
  "All valid moves were masked, doing a workaround."%string.

Section Selector.

Variable Board : Type.
Variable SimState : Type.

(** The selection kernel behind [np.argpartition]: for an array and a
    position [kth] inside it, the indices of the array in partitioned
    order.  numpy leaves the order inside the two parts open, so the kernel
    is a parameter; [argpartition_post] below is what numpy promises. *)
Variable partition_perm : list Q -> nat -> list nat.

(** [np.argpartition(a, kth)]: a negative [kth] counts from the end, a
    [kth] outside a non-empty array raises. *)
Definition argpartition (a : list Q) (kth : Z) : Res (list nat) :=
  let n := length a in
  let kth' := if (kth <? 0)%Z then (kth + Z.of_nat n)%Z else kth in
  if Nat.eqb n 0 then Ok []
  else if ((kth' <? 0)%Z || (Z.of_nat n <=? kth')%Z)%bool
       then Raise (ValueError_kth kth' n)
       else Ok (partition_perm a (Z.to_nat kth')).

(** [self.qsa.append(x)], [self.qsa.sort(...)], [self.qsa.reverse()]:
    the list held by the attribute is changed in place. *)
Definition modify_qsa (f : list (Q * nat) -> list (Q * nat))
  : M Board SimState unit :=
  q <- read_qsa ;;
  assign_qsa (f q).

(** Lines 67-72: the rollouts of one candidate, appended to [values]. *)
Fixpoint rollouts (n : nat) (next_s : Board) (values : list Q)
  : M Board SimState (list Q) :=
  match n with
  | O => ret values
  | S n' =>
      value <- call_simulate next_s ;;
      rollouts n' next_s (values ++ [value])
  end.

(** [for x in l: body] *)
Fixpoint for_each {A : Type} (l : list A) (body : A -> M Board SimState unit)
  : M Board SimState unit :=
  match l with
  | [] => ret tt
  | x :: l' => body x ;; for_each l' body
  end.

(** Lines 42-54: masking and renormalisation of the prior. *)
Definition renormalize (Ps : list Q) (valids : list Q)
  : M Board SimState (list Q) :=
  Ps <- lift (Np.mul Ps valids) ;;
  let sum_Ps_s := Np.sum Ps in
  if Qlt_bool 0 sum_Ps_s then
    ret (Np.div_scalar Ps sum_Ps_s)
  else
    emit (EvLogError masked_msg) ;;
    Ps <- lift (Np.add Ps valids) ;;
    ret (Np.div_scalar Ps (Np.sum Ps)).

(** Lines 56-61: the candidates. *)
Definition top_k_actions (K : Z) (Ps : list Q) : Res (list nat) :=
  let num_valid_actions := Z.of_nat (Np.count_nonzero Ps) in
  if (num_valid_actions <? K)%Z then
    res_map (py_slice_from (- num_valid_actions))
            (argpartition Ps (- num_valid_actions))
  else
    res_map (py_slice_from (- K)) (argpartition Ps (- K)).

(** Lines 64-76: the body of the loop over the candidates. *)
Definition score_action (canonicalBoard : Board) (action : nat)
  : M Board SimState unit :=
  p <- get_self ;;
  let (next_s, next_player) := getNextState (game p) canonicalBoard 1 action in
  let next_s := getCanonicalForm (game p) next_s next_player in
  values <- rollouts (Z.to_nat (numMCsims (args p))) next_s [] ;;
  let avg_value := Np.mean values in
  modify_qsa (fun q => q ++ [(avg_value, action)]).

(** Lines 78-81: sort by average, reverse, take the head. *)
Definition best_of_qsa : M Board SimState nat :=
  modify_qsa (sort_by fst) ;;
  modify_qsa (@rev _) ;;
  q <- read_qsa ;;
  match q with
  | [] => raise IndexError
  | (_, action) :: _ => ret action
  end.

(** Lines 38-54 of [play]: the value of [Ps] when line 56 is reached. *)
Definition play_prior (canonicalBoard : Board) : M Board SimState (list Q) :=
  assign_qsa [] ;;
  p <- get_self ;;
  let s := stringRepresentation (game p) canonicalBoard in
  '(Ps, v) <- call_predict canonicalBoard ;;
  let valids := map b2q (getValidMoves (game p) canonicalBoard 1) in
  renormalize Ps valids.

(** Lines 38-61 of [play]: the value of [top_k_actions] when the loop
    starts. *)
Definition play_candidates (canonicalBoard : Board)
  : M Board SimState (list nat) :=
  Ps <- play_prior canonicalBoard ;;
  p <- get_self ;;
  lift (top_k_actions (K p) Ps).

(** [MonteCarloBasedPlayer.play], lines 25-81 *)
Definition play (canonicalBoard : Board) : M Board SimState nat :=
  top_k_actions <- play_candidates canonicalBoard ;;
  for_each top_k_actions (score_action canonicalBoard) ;;
  best_of_qsa.

(** [MonteCarloBasedPlayer.getActionProb], lines 83-105 *)
Definition getActionProb (canonicalBoard : Board) (temp : Z)
  : M Board SimState (list Q) :=
  p <- get_self ;;
  if negb (getGameEnded (game p) canonicalBoard 1 =? 0)%Z then
    ret (Np.zeros (getActionSize (game p)))
  else
    let action_probs := Np.zeros (getActionSize (game p)) in
    best_action <- play canonicalBoard ;;
    action_probs <- lift (Np.set_item action_probs best_action 1) ;;
    ret action_probs.

(** [MonteCarloBasedPlayer.__init__], lines 6-23; [MonteCarlo] is the
    constructor of the simulator class. *)
Definition init (MonteCarlo : Game Board -> NNet Board -> Args ->
                              MonteCarloObj Board SimState)
  (game : Game Board) (nnet : NNet Board) (args : Args)
  : MonteCarloBasedPlayer Board SimState :=
  {| game := game;
     nnet := nnet;
     args := args;
     mc := MonteCarlo game nnet args;
     K := mc_topk args;
     qsa := None |}.

End Selector.

Arguments modify_qsa {Board SimState} f _.
Arguments rollouts {Board SimState} n next_s values _.
Arguments for_each {Board SimState A} l body _.
Arguments renormalize {Board SimState} Ps valids _.
Arguments score_action {Board SimState} canonicalBoard action _.
Arguments best_of_qsa {Board SimState} _.
Arguments play_prior {Board SimState} canonicalBoard _.
Arguments play_candidates {Board SimState} partition_perm canonicalBoard _.
Arguments play {Board SimState} partition_perm canonicalBoard _.
Arguments getActionProb {Board SimState} partition_perm canonicalBoard temp _.
Arguments init {Board SimState} MonteCarlo game nnet args.

(* ================================================================== *)
(** * Concrete collaborators *)
(* ================================================================== *)

(** A selection kernel that sorts all indices by value (a full stable sort
    is one admissible way to partition). *)
Definition argsort (a : list Q) : list nat :=
  sort_by (fun i => nth i a 0) (seq 0 (length a)).

Definition argsort_kernel (a : list Q) (kth : nat) : list nat := argsort a.

(** A game with one decision: position [0] is the root, position [S a] is
    reached from it by action [a].  The legality mask and the prior are
    fixed vectors, and a simulation from position [S a] returns the [a]-th
    entry of a table. *)
Module Toy.

Definition game (mask : list bool) (ended : Z) : Game nat :=
  {| getActionSize := length mask;
     stringRepresentation := fun _ => EmptyString;
     getValidMoves := fun _ _ => mask;
     getNextState := fun _ _ a => (S a, (-1)%Z);
     getCanonicalForm := fun b _ => b;
     getGameEnded := fun _ _ => ended |}.

Definition nnet (prior : list Q) : NNet nat :=
  {| predict := fun _ => (prior, 0) |}.

Definition MonteCarlo (table : list Q)
  (g : Game nat) (n : NNet nat) (a : Args) : MonteCarloObj nat nat :=
  {| simulate := fun b s => (nth (pred b) table 0, S s) |}.

Definition args (sims topk : Z) : Args :=
  {| numMCsims := sims; maxRollouts := 5; maxDepth := 5; mc_topk := topk |}.

Definition player (mask : list bool) (ended : Z) (prior table : list Q)
  (sims topk : Z) : MonteCarloBasedPlayer nat nat :=
  init (MonteCarlo table) (game mask ended) (nnet prior) (args sims topk).

Definition world (p : MonteCarloBasedPlayer nat nat) : World nat nat :=
  {| self := p; sim_state := O; trace := [] |}.

(** Four actions, three allowed and with a positive prior; [K = 3]. *)
Definition w_top3 : World nat nat :=
  world (player [true; true; false; true] 0
                [1 # 2; 1 # 4; 1 # 8; 1 # 8] [1; 3; 9; 2] 2 3).

(** The predictor puts all its mass on the one forbidden action. *)
Definition w_fallback : World nat nat :=
  world (player [true; true; false; true] 0 [0; 0; 1; 0] [0; 0; 9; 1] 2 3).

(** Two allowed actions, both with a positive prior; [K = 3]. *)
Definition w_two_legal : World nat nat :=
  world (player [true; true; false] 0 [1 # 4; 3 # 4; 0] [0; 0; 0] 1 3).

(** Two allowed actions, one of them with prior zero; [K = 3]. *)
Definition w_zero_prior : World nat nat :=
  world (player [true; true; false] 0 [1; 0; 0] [5; 7; 9] 2 3).

(** Two allowed actions whose rollouts all return 0; [K = 2]. *)
Definition w_tie : World nat nat :=
  world (player [true; true] 0 [1 # 4; 3 # 4] [0; 0] 1 2).

(** [K = 0]; action 1 is forbidden and its rollouts return 5. *)
Definition w_K0 : World nat nat :=
  world (player [true; false] 0 [1; 0] [0; 5] 1 0).

(** A board that has ended. *)
Definition w_ended : World nat nat :=
  world (player [true; true; false; true] 1 [0; 0; 1; 0] [0; 0; 9; 1] 2 3).

(** The predictor answers with three numbers for four actions. *)
Definition w_wrong_shape : World nat nat :=
  world (player [true; true; false; true] 0
                [1 # 2; 1 # 4; 1 # 4] [1; 3; 9; 2] 2 3).

(** [K = -1] on three actions; the rollouts of action 1 return 7. *)
Definition w_K_minus1 : World nat nat :=
  world (player [true; true; false] 0 [1 # 4; 3 # 4; 0] [5; 7; 9] 2 (-1)).

(** [K = -5] on two actions. *)
Definition w_K_minus5 : World nat nat :=
  world (player [true; false] 0 [1; 0] [0; 5] 1 (-5)).

End Toy.

(** What numpy promises about the kernel of [np.argpartition]: the result
    lists every index once, nothing in front of position [kth] is larger
    than what is behind it, and the entry at [kth] separates the two. *)
Definition argpartition_post (a : list Q) (kth : nat) (idx : list nat) : Prop :=
  Permutation idx (seq 0 (length a)) /\
  forall i j, (i <= kth)%nat -> (kth <= j)%nat -> (j < length a)%nat ->
              nth (nth i idx O) a 0 <= nth (nth j idx O) a 0.

Definition kernel_ok (partition_perm : list Q -> nat -> list nat) : Prop :=
  forall a kth, (kth < length a)%nat ->
                argpartition_post a kth (partition_perm a kth).

(* ================================================================== *)
(** * Vocabulary of the statements *)
(* ================================================================== *)

(** The indices of the non-zero entries of an array. *)
Definition support (P : list Q) : list nat :=
  filter (fun i => Qnonzero (nth i P 0)) (seq 0 (length P)).

Definition zero_set (P : list Q) : list nat :=
  filter (fun i => negb (Qnonzero (nth i P 0))) (seq 0 (length P)).

(** Lines 64-65: the position the rollouts of [action] start from. *)
Definition next_board {Board : Type} (g : Game Board) (canonicalBoard : Board)
  (action : nat) : Board :=
  let (next_s, next_player) := getNextState g canonicalBoard 1 action in
  getCanonicalForm g next_s next_player.

(** The world with another value of [self.qsa], another simulator state and
    more events. *)
Definition update_world {Board SimState : Type} (w : World Board SimState)
  (q : option (list (Q * nat))) (s : SimState) (evs : list (Event Board))
  : World Board SimState :=
  {| self := with_qsa (self w) q;
     sim_state := s;
     trace := trace w ++ evs |}.

(** The scored-action entry of a candidate with its rollout outcomes. *)
Definition scored_entry (x : list Q * nat) : Q * nat :=
  (Np.mean (fst x), snd x).

(** The outcomes in [outs] were all returned by the simulator asked about
    position [s]. *)
Definition simulated {Board SimState : Type}
  (p : MonteCarloBasedPlayer Board SimState) (s : Board) (outs : list Q)
  : Prop :=
  Forall (fun v => exists st, v = fst (simulate (mc p) s st)) outs.

(** The prior after masking, for a prior and a mask of one length. *)
Definition masked (prior : list Q) (mask : list bool) : list Q :=
  Np.zip_with Qmult prior (map b2q mask).

(** Whether line 45 sends the computation to the workaround. *)
Definition fallback_taken (prior : list Q) (mask : list bool) : bool :=
  negb (Qlt_bool 0 (Np.sum (masked prior mask))).

(** The array [Ps] that reaches line 56. *)
Definition renormalized (prior : list Q) (mask : list bool) : list Q :=
  let m := masked prior mask in
  if fallback_taken prior mask then
    let m' := Np.zip_with Qplus m (map b2q mask) in
    Np.div_scalar m' (Np.sum m')
  else Np.div_scalar m (Np.sum m).

(** How many actions the mask allows. *)
Definition num_legal (mask : list bool) : nat :=
  length (filter (fun v => v) mask).

(** What the predictor and the rules provider answer for a board. *)
Definition prior_of {Board SimState : Type}
  (p : MonteCarloBasedPlayer Board SimState) (b : Board) : list Q :=
  fst (predict (nnet p) b).

Definition mask_of {Board SimState : Type}
  (p : MonteCarloBasedPlayer Board SimState) (b : Board) : list bool :=
  getValidMoves (game p) b 1.

(** The events of lines 38-54. *)
Definition prior_events {Board : Type} (b : Board) (fallback : bool)
  : list (Event Board) :=
  EvPredict b :: (if fallback then [EvLogError masked_msg] else []).

(** The events of the rollouts of the scored candidates, in order. *)
Definition rollout_events {Board : Type} (g : Game Board) (b : Board)
  (scored : list (list Q * nat)) : list (Event Board) :=
  flat_map (fun x => map (EvSimulate (next_board g b (snd x))) (fst x)) scored.

(** The mask allows action [a]. *)
Definition legal (mask : list bool) (a : nat) : Prop :=
  nth a mask false = true.

(** [v] is the vector of length [n] with 1 at [a] and 0 elsewhere. *)
Definition one_hot (n a : nat) (v : list Q) : Prop :=
  length v = n /\ (a < n)%nat /\ nth a v 0 = 1 /\
  forall j, j <> a -> nth j v 0 = 0.

(** [p'] has the attributes of [p] that [__init__] set. *)
Definition same_frame {Board SimState : Type}
  (p p' : MonteCarloBasedPlayer Board SimState) : Prop :=
  game p' = game p /\ nnet p' = nnet p /\ args p' = args p /\
  mc p' = mc p /\ K p' = K p.

(** A computation that leaves these attributes alone and never removes
    [qsa]. *)
Definition keeps_frame {Board SimState A : Type} (m : M Board SimState A)
  : Prop :=
  forall w, same_frame (self w) (self (snd (m w))) /\
            (qsa (self w) <> None -> qsa (self (snd (m w))) <> None).


Create HintDb frame.

(* ================================================================== *)
(** * Further code of the repository *)
(* ================================================================== *)

(** The element types of torch tensors (the real ones). *)
Inductive DType : Type :=
| Float16 | BFloat16 | Float32 | Float64
| UInt8 | Int8 | Int16 | Int32 | Int64
| Bool.

Definition DType_eq_dec (a b : DType) : {a = b} + {a <> b}.
Proof. decide equality. Defined.

Definition dtype_eqb (a b : DType) : bool :=
  if DType_eq_dec a b then true else false.

(** Exceptions of the code below, next to the earlier ones. *)
Inductive PyExn : Type :=
| Earlier (e : Exn)
| ValueError_argmax_empty           (* argmax of an empty sequence *)
| RuntimeError_view (numel n : nat) (* shape [-1, n] invalid for the input *)
| RuntimeError_view_stride          (* view size is not compatible with the
                                       input tensor's size and stride *)
| RuntimeError_dtype (mat1 mat2 : DType)
                                    (* mat1 and mat2 must have the same
                                       dtype *)
| TypeError_not_module (typename : string)
                                    (* ... is not a Module subclass *)
| TypeError_not_callable            (* 'NoneType' object is not callable *)
| EvalError (source : string).      (* eval(source) raised *)

Inductive Outcome (A : Type) : Type :=
| Return (a : A)
| Throw (e : PyExn).
Arguments Return {A} a.
Arguments Throw {A} e.

Module NpMore.

(** The scan of [np.argmax]: [best] at index [best_i] is the largest entry
    seen so far, [i] is the index of the head of what is left.  A later
    entry wins only when it is strictly larger, so the first occurrence of
    the maximum is returned. *)
Fixpoint argmax_from (best_i : nat) (best : Q) (i : nat) (a : list Q) : nat :=
  match a with
  | [] => best_i
  | x :: a' =>
      if Qlt_bool best x then argmax_from i x (S i) a'
      else argmax_from best_i best (S i) a'
  end.

(** [np.argmax(a)] for a 1-D array; an empty array raises. *)
Definition argmax (a : list Q) : Outcome nat :=
  match a with
  | [] => Throw ValueError_argmax_empty
  | x :: a' => Return (argmax_from O x 1 a')
  end.

End NpMore.

(** W3D5_Tutorial1_Solution_9524e84f.py, line 121:
    [n1p = lambda x: np.argmax(mc1.getActionProb(x))], the player object
    [mc1] being [self] of the world; [temp] has its default value 1. *)
Definition n1p {Board SimState : Type}
  (partition_perm : list Q -> nat -> list nat) (x : Board)
  (w : World Board SimState) : Outcome nat * World Board SimState :=
  match getActionProb partition_perm x 1 w with
  | (Ok action_probs, w') => (NpMore.argmax action_probs, w')
  | (Raise e, w') => (Throw (Earlier e), w')
  end.

(** Counting the calls of the simulator and of the predictor in a trace. *)
Definition is_simulate {Board : Type} (e : Event Board) : bool :=
  match e with
  | EvSimulate _ _ => true
  | _ => false
  end.

Definition is_predict {Board : Type} (e : Event Board) : bool :=
  match e with
  | EvPredict _ => true
  | _ => false
  end.

Definition count_simulate {Board : Type} (evs : list (Event Board)) : nat :=
  length (filter is_simulate evs).

Definition count_predict {Board : Type} (evs : list (Event Board)) : nat :=
  length (filter is_predict evs).

(** A toy world whose predictor answers with three numbers for four
    actions. *)
Definition toy_bad_shape : World nat nat :=
  Toy.world (Toy.player [true; true; false; true] 0
                        [1 # 2; 1 # 4; 1 # 4] [1; 3; 9; 2] 2 3).

(** A toy world whose predictor answers with one number for three
    actions. *)
Definition toy_single_prior : World nat nat :=
  Toy.world (Toy.player [true; true; false] 0 [1 # 2] [1; 3; 9] 2 3).

(* ================================================================== *)
(** * [Net] : the multi-layer perceptron builder *)
(* ================================================================== *)

From Stdlib Require DecimalString DecimalNat.

Module Mlp.
Import Torch.

(** An [nn.Linear] module: [weight] has [out_features] rows of
    [in_features] entries, [bias] has [out_features] entries, and both
    hold elements of type [param_dtype]. *)
Record Linear : Type := mkLinear {
  in_features : nat;
  out_features : nat;
  param_dtype : DType;
  weight : list (list Q);
  bias : list Q
}.

(** What an [nn.Sequential] stores under a name: a module, or [None].
    An activation is taken to work entry by entry, as [ReLU], [LeakyReLU],
    [Tanh] or [Sigmoid] do. *)
Inductive Layer : Type :=
| LinearLayer (l : Linear)
| ActivationLayer (f : Q -> Q)
| NoneLayer.

(** An object handed to [add_module]: a module or [None], or anything
    else (a class, a function, a number), known by the name of its type. *)
Inductive PyObject : Type :=
| ModuleOrNone (m : Layer)
| OtherObject (typename : string).

(** A [Net] object: the saved input size and the [nn.Sequential] with its
    named entries in registration order. *)
Record Net : Type := mkNet {
  input_feature_num : nat;
  mlp : list (string * Layer)
}.

(** A tensor given to [forward]: its element type, its elements in
    logical (row-major) order, whether it is contiguous, and, for a tensor
    that is not, whether its sizes and strides allow [view(-1, n)].  All
    tensors, the parameters included, are on one device. *)
Record Tensor : Type := mkTensor {
  dtype : DType;
  elements : list Q;
  contiguous : bool;
  strides_fit : nat -> bool
}.

Definition numel (x : Tensor) : nat := length (elements x).

(** Whether the layout of [x] allows [x.view(-1, n)], the sizes apart: a
    contiguous tensor can be viewed in any shape of its size. *)
Definition view_allowed (x : Tensor) (n : nat) : bool :=
  contiguous x || strides_fit x n.

(** A two-dimensional tensor with its element type. *)
Definition Typed2 : Type := (DType * Tensor2)%type.

(** ['%d' % n] *)
Definition decimal (n : nat) : string :=
  DecimalString.NilEmpty.string_of_uint (Nat.to_uint n).

(** [self._modules[name] = module]: a name that is already there keeps
    its place and gets the new value. *)
Fixpoint set_module (mods : list (string * Layer)) (name : string)
  (m : Layer) : list (string * Layer) :=
  match mods with
  | [] => [(name, m)]
  | (k, v) :: rest =>
      if String.eqb k name then (k, m) :: rest
      else (k, v) :: set_module rest name m
  end.

(** [self.mlp.add_module(name, module)]: an object that is neither a
    module nor [None] is refused with a [TypeError]; otherwise the object
    is stored.  (The names used here are not empty, hold no dot and are no
    attributes of an [nn.Sequential], so the [KeyError]s of [add_module]
    cannot occur.) *)
Definition add_module (mods : list (string * Layer)) (name : string)
  (module : PyObject) : Outcome (list (string * Layer)) :=
  match module with
  | ModuleOrNone m => Return (set_module mods name m)
  | OtherObject typename => Throw (TypeError_not_module typename)
  end.

Section Build.

(** The state of torch's random generator and one draw from it. *)
Variable RngState : Type.
Variable draw : RngState -> Q * RngState.

(** [torch.get_default_dtype()], the element type of new parameters. *)
Variable default_dtype : DType.

(** [eval(source)] for the source text of an activation; the evaluation
    is taken to depend on the text only. *)
Variable eval_nn : string -> Outcome PyObject.

Fixpoint draws (n : nat) (st : RngState) : list Q * RngState :=
  match n with
  | O => ([], st)
  | S n' =>
      let (x, st1) := draw st in
      let (xs, st2) := draws n' st1 in
      (x :: xs, st2)
  end.

Fixpoint draw_rows (rows cols : nat) (st : RngState)
  : list (list Q) * RngState :=
  match rows with
  | O => ([], st)
  | S rows' =>
      let (r, st1) := draws cols st in
      let (rs, st2) := draw_rows rows' cols st1 in
      (r :: rs, st2)
  end.

(** [nn.Linear(in_num, out_num)]: the weight is initialised first, then
    the bias. *)
Definition nn_Linear (in_num out_num : nat) (st : RngState)
  : Linear * RngState :=
  let (w, st1) := draw_rows out_num in_num st in
  let (b, st2) := draws out_num st1 in
  ({| in_features := in_num; out_features := out_num;
      param_dtype := default_dtype; weight := w; bias := b |}, st2).

(** W1D3_Tutorial1_Solution_a1ac91af.py, lines 28-36: the loop over the
    hidden layers, from index [i] on. *)
Fixpoint hidden_layers (actv : string) (i : nat) (in_num : nat)
  (hidden_unit_nums : list nat) (mlp : list (string * Layer))
  (st : RngState) : Outcome (nat * list (string * Layer) * RngState) :=
  match hidden_unit_nums with
  | [] => Return (in_num, mlp, st)
  | out_num :: rest =>
      let (layer, st) := nn_Linear in_num out_num st in
      let in_num := out_num in
      match add_module mlp (String.append "Linear_" (decimal i))
                       (ModuleOrNone (LinearLayer layer)) with
      | Throw e => Throw e
      | Return mlp =>
          match eval_nn (String.append "nn." actv) with
          | Throw e => Throw e
          | Return actv_layer =>
              match add_module mlp (String.append "Activation_" (decimal i))
                               actv_layer with
              | Throw e => Throw e
              | Return mlp => hidden_layers actv (S i) in_num rest mlp st
              end
          end
      end
  end.

(** [Net.__init__], lines 6-39 *)
Definition init (actv : string) (input_feature_num : nat)
  (hidden_unit_nums : list nat) (output_feature_num : nat) (st : RngState)
  : Outcome (Net * RngState) :=
  match hidden_layers actv O input_feature_num hidden_unit_nums [] st with
  | Throw e => Throw e
  | Return (in_num, mlp, st) =>
      let (out_layer, st) := nn_Linear in_num output_feature_num st in
      match add_module mlp "Output_Linear"
                       (ModuleOrNone (LinearLayer out_layer)) with
      | Throw e => Throw e
      | Return mlp =>
          Return ({| input_feature_num := input_feature_num;
                     mlp := mlp |}, st)
      end
  end.

End Build.

(** [k] rows of [n] entries cut from the front of [flat]. *)
Fixpoint chunks (k n : nat) (flat : list Q) : list (list Q) :=
  match k with
  | O => []
  | S k' => firstn n flat :: chunks k' n (skipn n flat)
  end.

(** [x.view(-1, n)]: the number of rows is inferred from the number of
    elements, which fails when [n] is 0 or does not divide it; then the
    sizes and strides of [x] must allow the new shape.  The view keeps the
    element type and the logical order of the elements. *)
Definition view_rows (n : nat) (x : Tensor) : Outcome Typed2 :=
  if Nat.eqb n 0 then Throw (RuntimeError_view (numel x) n)
  else if Nat.eqb (numel x mod n) 0 then
    if view_allowed x n then
      Return (dtype x,
              {| t_rows := numel x / n;
                 t_cols := n;
                 t_data := chunks (numel x / n) n (elements x) |})
    else Throw RuntimeError_view_stride
  else Throw (RuntimeError_view (numel x) n).

(** [rows + b], the vector [b] being broadcast over the rows. *)
Fixpoint add_rows (rows : list (list Q)) (b : list Q)
  : Res (list (list Q)) :=
  match rows with
  | [] => Ok []
  | r :: rs =>
      match Np.add r b with
      | Raise e => Raise e
      | Ok r' =>
          match add_rows rs b with
          | Raise e => Raise e
          | Ok rs' => Ok (r' :: rs')
          end
      end
  end.

(** The forward pass of [nn.Linear], [x @ weight.T + bias]: the element
    types are compared first, then the shapes. *)
Definition linear_forward (l : Linear) (x : Typed2) : Outcome Typed2 :=
  if dtype_eqb (fst x) (param_dtype l) then
    let w := {| t_rows := out_features l; t_cols := in_features l;
                t_data := weight l |} in
    match matmul (snd x) (transpose w) with
    | Raise e => Throw (Earlier e)
    | Ok y =>
        match add_rows (t_data y) (bias l) with
        | Raise e => Throw (Earlier e)
        | Ok d =>
            Return (param_dtype l,
                    {| t_rows := t_rows y;
                       t_cols := if Nat.eqb (t_cols y) 1
                                 then length (bias l) else t_cols y;
                       t_data := d |})
        end
    end
  else Throw (RuntimeError_dtype (fst x) (param_dtype l)).

(** One entry of the [nn.Sequential] applied to [x]; calling [None]
    raises. *)
Definition layer_forward (m : Layer) (x : Typed2) : Outcome Typed2 :=
  match m with
  | LinearLayer l => linear_forward l x
  | ActivationLayer f =>
      Return (fst x,
              {| t_rows := t_rows (snd x); t_cols := t_cols (snd x);
                 t_data := map (map f) (t_data (snd x)) |})
  | NoneLayer => Throw TypeError_not_callable
  end.

(** The forward pass of [nn.Sequential]: the entries in order. *)
Fixpoint sequential_forward (mods : list (string * Layer)) (x : Typed2)
  : Outcome Typed2 :=
  match mods with
  | [] => Return x
  | (_, m) :: rest =>
      match layer_forward m x with
      | Throw e => Throw e
      | Return y => sequential_forward rest y
      end
  end.

(** [Net.forward], lines 41-58 *)
Definition forward (net : Net) (x : Tensor) : Outcome Typed2 :=
  match view_rows (input_feature_num net) x with
  | Throw e => Throw e
  | Return x =>
      let logits := sequential_forward (mlp net) x in
      logits
  end.

(** The sizes of the [nn.Linear] modules of a module list, in order. *)
Fixpoint linear_dims (mods : list (string * Layer)) : list (nat * nat) :=
  match mods with
  | [] => []
  | (_, LinearLayer l) :: rest =>
      (in_features l, out_features l) :: linear_dims rest
  | _ :: rest => linear_dims rest
  end.

(** The parameters of an [nn.Linear] have the shapes its sizes announce. *)
Definition linear_ok (l : Linear) : Prop :=
  length (weight l) = out_features l /\
  Forall (fun r => length r = in_features l) (weight l) /\
  length (bias l) = out_features l.

(** The names [Net.__init__] gives to the modules of hidden layer [i], and
    to all modules when there are [k] hidden layers. *)
Definition names2 (i : nat) : list string :=
  [String.append "Linear_" (decimal i);
   String.append "Activation_" (decimal i)].

Definition module_names (k : nat) : list string :=
  flat_map names2 (seq 0 k) ++ ["Output_Linear"%string].

(** The width a row has after the entries [mods], starting from width [c],
    when every [nn.Linear] finds the width it expects and no entry is
    [None]. *)
Fixpoint chain (c : nat) (mods : list (string * Layer)) : option nat :=
  match mods with
  | [] => Some c
  | (_, LinearLayer l) :: rest =>
      if Nat.eqb (in_features l) c then chain (out_features l) rest else None
  | (_, ActivationLayer _) :: rest => chain c rest
  | (_, NoneLayer) :: rest => None
  end.

(** An entry is a module whose parameters, if it has any, are well shaped
    and of element type [d]. *)
Definition layer_ok (d : DType) (nm : string * Layer) : Prop :=
  match snd nm with
  | LinearLayer l => linear_ok l /\ param_dtype l = d
  | ActivationLayer _ => True
  | NoneLayer => False
  end.

(** A stored value is the value [m], or a well-shaped [nn.Linear] with
    parameters of element type [d]. *)
Definition linear_or (d : DType) (m : Layer) (nm : string * Layer) : Prop :=
  snd nm = m \/
  exists l, snd nm = LinearLayer l /\ linear_ok l /\ param_dtype l = d.

(** The first entry of a module list is an [nn.Linear] with parameters
    of element type [d]. *)
Definition first_linear (d : DType) (mods : list (string * Layer)) : Prop :=
  match mods with
  | (_, LinearLayer l) :: _ => param_dtype l = d
  | _ => False
  end.

(** A generator that counts, and an [eval] that knows three activations,
    the class [ReLU] and an expression whose value is [None]. *)
Definition toy_draw (st : nat) : Q * nat := (nat2q st, S st).

Definition toy_relu (x : Q) : Q := if Qle_bool 0 x then x else 0.

Definition toy_leaky (x : Q) : Q := if Qle_bool 0 x then x else (1 # 10) * x.

Definition toy_eval (source : string) : Outcome PyObject :=
  if String.eqb source "nn.ReLU()"
  then Return (ModuleOrNone (ActivationLayer toy_relu))
  else if String.eqb source "nn.LeakyReLU(0.1)"
  then Return (ModuleOrNone (ActivationLayer toy_leaky))
  else if String.eqb source "nn.Identity()"
  then Return (ModuleOrNone (ActivationLayer (fun x => x)))
  else if String.eqb source "nn.ReLU"
  then Return (OtherObject "type")
  else if String.eqb source "nn.ReLU() and None"
  then Return (ModuleOrNone NoneLayer)
  else Throw (EvalError source).

(** A contiguous tensor with the given elements. *)
Definition toy_tensor (d : DType) (l : list Q) : Tensor :=
  {| dtype := d; elements := l; contiguous := true;
     strides_fit := fun _ => false |}.

(** A tensor that is not contiguous and whose strides allow no view in
    rows, such as the transpose of a matrix with more than one row and
    column. *)
Definition toy_transposed (d : DType) (l : list Q) : Tensor :=
  {| dtype := d; elements := l; contiguous := false;
     strides_fit := fun _ => false |}.

End Mlp.

(* ================================================================== *)
(** * [SimpleGraph] and [sq_loss] *)
(* ================================================================== *)

From Stdlib Require Import Lqa.

Module Graph.

(** A [SimpleGraph] object: the weight and the bias, each a tensor of one
    element (lines 21-22). *)
Record SimpleGraph : Type := mkSimpleGraph {
  w : list Q;
  b : list Q
}.

(** [SimpleGraph.__init__], lines 6-22; that both arguments are floats is
    in the types. *)
Definition init (w b : Q) : SimpleGraph :=
  {| w := [w]; b := [b] |}.

Section Forward.

(** What [torch.tanh] returns for one entry. *)
Variable tanh : Q -> Q.

(** [SimpleGraph.forward], lines 24-38, for a 1-D tensor [x] *)
Definition forward (self : SimpleGraph) (x : list Q) : Res (list Q) :=
  match Np.mul x (w self) with
  | Raise e => Raise e
  | Ok xw =>
      match Np.add xw (b self) with
      | Raise e => Raise e
      | Ok s =>
          let prediction := map tanh s in
          Ok prediction
      end
  end.

End Forward.

(** [sq_loss], lines 41-58, for 1-D tensors of a floating element type,
    the entries taken exactly *)
Definition sq_loss (y_true y_prediction : list Q) : Res (list Q) :=
  match Np.broadcast2 Qminus y_true y_prediction with
  | Raise e => Raise e
  | Ok d =>
      let loss := map (fun x => x ^ 2) d in
      Ok loss
  end.

(** A 1-D tensor with its element type: floating, or [torch.int64]. *)
Inductive Tensor1 : Type :=
| FloatTensor (l : list Q)
| Int64Tensor (l : list Z).

(** The values of [torch.int64], and what a 64-bit operation keeps of its
    exact result. *)
Definition int64 (z : Z) : Prop := (- 2 ^ 63 <= z < 2 ^ 63)%Z.

Definition wrap64 (z : Z) : Z := ((z + 2 ^ 63) mod 2 ^ 64 - 2 ^ 63)%Z.

Fixpoint zip_with_int (f : Z -> Z -> Z) (a b : list Z) : list Z :=
  match a, b with
  | x :: a', y :: b' => f x y :: zip_with_int f a' b'
  | _, _ => []
  end.

(** Broadcasting of two 1-D integer tensors, as [Np.broadcast2]. *)
Definition broadcast2_int (f : Z -> Z -> Z) (a b : list Z)
  : Res (list Z) :=
  if Nat.eqb (length a) (length b) then Ok (zip_with_int f a b)
  else if Nat.eqb (length a) 1 then Ok (map (f (hd 0%Z a)) b)
  else if Nat.eqb (length b) 1 then Ok (map (fun x => f x (hd 0%Z b)) a)
  else Raise (ValueError_broadcast (length a) (length b)).

(** The entries of a tensor as floating numbers (type promotion). *)
Definition to_float (t : Tensor1) : list Q :=
  match t with
  | FloatTensor l => l
  | Int64Tensor l => map inject_Z l
  end.

Definition length1 (t : Tensor1) : nat :=
  match t with
  | FloatTensor l => length l
  | Int64Tensor l => length l
  end.

(** [sq_loss], lines 41-58, with the element types: two [int64] tensors
    are subtracted and squared in 64-bit arithmetic, which wraps around;
    when one operand is floating the other is promoted and the loss is
    floating. *)
Definition sq_loss_dtype (y_true y_prediction : Tensor1) : Res Tensor1 :=
  match y_true, y_prediction with
  | Int64Tensor a, Int64Tensor c =>
      match broadcast2_int (fun x y => wrap64 (x - y)) a c with
      | Raise e => Raise e
      | Ok d =>
          let loss := map (fun x => wrap64 (x ^ 2)) d in
          Ok (Int64Tensor loss)
      end
  | _, _ =>
      match sq_loss (to_float y_true) (to_float y_prediction) with
      | Raise e => Raise e
      | Ok loss => Ok (FloatTensor loss)
      end
  end.

(** Whether a tensor is floating. *)
Definition is_floating (t : Tensor1) : bool :=
  match t with
  | FloatTensor _ => true
  | Int64Tensor _ => false
  end.

End Graph.

(** The activity of two stimuli in a layer of three units. *)
Definition toy_activity : Torch.Tensor2 :=
  Torch.mkTensor2 2 3 [[1; 2; 3]; [4; 5; 6]].

(** Two batches one above the other ([torch.cat] along dimension 0). *)
Definition stack_rows (a c : Torch.Tensor2) : Torch.Tensor2 :=
  {| Torch.t_rows := Torch.t_rows a + Torch.t_rows c;
     Torch.t_cols := Torch.t_cols a;
     Torch.t_data := Torch.t_data a ++ Torch.t_data c |}.

(* ================================================================== *)
(** * Properties of [ex_net_rsm] *)
(* ================================================================== *)

Module TorchFacts.
Import Torch.

Lemma dot_comm (u v : list Q) : dot u v == dot v u.
Proof.
  revert v; induction u as [|x u IH]; intros [|y v]; simpl; try reflexivity.
  rewrite IH. ring.
Qed.

Lemma map_nth_seq (r : list Q) :
  map (fun j => nth j r 0) (seq 0 (length r)) = r.
Proof.
  induction r as [|x r IH]; simpl; [reflexivity|].
  f_equal. rewrite <- seq_shift, map_map. exact IH.
Qed.

Lemma nth_column (j i : nat) (d : list (list Q)) :
  nth i (column j d) 0 = nth j (nth i d []) 0.
Proof.
  unfold column. revert i; induction d as [|r d IH]; intros [|i]; simpl;
    try reflexivity.
  - now destruct j.
  - now destruct j.
  - apply IH.
Qed.

(** The [j]-th column of the transposed tensor is the [j]-th row. *)
Lemma column_transpose (h : Tensor2) (j : nat) :
  wf h -> (j < t_rows h)%nat ->
  column j (t_data (transpose h)) = nth j (t_data h) [].
Proof.
  intros [Hlen Hrows] Hj. unfold column, transpose; simpl.
  rewrite map_map.
  erewrite map_ext by (intros; apply nth_column).
  assert (Hr : length (nth j (t_data h) []) = t_cols h).
  { rewrite Forall_forall in Hrows. apply Hrows, nth_In. lia. }
  rewrite <- Hr. apply map_nth_seq.
Qed.

Lemma entry_matmul (a b : Tensor2) (r : Tensor2) (i j : nat) :
  matmul a b = Ok r -> (i < length (t_data a))%nat -> (j < t_cols b)%nat ->
  entry r i j = dot (nth i (t_data a) []) (column j (t_data b)).
Proof.
  unfold matmul. destruct (Nat.eqb _ _); [|discriminate].
  intros E Hi Hj. injection E as <-. unfold entry; simpl.
  set (f := fun r0 => map (fun j0 => dot r0 (column j0 (t_data b)))
                          (seq 0 (t_cols b))).
  rewrite (nth_indep _ [] (f [])) by (rewrite length_map; lia).
  rewrite map_nth. unfold f.
  set (g := fun j0 => dot (nth i (t_data a) []) (column j0 (t_data b))).
  rewrite (nth_indep _ 0 (g O)) by (rewrite length_map, length_seq; lia).
  rewrite map_nth, seq_nth by lia. reflexivity.
Qed.

(** C10.  For a well-shaped 2-D tensor [h] with [n] rows, [ex_net_rsm h]
    returns a tensor of shape [n] x [n] whose entry [(i, j)] equals its
    entry [(j, i)], so that it agrees with its own transpose. *)
Theorem ex_net_rsm_square_symmetric (h : Tensor2) :
  wf h ->
  exists rsm,
    ex_net_rsm h = Ok rsm /\
    t_rows rsm = t_rows h /\ t_cols rsm = t_rows h /\ wf rsm /\
    (forall i j, (i < t_rows h)%nat -> (j < t_rows h)%nat ->
                 entry rsm i j == entry rsm j i) /\
    t_rows (transpose rsm) = t_rows rsm /\
    t_cols (transpose rsm) = t_cols rsm /\
    (forall i j, (i < t_rows h)%nat -> (j < t_rows h)%nat ->
                 entry (transpose rsm) i j == entry rsm i j).
Proof.
  intros Hwf. pose proof Hwf as [Hlen Hrows].
  unfold ex_net_rsm.
  destruct (matmul h (transpose h)) as [rsm|e] eqn:E.
  2:{ unfold matmul in E. simpl in E. rewrite Nat.eqb_refl in E. discriminate. }
  assert (Hent : forall i j, (i < t_rows h)%nat -> (j < t_rows h)%nat ->
            entry rsm i j = dot (nth i (t_data h) []) (nth j (t_data h) [])).
  { intros i j Hi Hj. rewrite (entry_matmul _ _ _ _ _ E) by (simpl; lia).
    now rewrite column_transpose. }
  assert (Hshape : t_rows rsm = t_rows h /\ t_cols rsm = t_rows h /\ wf rsm).
  { unfold matmul in E. simpl in E. rewrite Nat.eqb_refl in E.
    injection E as <-. simpl. repeat split; simpl.
    - now rewrite length_map.
    - rewrite Forall_forall. intros r Hr. apply in_map_iff in Hr.
      destruct Hr as [r0 [<- _]]. now rewrite length_map, length_seq. }
  destruct Hshape as [Hr [Hc Hw]].
  assert (Hsym : forall i j, (i < t_rows h)%nat -> (j < t_rows h)%nat ->
                             entry rsm i j == entry rsm j i).
  { intros i j Hi Hj. rewrite !Hent by assumption. apply dot_comm. }
  exists rsm.
  refine (conj eq_refl (conj Hr (conj Hc (conj Hw (conj Hsym _))))).
  split; [simpl; congruence|]. split; [simpl; congruence|].
  intros i j Hi Hj.
    assert (Et : entry (transpose rsm) i j = entry rsm j i).
    { unfold entry at 1, transpose; simpl.
      set (f := fun j0 => column j0 (t_data rsm)).
      rewrite (nth_indep _ [] (f O)) by (rewrite length_map, length_seq; lia).
      rewrite map_nth, seq_nth by lia. unfold f. simpl. apply nth_column. }
  rewrite Et. now apply Hsym.
Qed.

(** The theorem at the 2 x 3 tensor [[1, 2, 3], [4, 5, 6]]. *)
Lemma ex_net_rsm_square_symmetric_witness :
  let h := mkTensor2 2 3 [[1; 2; 3]; [4; 5; 6]] in
  wf h /\
  exists rsm,
    ex_net_rsm h = Ok rsm /\
    t_rows rsm = t_rows h /\ t_cols rsm = t_rows h /\ wf rsm /\
    (forall i j, (i < t_rows h)%nat -> (j < t_rows h)%nat ->
                 entry rsm i j == entry rsm j i) /\
    t_rows (transpose rsm) = t_rows rsm /\
    t_cols (transpose rsm) = t_cols rsm /\
    (forall i j, (i < t_rows h)%nat -> (j < t_rows h)%nat ->
                 entry (transpose rsm) i j == entry rsm i j).
Proof.
  assert (W : wf (mkTensor2 2 3 [[1; 2; 3]; [4; 5; 6]])).
  { split; [reflexivity|]. repeat constructor. }
  split; [exact W|].
  exact (ex_net_rsm_square_symmetric _ W).
Defined.

End TorchFacts.

(* ================================================================== *)
(** * Rationals and arrays *)
(* ================================================================== *)

Lemma Qlt_bool_true (x y : Q) : Qlt_bool x y = true <-> x < y.
Proof.
  unfold Qlt_bool. rewrite negb_true_iff, <- not_true_iff_false, Qle_bool_iff.
  split; [apply Qnot_le_lt | apply Qlt_not_le].
Qed.

Lemma Qlt_bool_false (x y : Q) : Qlt_bool x y = false <-> y <= x.
Proof.
  unfold Qlt_bool. rewrite negb_false_iff. apply Qle_bool_iff.
Qed.

Lemma Qnonzero_true (x : Q) : Qnonzero x = true <-> ~ x == 0.
Proof.
  unfold Qnonzero. rewrite negb_true_iff, <- not_true_iff_false, Qeq_bool_iff.
  tauto.
Qed.

Lemma Qnonzero_false (x : Q) : Qnonzero x = false <-> x == 0.
Proof.
  unfold Qnonzero. rewrite negb_false_iff. apply Qeq_bool_iff.
Qed.

Lemma Qplus_nonneg (x y : Q) : 0 <= x -> 0 <= y -> 0 <= x + y.
Proof.
  intros Hx Hy. apply Qle_trans with (0 + 0); [discriminate|].
  now apply Qplus_le_compat.
Qed.

Lemma nat2q_pos (n : nat) : (0 < n)%nat -> 0 < nat2q n.
Proof.
  intros H. unfold nat2q, Qlt; simpl. lia.
Qed.

Lemma nat2q_S (n : nat) : nat2q (S n) == 1 + nat2q n.
Proof.
  unfold nat2q. rewrite Nat2Z.inj_succ. unfold Z.succ.
  rewrite inject_Z_plus. ring.
Qed.

Module NpFacts.
Import Np.

Lemma length_zip_with f (a b : list Q) :
  length a = length b -> length (zip_with f a b) = length a.
Proof.
  revert b; induction a as [|x a IH]; intros [|y b]; simpl; try easy.
  intros H. f_equal. apply IH. lia.
Qed.

Lemma nth_zip_with f (a b : list Q) (i : nat) :
  length a = length b -> (i < length a)%nat ->
  nth i (zip_with f a b) 0 = f (nth i a 0) (nth i b 0).
Proof.
  revert b i; induction a as [|x a IH]; intros [|y b] [|i]; simpl; try easy;
    try lia.
  intros H Hi. apply IH; lia.
Qed.

Lemma nth_div_scalar (a : list Q) (s : Q) (i : nat) :
  (i < length a)%nat -> nth i (div_scalar a s) 0 = nth i a 0 / s.
Proof.
  intros Hi. unfold div_scalar.
  rewrite (nth_indep _ 0 (0 / s)) by (rewrite length_map; lia).
  exact (map_nth (fun x => x / s) a 0 i).
Qed.

Lemma length_div_scalar (a : list Q) (s : Q) :
  length (div_scalar a s) = length a.
Proof. apply length_map. Qed.

Lemma mul_same_length (a b : list Q) :
  length a = length b -> mul a b = Ok (zip_with Qmult a b).
Proof.
  intros H. unfold mul, broadcast2. now rewrite H, Nat.eqb_refl.
Qed.

Lemma add_same_length (a b : list Q) :
  length a = length b -> add a b = Ok (zip_with Qplus a b).
Proof.
  intros H. unfold add, broadcast2. now rewrite H, Nat.eqb_refl.
Qed.

(** Two lengths that differ, neither of them 1, cannot be broadcast. *)
Lemma mul_mismatch (a b : list Q) :
  length a <> length b -> length a <> 1%nat -> length b <> 1%nat ->
  mul a b = Raise (ValueError_broadcast (length a) (length b)).
Proof.
  intros H Ha Hb. unfold mul, broadcast2.
  apply Nat.eqb_neq in H, Ha, Hb. now rewrite H, Ha, Hb.
Qed.

Lemma sum_nonneg (a : list Q) : Forall (fun x => 0 <= x) a -> 0 <= sum a.
Proof.
  induction 1 as [|x a Hx _ IH]; simpl; [apply Qle_refl|].
  rewrite <- (Qplus_0_l 0). now apply Qplus_le_compat.
Qed.

(** Non-negative numbers with a sum of at most zero are all zero. *)
Lemma sum_nonpos_all_zero (a : list Q) :
  Forall (fun x => 0 <= x) a -> sum a <= 0 -> Forall (fun x => x == 0) a.
Proof.
  induction 1 as [|x a Hx Ha IH]; simpl; intros Hs; constructor.
  - apply Qle_antisym; [|exact Hx].
    apply Qle_trans with (x + sum a); [|exact Hs].
    rewrite <- (Qplus_0_r x) at 1. apply Qplus_le_compat;
      [apply Qle_refl | now apply sum_nonneg].
  - apply IH. apply Qle_trans with (x + sum a); [|exact Hs].
    rewrite <- (Qplus_0_l (sum a)) at 1. apply Qplus_le_compat;
      [exact Hx | apply Qle_refl].
Qed.

Lemma sum_pos_exists (a : list Q) :
  0 < sum a -> exists i, (i < length a)%nat /\ ~ nth i a 0 == 0.
Proof.
  induction a as [|x a IH]; simpl; intros Hs.
  - exfalso. now apply (Qlt_irrefl 0).
  - destruct (Qeq_dec x 0) as [Hx|Hx].
    + rewrite Hx, Qplus_0_l in Hs. destruct (IH Hs) as [i [Hi Hn]].
      exists (S i). split; [lia | exact Hn].
    + exists O. split; [lia | exact Hx].
Qed.

Lemma sum_div_scalar (a : list Q) (s : Q) :
  sum (div_scalar a s) == sum a / s.
Proof.
  induction a as [|x a IH]; simpl.
  - unfold Qdiv. ring.
  - rewrite IH. unfold Qdiv. ring.
Qed.

Lemma sum_map_b2q (mask : list bool) :
  sum (map b2q mask) == nat2q (length (filter (fun v => v) mask)).
Proof.
  induction mask as [|v mask IH]; simpl; [reflexivity|].
  destruct v; simpl length.
  - rewrite nat2q_S, IH. reflexivity.
  - rewrite IH. unfold b2q. ring.
Qed.

Lemma sum_ext (a b : list Q) : Forall2 Qeq a b -> sum a == sum b.
Proof.
  induction 1 as [|x y a b Hxy _ IH]; simpl; [reflexivity|].
  now rewrite Hxy, IH.
Qed.


Lemma count_nonzero_le (a : list Q) : (count_nonzero a <= length a)%nat.
Proof. apply filter_length_le. Qed.

Lemma length_zeros (n : nat) : length (zeros n) = n.
Proof. apply repeat_length. Qed.

Lemma set_item_ok (a : list Q) (i : nat) (x : Q) :
  (i < length a)%nat ->
  exists r, set_item a i x = Ok r /\ length r = length a /\
            nth i r 0 = x /\
            forall j, j <> i -> nth j r 0 = nth j a 0.
Proof.
  revert i; induction a as [|y a IH]; intros [|i] Hi; simpl in *; try lia.
  - exists (x :: a). repeat split. intros [|j] Hj; [congruence | reflexivity].
  - destruct (IH i) as [r [E [Hl [Hn Ho]]]]; [lia|].
    rewrite E. exists (y :: r). repeat split; simpl; try congruence.
    intros [|j] Hj; [reflexivity | apply Ho; congruence].
Qed.

Lemma nth_zeros (n j : nat) : nth j (zeros n) 0 = 0.
Proof.
  unfold zeros. destruct (Nat.lt_ge_cases j n) as [H|H].
  - now apply nth_repeat_lt.
  - apply nth_overflow. now rewrite repeat_length.
Qed.

End NpFacts.

(* ================================================================== *)
(** * The stable sort *)
(* ================================================================== *)

Section SortFacts.
Context {A : Type}.
Variable key : A -> Q.

Let le_key (x y : A) : Prop := key x <= key y.

Lemma insert_by_perm (x : A) (l : list A) :
  Permutation (insert_by key x l) (x :: l).
Proof.
  induction l as [|y l IH]; simpl; [reflexivity|].
  destruct (Qle_bool (key x) (key y)); [reflexivity|].
  rewrite IH. apply perm_swap.
Qed.

Lemma sort_by_perm (l : list A) : Permutation (sort_by key l) l.
Proof.
  induction l as [|x l IH]; simpl; [reflexivity|].
  rewrite insert_by_perm. now constructor.
Qed.

Lemma sort_by_length (l : list A) : length (sort_by key l) = length l.
Proof. apply Permutation_length, sort_by_perm. Qed.

Lemma insert_by_sorted (x : A) (l : list A) :
  StronglySorted le_key l -> StronglySorted le_key (insert_by key x l).
Proof.
  induction 1 as [|y l Hs IH Hy]; simpl.
  - repeat constructor.
  - destruct (Qle_bool (key x) (key y)) eqn:E.
    + apply Qle_bool_iff in E. constructor; [now constructor|].
      constructor; [exact E|].
      rewrite Forall_forall in Hy |- *. intros z Hz.
      unfold le_key. apply Qle_trans with (key y); [exact E | now apply Hy].
    + constructor; [exact IH|].
      assert (Hyx : key y <= key x).
      { apply Qlt_le_weak, Qnot_le_lt. intros H.
        apply Qle_bool_iff in H. congruence. }
      rewrite Forall_forall in Hy |- *. intros z Hz.
      apply (Permutation_in _ (insert_by_perm x l)) in Hz.
      destruct Hz as [<-|Hz]; [exact Hyx | now apply Hy].
Qed.

Lemma sort_by_sorted (l : list A) : StronglySorted le_key (sort_by key l).
Proof.
  induction l as [|x l IH]; simpl; [constructor | now apply insert_by_sorted].
Qed.

Lemma sorted_nth (l : list A) (d : A) (i j : nat) :
  StronglySorted le_key l -> (i <= j)%nat -> (j < length l)%nat ->
  key (nth i l d) <= key (nth j l d).
Proof.
  intros Hs. revert i j. induction Hs as [|x l Hs IH Hx]; simpl; [lia|].
  intros [|i] [|j] Hij Hj; try lia.
  - apply Qle_refl.
  - rewrite Forall_forall in Hx. apply Hx, nth_In. lia.
  - apply IH; lia.
Qed.

Lemma last_In (l : list A) (d : A) : l <> [] -> In (last l d) l.
Proof.
  induction l as [|x l IH]; [congruence|]. intros _.
  destruct l as [|y l]; [now left|].
  right. apply IH. congruence.
Qed.

(** Where the new element ends up relative to the last one. *)
Lemma last_insert_by (x d : A) (l : list A) :
  StronglySorted le_key l -> l <> [] ->
  last (insert_by key x l) d =
  if Qlt_bool (key (last l d)) (key x) then x else last l d.
Proof.
  induction 1 as [|y l Hs IH Hy]; [congruence|]. intros _.
  cbn [insert_by].
  destruct (Qle_bool (key x) (key y)) eqn:E.
  - assert (Hl : key x <= key (last (y :: l) d)).
    { apply Qle_bool_iff in E. destruct l as [|z l]; [exact E|].
      apply Qle_trans with (key y); [exact E|].
      rewrite Forall_forall in Hy. apply Hy.
      change (last (y :: z :: l) d) with (last (z :: l) d).
      apply last_In. congruence. }
    apply Qlt_bool_false in Hl. rewrite Hl.
    reflexivity.
  - destruct l as [|z l].
    + simpl. unfold Qlt_bool. now rewrite E.
    + specialize (IH ltac:(congruence)).
      change (last (y :: z :: l) d) with (last (z :: l) d).
      rewrite <- IH.
      destruct (insert_by key x (z :: l)) eqn:Ei; [|reflexivity].
      pose proof (Permutation_length (insert_by_perm x (z :: l))) as Hlen.
      rewrite Ei in Hlen. discriminate.
Qed.

(** The head of the reversed sorted list is the last entry of maximal key:
    nothing in front of it is larger, everything behind it is strictly
    smaller. *)
Lemma head_rev_sort_by (l : list A) :
  l <> [] ->
  exists x rest l1 l2,
    rev (sort_by key l) = x :: rest /\
    l = l1 ++ x :: l2 /\
    Forall (fun y => key y <= key x) l1 /\
    Forall (fun y => key y < key x) l2.
Proof.
  intros Hne.
  assert (Hlast : forall d, exists x l1 l2,
             last (sort_by key l) d = x /\ l = l1 ++ x :: l2 /\
             Forall (fun y => key y <= key x) l1 /\
             Forall (fun y => key y < key x) l2).
  { intros d. induction l as [|x l IH]; [congruence|]. clear Hne.
    destruct l as [|z l].
    - exists x, [], []. simpl. repeat split; constructor.
    - destruct IH as [m [l1 [l2 [Hm [Hl [H1 H2]]]]]]; [congruence|].
      change (sort_by key (x :: z :: l))
        with (insert_by key x (sort_by key (z :: l))).
      rewrite last_insert_by; [|apply sort_by_sorted|].
      2:{ intros E. pose proof (sort_by_length (z :: l)) as Hlen.
          rewrite E in Hlen. discriminate. }
      rewrite Hm. destruct (Qlt_bool (key m) (key x)) eqn:E.
      + apply Qlt_bool_true in E.
        exists x, [], (z :: l). repeat split; [constructor|].
        rewrite Hl. apply Forall_app. split; [|constructor].
        * eapply Forall_impl; [|exact H1]. intros y Hy. simpl in Hy.
          now apply Qle_lt_trans with (key m).
        * exact E.
        * eapply Forall_impl; [|exact H2]. intros y Hy. simpl in Hy.
          now apply Qlt_trans with (key m).
      + apply Qlt_bool_false in E.
        exists m, (x :: l1), l2. repeat split; try assumption.
        * rewrite Hl. reflexivity.
        * now constructor. }
  destruct l as [|d l]; [congruence|].
  destruct (Hlast d) as [x [l1 [l2 [Hx [Hl [H1 H2]]]]]].
  assert (Hs : sort_by key (d :: l) <> []).
  { intros E. pose proof (sort_by_length (d :: l)) as Hlen.
    rewrite E in Hlen. discriminate. }
  destruct (exists_last Hs) as [l' [a Ha]].
  rewrite Ha, last_last in Hx. subst a.
  exists x, (rev l'), l1, l2. repeat split; try assumption.
  rewrite Ha, rev_app_distr. reflexivity.
Qed.

End SortFacts.

(* ================================================================== *)
(** * Lists of indices *)
(* ================================================================== *)

Lemma In_skipn_nth {A : Type} (d x : A) (m : nat) (l : list A) :
  In x (skipn m l) <->
  exists j, (m <= j)%nat /\ (j < length l)%nat /\ nth j l d = x.
Proof.
  split.
  - intros H. apply (In_nth _ _ d) in H. destruct H as [i [Hi Hx]].
    rewrite length_skipn in Hi. rewrite nth_skipn in Hx.
    exists (m + i)%nat. repeat split; try lia. exact Hx.
  - intros [j [Hm [Hj Hx]]]. subst x.
    replace j with (m + (j - m))%nat by lia. rewrite <- nth_skipn.
    apply nth_In. rewrite length_skipn. lia.
Qed.

Lemma In_firstn_nth {A : Type} (d x : A) (m : nat) (l : list A) :
  In x (firstn m l) <->
  exists i, (i < m)%nat /\ (i < length l)%nat /\ nth i l d = x.
Proof.
  split.
  - intros H. apply (In_nth _ _ d) in H. destruct H as [i [Hi Hx]].
    rewrite length_firstn in Hi. rewrite nth_firstn in Hx.
    assert (E : (i <? m)%nat = true) by (apply Nat.ltb_lt; lia).
    rewrite E in Hx. exists i. repeat split; try lia. exact Hx.
  - intros [i [Hm [Hi Hx]]]. subst x.
    assert (E : (i <? m)%nat = true) by (apply Nat.ltb_lt; lia).
    pose proof (nth_firstn m l i d) as Hn. rewrite E in Hn. rewrite <- Hn.
    apply nth_In. rewrite length_firstn. lia.
Qed.

Lemma NoDup_firstn {A : Type} (m : nat) (l : list A) :
  NoDup l -> NoDup (firstn m l).
Proof.
  intros H. rewrite <- (firstn_skipn m l) in H.
  now apply NoDup_app_remove_r in H.
Qed.

Lemma NoDup_skipn {A : Type} (m : nat) (l : list A) :
  NoDup l -> NoDup (skipn m l).
Proof.
  intros H. rewrite <- (firstn_skipn m l) in H.
  now apply NoDup_app_remove_l in H.
Qed.

(** An element of a duplicate-free list sits in front of position [m] or
    behind it, not both. *)
Lemma NoDup_firstn_skipn {A : Type} (m : nat) (l : list A) (x : A) :
  NoDup l -> In x (firstn m l) -> ~ In x (skipn m l).
Proof.
  intros H. rewrite <- (firstn_skipn m l) in H.
  revert H. generalize (firstn m l) (skipn m l). intros l1 l2.
  induction l1 as [|y l1 IH]; simpl; [tauto|].
  intros Hnd [<-|Hin] Hx.
  - inversion Hnd; subst. apply H1, in_or_app. now right.
  - inversion Hnd; subst. now apply IH.
Qed.

Lemma length_filter_map {A B : Type} (f : B -> bool) (g : A -> B)
  (l : list A) :
  length (filter f (map g l)) = length (filter (fun x => f (g x)) l).
Proof.
  induction l as [|x l IH]; simpl; [reflexivity|].
  destruct (f (g x)); simpl; now rewrite IH.
Qed.

Lemma length_support (P : list Q) : length (support P) = Np.count_nonzero P.
Proof.
  unfold support, Np.count_nonzero.
  rewrite <- (length_filter_map Qnonzero (fun i => nth i P 0)).
  now rewrite TorchFacts.map_nth_seq.
Qed.

Lemma length_zero_set (P : list Q) :
  (length (zero_set P) + Np.count_nonzero P = length P)%nat.
Proof.
  rewrite <- length_support. unfold zero_set, support.
  pose proof (filter_length (fun i => Qnonzero (nth i P 0))
                            (seq 0 (length P))) as H.
  rewrite length_seq in H. lia.
Qed.

Lemma In_support (P : list Q) (i : nat) :
  In i (support P) <-> (i < length P)%nat /\ ~ nth i P 0 == 0.
Proof.
  unfold support. rewrite filter_In, in_seq, Qnonzero_true. intuition lia.
Qed.

Lemma In_zero_set (P : list Q) (i : nat) :
  In i (zero_set P) <-> (i < length P)%nat /\ nth i P 0 == 0.
Proof.
  unfold zero_set. rewrite filter_In, in_seq, negb_true_iff, Qnonzero_false.
  intuition lia.
Qed.

Lemma NoDup_support (P : list Q) : NoDup (support P).
Proof. apply NoDup_filter, seq_NoDup. Qed.

(* ================================================================== *)
(** * The reference kernel keeps numpy's promise *)
(* ================================================================== *)

Lemma argsort_kernel_ok : kernel_ok argsort_kernel.
Proof.
  intros a kth Hk. unfold argsort_kernel, argsort. split.
  - apply sort_by_perm.
  - intros i j Hi Hj Hlen.
    apply (sorted_nth (fun i => nth i a 0)
             (sort_by (fun i => nth i a 0) (seq 0 (length a))) O i j).
    + apply sort_by_sorted.
    + lia.
    + now rewrite sort_by_length, length_seq.
Qed.

(* ================================================================== *)
(** * Candidate narrowing (lines 56-61) *)
(* ================================================================== *)

Section Narrowing.
Variable partition_perm : list Q -> nat -> list nat.
Hypothesis kernel : kernel_ok partition_perm.

Lemma py_slice_from_neg {A : Type} (k : nat) (l : list A) :
  (1 <= k)%nat -> (k <= length l)%nat ->
  py_slice_from (- Z.of_nat k) l = skipn (length l - k) l.
Proof.
  intros Hk1 Hk. unfold py_slice_from.
  assert (E : (- Z.of_nat k <? 0)%Z = true) by (apply Z.ltb_lt; lia).
  rewrite E. f_equal. lia.
Qed.

(** Asking for the [k] largest of [n >= 1] entries, [k <= n], with a
    negative position, as lines 59 and 61 do.  For [k = 0] the position is
    [-0 = 0] and the slice [[-0:]] keeps every index. *)
Lemma argpartition_top (P : list Q) (k : nat) :
  (1 <= length P)%nat -> (k <= length P)%nat ->
  let kth := if Nat.eqb k 0 then O else (length P - k)%nat in
  res_map (py_slice_from (- Z.of_nat k))
          (argpartition partition_perm P (- Z.of_nat k))
  = Ok (skipn kth (partition_perm P kth)).
Proof.
  intros Hn Hk kth. unfold argpartition.
  destruct (Nat.eqb (length P) 0) eqn:En; [apply Nat.eqb_eq in En; lia|].
  assert (Hlen : forall m, (m < length P)%nat ->
                           length (partition_perm P m) = length P).
  { intros m Hm. destruct (kernel P m Hm) as [Hperm _].
    rewrite (Permutation_length Hperm). apply length_seq. }
  subst kth. destruct (Nat.eqb k 0) eqn:Ek.
  - apply Nat.eqb_eq in Ek. subst k. simpl.
    assert (E : (Z.of_nat (length P) <=? 0)%Z = false) by (apply Z.leb_gt; lia).
    rewrite E. simpl. unfold py_slice_from. simpl.
    rewrite Z.min_l by lia. reflexivity.
  - apply Nat.eqb_neq in Ek.
    assert (E1 : (- Z.of_nat k <? 0)%Z = true) by (apply Z.ltb_lt; lia).
    rewrite E1.
    assert (E2 : (- Z.of_nat k + Z.of_nat (length P) <? 0)%Z = false)
      by (apply Z.ltb_ge; lia).
    assert (E3 : (Z.of_nat (length P) <=? - Z.of_nat k + Z.of_nat (length P))%Z
                 = false) by (apply Z.leb_gt; lia).
    rewrite E2, E3. simpl.
    replace (Z.to_nat (- Z.of_nat k + Z.of_nat (length P)))
      with (length P - k)%nat by lia.
    rewrite py_slice_from_neg by (rewrite ?Hlen; lia).
    rewrite Hlen by lia. reflexivity.
Qed.

(** With [K >= 1] and at least one non-zero entry, lines 56-61 select the
    last [min K nz] positions of the partitioned index array. *)
Lemma top_k_actions_run (K : Z) (P : list Q) :
  (1 <= K)%Z -> (1 <= Np.count_nonzero P)%nat ->
  let k := Nat.min (Z.to_nat K) (Np.count_nonzero P) in
  top_k_actions partition_perm K P
  = Ok (skipn (length P - k) (partition_perm P (length P - k))).
Proof.
  intros HK Hnz k. unfold top_k_actions.
  pose proof (NpFacts.count_nonzero_le P) as Hle.
  destruct (Z.of_nat (Np.count_nonzero P) <? K)%Z eqn:E.
  - apply Z.ltb_lt in E.
    rewrite argpartition_top by lia.
    assert (Ek : Nat.eqb (Np.count_nonzero P) 0 = false)
      by (apply Nat.eqb_neq; lia).
    rewrite Ek. unfold k. now rewrite Nat.min_r by lia.
  - apply Z.ltb_ge in E.
    replace K with (Z.of_nat (Z.to_nat K)) at 1 2 by lia.
    rewrite argpartition_top by lia.
    assert (Ek : Nat.eqb (Z.to_nat K) 0 = false) by (apply Nat.eqb_neq; lia).
    rewrite Ek. unfold k. now rewrite Nat.min_l by lia.
Qed.

Section Slice.
Variable P : list Q.
Variable k : nat.
Hypothesis k_pos : (1 <= k)%nat.
Hypothesis k_le : (k <= length P)%nat.

Let kth : nat := (length P - k)%nat.
Let idx : list nat := partition_perm P kth.
Let cands : list nat := skipn kth idx.

Lemma kth_lt : (kth < length P)%nat.
Proof. unfold kth. lia. Qed.

Lemma idx_perm : Permutation idx (seq 0 (length P)).
Proof. apply (kernel P kth kth_lt). Qed.

Lemma idx_length : length idx = length P.
Proof.
  rewrite (Permutation_length idx_perm). apply length_seq.
Qed.

Lemma idx_NoDup : NoDup idx.
Proof.
  apply (Permutation_NoDup (Permutation_sym idx_perm)), seq_NoDup.
Qed.

Lemma cands_length : length cands = k.
Proof.
  unfold cands. rewrite length_skipn, idx_length. unfold kth. lia.
Qed.

Lemma cands_NoDup : NoDup cands.
Proof. apply NoDup_skipn, idx_NoDup. Qed.

Lemma cands_in_range (c : nat) : In c cands -> (c < length P)%nat.
Proof.
  intros H. unfold cands in H.
  assert (Hin : In c idx).
  { rewrite <- (firstn_skipn kth idx). apply in_or_app. now right. }
  apply (Permutation_in _ idx_perm) in Hin. apply in_seq in Hin. lia.
Qed.

(** The candidates are a top-[k] selection: no action that was left out has
    a larger entry than an action that was taken. *)
Lemma cands_top (c o : nat) :
  In c cands -> (o < length P)%nat -> ~ In o cands ->
  nth o P 0 <= nth c P 0.
Proof.
  intros Hc Ho Hno.
  apply (In_skipn_nth O) in Hc. destruct Hc as [j [Hj1 [Hj2 Hj3]]].
  assert (Hin : In o idx).
  { apply (Permutation_in _ (Permutation_sym idx_perm)), in_seq. lia. }
  rewrite <- (firstn_skipn kth idx) in Hin. apply in_app_or in Hin.
  destruct Hin as [Hin|Hin]; [|contradiction].
  apply (In_firstn_nth O) in Hin. destruct Hin as [i [Hi1 [Hi2 Hi3]]].
  subst c o. rewrite idx_length in *.
  apply (kernel P kth kth_lt); lia.
Qed.

(** On an array without negative entries, asking for at most as many
    candidates as there are non-zero entries gives non-zero entries only. *)
Lemma cands_nonzero (c : nat) :
  Forall (fun x => 0 <= x) P -> (k <= Np.count_nonzero P)%nat ->
  In c cands -> ~ nth c P 0 == 0.
Proof.
  intros Hpos Hk Hc Hzero.
  apply (In_skipn_nth O) in Hc. destruct Hc as [j [Hj1 [Hj2 Hj3]]].
  rewrite idx_length in Hj2.
  assert (Hincl : incl (firstn (S kth) idx) (zero_set P)).
  { intros o Ho. apply (In_firstn_nth O) in Ho.
    destruct Ho as [i [Hi1 [Hi2 Hi3]]]. rewrite idx_length in Hi2.
    assert (Hrange : (o < length P)%nat).
    { assert (Hin : In o idx) by (subst o; apply nth_In; now rewrite idx_length).
      apply (Permutation_in _ idx_perm) in Hin. apply in_seq in Hin. lia. }
    apply In_zero_set. split; [exact Hrange|].
    apply Qle_antisym.
    - apply Qle_trans with (nth c P 0);
        [|rewrite Hzero; apply Qle_refl].
      subst o c. apply (kernel P kth kth_lt); lia.
    - rewrite Forall_forall in Hpos. apply Hpos, nth_In, Hrange. }
  apply NoDup_incl_length in Hincl; [|apply NoDup_firstn, idx_NoDup].
  rewrite length_firstn, idx_length in Hincl.
  pose proof (length_zero_set P) as Hz. pose proof kth_lt. unfold kth in *.
  lia.
Qed.

(** When exactly as many candidates are asked for as there are non-zero
    entries, every non-zero entry is a candidate. *)
Lemma cands_cover_support (i : nat) :
  Forall (fun x => 0 <= x) P -> k = Np.count_nonzero P ->
  In i (support P) -> In i cands.
Proof.
  intros Hpos Hk. revert i.
  apply (NoDup_length_incl cands_NoDup).
  - rewrite cands_length, length_support. lia.
  - intros c Hc. apply In_support. split; [now apply cands_in_range|].
    apply cands_nonzero; try assumption. lia.
Qed.

End Slice.

End Narrowing.

(* ================================================================== *)
(** * Running the methods *)
(* ================================================================== *)

Section Runs.
Context {Board SimState : Type}.
Variable partition_perm : list Q -> nat -> list nat.

Implicit Types (w : World Board SimState) (b : Board).

Lemma rollouts_run (n : nat) (s : Board) :
  forall values w,
  exists outs st',
    length outs = n /\ simulated (self w) s outs /\
    rollouts n s values w =
    (Ok (values ++ outs),
     {| self := self w; sim_state := st';
        trace := trace w ++ map (EvSimulate s) outs |}).
Proof.
  induction n as [|n IH]; intros values w.
  - exists [], (sim_state w). repeat split; [constructor|].
    simpl. unfold ret. rewrite !app_nil_r. now destruct w.
  - cbn [rollouts]. unfold bind at 1. unfold call_simulate.
    destruct (simulate (mc (self w)) s (sim_state w)) as [v st1] eqn:Es.
    match goal with |- context [rollouts n s ?vs ?w1] =>
      destruct (IH vs w1) as [outs [st' [Hl [Hs E]]]] end.
    exists (v :: outs), st'. split; [simpl; lia|]. split.
    + constructor; [|exact Hs]. exists (sim_state w). now rewrite Es.
    + rewrite E. simpl. now rewrite <- !app_assoc.
Qed.

Lemma score_action_run b (action : nat) w (q0 : list (Q * nat)) :
  qsa (self w) = Some q0 ->
  exists outs st',
    length outs = Z.to_nat (numMCsims (args (self w))) /\
    simulated (self w) (next_board (game (self w)) b action) outs /\
    score_action b action w =
    (Ok tt,
     update_world w (Some (q0 ++ [scored_entry (outs, action)])) st'
       (map (EvSimulate (next_board (game (self w)) b action)) outs)).
Proof.
  intros Hq. unfold score_action, next_board.
  unfold bind at 1. unfold get_self at 1.
  destruct (getNextState (game (self w)) b 1 action) as [next_s next_player].
  destruct (rollouts_run (Z.to_nat (numMCsims (args (self w))))
              (getCanonicalForm (game (self w)) next_s next_player) [] w)
    as [outs [st' [Hl [Hs E]]]].
  exists outs, st'. repeat split; try assumption.
  unfold bind. rewrite E. simpl.
  unfold modify_qsa, bind, read_qsa. simpl. rewrite Hq. reflexivity.
Qed.

Lemma for_each_score_run b (cands : list nat) :
  forall w (q0 : list (Q * nat)),
  qsa (self w) = Some q0 ->
  exists (scored : list (list Q * nat)) st',
    map snd scored = cands /\
    Forall (fun x =>
              length (fst x) = Z.to_nat (numMCsims (args (self w))) /\
              simulated (self w) (next_board (game (self w)) b (snd x)) (fst x))
           scored /\
    for_each cands (score_action b) w =
    (Ok tt,
     update_world w (Some (q0 ++ map scored_entry scored)) st'
       (flat_map (fun x => map (EvSimulate (next_board (game (self w)) b (snd x)))
                               (fst x)) scored)).
Proof.
  induction cands as [|a cands IH]; intros w q0 Hq.
  - exists [], (sim_state w). repeat split; [constructor|].
    simpl. unfold ret, update_world. simpl. rewrite !app_nil_r.
    destruct w as [p s t]. simpl in *. f_equal. f_equal.
    destruct p; simpl in *. now subst.
  - destruct (score_action_run b a w q0 Hq) as [outs [st1 [Hl [Hs E]]]].
    cbn [for_each]. unfold bind at 1. rewrite E.
    match goal with |- context [for_each cands _ ?w1] =>
      destruct (IH w1 (q0 ++ [scored_entry (outs, a)]) eq_refl)
        as [scored [st' [Hm [Hall E']]]] end.
    exists ((outs, a) :: scored), st'. split; [simpl; now rewrite Hm|]. split.
    + constructor; [simpl; now split | exact Hall].
    + rewrite E'. unfold update_world. simpl.
      now rewrite <- !app_assoc.
Qed.

Lemma best_of_qsa_run w (q : list (Q * nat)) :
  qsa (self w) = Some q ->
  best_of_qsa w =
  (match rev (sort_by fst q) with
   | [] => Raise IndexError
   | (_, action) :: _ => Ok action
   end,
   update_world w (Some (rev (sort_by fst q))) (sim_state w) []).
Proof.
  intros Hq. unfold best_of_qsa, modify_qsa, bind, read_qsa, assign_qsa.
  simpl. rewrite Hq. simpl. unfold update_world. simpl. rewrite app_nil_r.
  destruct (rev (sort_by fst q)) as [|[v a] rest]; reflexivity.
Qed.

End Runs.

(* ================================================================== *)
(** * Masking and renormalisation (lines 42-54) *)
(* ================================================================== *)

Lemma Forall2_nth (a c : list Q) :
  length a = length c ->
  (forall i, (i < length a)%nat -> nth i a 0 == nth i c 0) ->
  Forall2 Qeq a c.
Proof.
  revert c; induction a as [|x a IH]; intros [|y c] Hl Hn; simpl in *;
    try discriminate; constructor.
  - apply (Hn O). lia.
  - apply IH; [lia|]. intros i Hi. apply (Hn (S i)). lia.
Qed.

Lemma Forall_nth_Q (R : Q -> Prop) (a : list Q) :
  (forall i, (i < length a)%nat -> R (nth i a 0)) -> Forall R a.
Proof.
  intros H. apply Forall_forall. intros x Hx.
  apply (In_nth _ _ 0) in Hx. destruct Hx as [i [Hi <-]]. now apply H.
Qed.

Section Renormalisation.
Import Np NpFacts.

Variable prior : list Q.
Variable mask : list bool.
Hypothesis same_length : length prior = length mask.

Lemma nth_mask (i : nat) : nth i (map b2q mask) 0 = b2q (nth i mask false).
Proof. exact (map_nth b2q mask false i). Qed.

Lemma length_masked : length (masked prior mask) = length mask.
Proof.
  unfold masked. rewrite length_zip_with; [exact same_length|].
  now rewrite length_map.
Qed.

Lemma nth_masked (i : nat) :
  (i < length mask)%nat ->
  nth i (masked prior mask) 0 = nth i prior 0 * b2q (nth i mask false).
Proof.
  intros Hi. unfold masked.
  rewrite nth_zip_with, nth_mask; [reflexivity| |lia].
  now rewrite length_map.
Qed.

Lemma length_renormalized : length (renormalized prior mask) = length mask.
Proof.
  unfold renormalized. destruct (fallback_taken prior mask);
    rewrite length_div_scalar; [|apply length_masked].
  rewrite length_zip_with; [apply length_masked|].
  now rewrite length_masked, length_map.
Qed.

Lemma nth_fallback (i : nat) :
  (i < length mask)%nat ->
  nth i (zip_with Qplus (masked prior mask) (map b2q mask)) 0
  = nth i prior 0 * b2q (nth i mask false) + b2q (nth i mask false).
Proof.
  intros Hi. rewrite nth_zip_with, nth_mask, nth_masked; try reflexivity;
    rewrite ?length_masked, ?length_map; lia.
Qed.

(** An action the mask forbids has entry zero, whichever branch ran. *)
Lemma renormalized_illegal (i : nat) :
  (i < length mask)%nat -> nth i mask false = false ->
  nth i (renormalized prior mask) 0 == 0.
Proof.
  intros Hi Hm. unfold renormalized. destruct (fallback_taken prior mask).
  - rewrite nth_div_scalar, nth_fallback, Hm; [unfold b2q, Qdiv; ring | lia |].
    rewrite length_zip_with; rewrite ?length_masked, ?length_map; lia.
  - rewrite nth_div_scalar, nth_masked, Hm; [unfold b2q, Qdiv; ring | lia |].
    rewrite length_masked; lia.
Qed.

Section NonNegative.
Hypothesis prior_nonneg : Forall (fun x => 0 <= x) prior.

Lemma prior_nth_nonneg (i : nat) : 0 <= nth i prior 0.
Proof.
  destruct (Nat.lt_ge_cases i (length prior)) as [H|H].
  - rewrite Forall_forall in prior_nonneg. now apply prior_nonneg, nth_In.
  - rewrite nth_overflow by lia. apply Qle_refl.
Qed.

Lemma masked_nonneg : Forall (fun x => 0 <= x) (masked prior mask).
Proof.
  apply Forall_nth_Q. intros i Hi. rewrite length_masked in Hi.
  rewrite nth_masked by lia. apply Qmult_le_0_compat.
  - apply prior_nth_nonneg.
  - destruct (nth i mask false); simpl; discriminate.
Qed.

(** In the workaround the masked prior is zero everywhere, so what is
    renormalised is the mask itself. *)
Lemma fallback_is_mask :
  fallback_taken prior mask = true ->
  Forall2 Qeq (zip_with Qplus (masked prior mask) (map b2q mask))
              (map b2q mask).
Proof.
  intros Hf. unfold fallback_taken in Hf. apply negb_true_iff in Hf.
  apply Qlt_bool_false in Hf.
  pose proof (sum_nonpos_all_zero _ masked_nonneg Hf) as Hz.
  apply Forall2_nth.
  - rewrite length_zip_with; rewrite ?length_masked, ?length_map; lia.
  - intros i Hi.
    rewrite length_zip_with in Hi by (rewrite ?length_masked, ?length_map; lia).
    rewrite length_masked in Hi.
    rewrite nth_zip_with by (rewrite ?length_masked, ?length_map; lia).
    rewrite Forall_forall in Hz.
    rewrite (Hz (nth i (masked prior mask) 0)); [ring|].
    apply nth_In. now rewrite length_masked.
Qed.

Lemma fallback_sum :
  fallback_taken prior mask = true ->
  sum (zip_with Qplus (masked prior mask) (map b2q mask))
  == nat2q (num_legal mask).
Proof.
  intros Hf. rewrite (sum_ext _ _ (fallback_is_mask Hf)).
  apply sum_map_b2q.
Qed.

(** The workaround gives every allowed action the share [1 / L] and every
    other action nothing, [L] being the number of allowed actions. *)
Lemma fallback_uniform (i : nat) :
  fallback_taken prior mask = true -> (i < length mask)%nat ->
  nth i (renormalized prior mask) 0
  == b2q (nth i mask false) / nat2q (num_legal mask).
Proof.
  intros Hf Hi. unfold renormalized. rewrite Hf.
  rewrite nth_div_scalar
    by (rewrite length_zip_with; rewrite ?length_masked, ?length_map; lia).
  rewrite (fallback_sum Hf).
  pose proof (fallback_is_mask Hf) as H2.
  assert (E : nth i (zip_with Qplus (masked prior mask) (map b2q mask)) 0
              == b2q (nth i mask false)).
  { rewrite nth_fallback by lia.
    unfold fallback_taken in Hf. apply negb_true_iff in Hf.
    apply Qlt_bool_false in Hf.
    pose proof (sum_nonpos_all_zero _ masked_nonneg Hf) as Hz.
    rewrite Forall_forall in Hz.
    rewrite <- nth_masked by lia.
    rewrite (Hz (nth i (masked prior mask) 0)); [ring|].
    apply nth_In. now rewrite length_masked. }
  now rewrite E.
Qed.

Lemma num_legal_pos : In true mask -> (1 <= num_legal mask)%nat.
Proof.
  intros H. unfold num_legal.
  assert (Hin : In true (filter (fun v => v) mask)) by now apply filter_In.
  destruct (filter (fun v => v) mask); [contradiction | simpl; lia].
Qed.

Lemma fallback_sum_one :
  fallback_taken prior mask = true -> In true mask ->
  sum (renormalized prior mask) == 1.
Proof.
  intros Hf Hin. unfold renormalized. rewrite Hf.
  rewrite sum_div_scalar, (fallback_sum Hf). field.
  pose proof (nat2q_pos _ (num_legal_pos Hin)) as Hp.
  intros E. rewrite E in Hp. now apply (Qlt_irrefl 0).
Qed.

Lemma div_scalar_nonneg (a : list Q) (s : Q) :
  Forall (fun x => 0 <= x) a -> 0 <= s ->
  Forall (fun x => 0 <= x) (div_scalar a s).
Proof.
  intros Ha Hs. unfold div_scalar. apply Forall_map.
  eapply Forall_impl; [|exact Ha]. intros x Hx. simpl in Hx.
  apply Qmult_le_0_compat; [exact Hx | now apply Qinv_le_0_compat].
Qed.

Lemma renormalized_nonneg : Forall (fun x => 0 <= x) (renormalized prior mask).
Proof.
  unfold renormalized. destruct (fallback_taken prior mask) eqn:Hf.
  - assert (Hm : Forall (fun x => 0 <= x)
                   (zip_with Qplus (masked prior mask) (map b2q mask))).
    { apply Forall_nth_Q. intros i Hi.
      rewrite length_zip_with in Hi by (rewrite ?length_masked, ?length_map; lia).
      rewrite length_masked in Hi. rewrite nth_fallback by lia.
      apply Qplus_nonneg.
      - apply Qmult_le_0_compat; [apply prior_nth_nonneg|].
        destruct (nth i mask false); simpl; discriminate.
      - destruct (nth i mask false); simpl; discriminate. }
    apply div_scalar_nonneg; [exact Hm | now apply sum_nonneg].
  - apply div_scalar_nonneg; [apply masked_nonneg|].
    apply sum_nonneg, masked_nonneg.
Qed.

(** With an allowed action there is a non-zero entry at line 56. *)
Lemma renormalized_count_pos :
  In true mask -> (1 <= count_nonzero (renormalized prior mask))%nat.
Proof.
  intros Hin. rewrite <- length_support.
  assert (Hex : exists i, In i (support (renormalized prior mask))).
  { destruct (fallback_taken prior mask) eqn:Hf.
    - pose proof (nat2q_pos _ (num_legal_pos Hin)) as Hp.
      apply (In_nth _ _ false) in Hin. destruct Hin as [i [Hi Ht]].
      exists i. apply In_support. rewrite length_renormalized.
      split; [exact Hi|]. rewrite (fallback_uniform i Hf Hi), Ht.
      intros E. apply (Qlt_irrefl 0).
      assert (H1 : 0 < b2q true / nat2q (num_legal mask)).
      { apply Qlt_shift_div_l; [exact Hp|]. rewrite Qmult_0_l. reflexivity. }
      now rewrite E in H1.
    - pose proof Hf as Hf'. unfold fallback_taken in Hf'.
      apply negb_false_iff in Hf'. apply Qlt_bool_true in Hf'.
      destruct (sum_pos_exists _ Hf') as [i [Hi Hn]].
      rewrite length_masked in Hi.
      exists i. apply In_support. rewrite length_renormalized.
      split; [exact Hi|]. unfold renormalized. rewrite Hf.
      rewrite nth_div_scalar by (rewrite length_masked; lia).
      intros E. apply Hn.
      assert (Hs : ~ sum (masked prior mask) == 0).
      { intros E0. rewrite E0 in Hf'. now apply (Qlt_irrefl 0). }
      assert (Ed : nth i (masked prior mask) 0
                   == sum (masked prior mask)
                      * (nth i (masked prior mask) 0 / sum (masked prior mask)))
        by (field; exact Hs).
      rewrite Ed, E. ring. }
  destruct Hex as [i Hi].
  destruct (support (renormalized prior mask)); [contradiction | simpl; lia].
Qed.

End NonNegative.

End Renormalisation.

(* ================================================================== *)
(** * Running [play] *)
(* ================================================================== *)

Section PlayRuns.
Context {Board SimState : Type}.
Variable partition_perm : list Q -> nat -> list nat.

Implicit Types (w : World Board SimState) (b : Board).

Lemma play_prior_run b w :
  length (prior_of (self w) b) = length (mask_of (self w) b) ->
  play_prior b w =
  (Ok (renormalized (prior_of (self w) b) (mask_of (self w) b)),
   update_world w (Some []) (sim_state w)
     (prior_events b (fallback_taken (prior_of (self w) b)
                                     (mask_of (self w) b)))).
Proof.
  unfold prior_of, mask_of. intros Hlen.
  unfold play_prior, bind, assign_qsa, get_self, call_predict, bind, emit,
    get_self, ret. simpl.
  destruct (predict (nnet (self w)) b) as [Ps v] eqn:Ep. simpl in *.
  unfold renormalize, bind, lift.
  rewrite NpFacts.mul_same_length by (now rewrite length_map).
  unfold renormalized, fallback_taken, masked, prior_events, update_world.
  destruct (Qlt_bool 0 _) eqn:Es; simpl.
  - reflexivity.
  - unfold emit, ret. simpl.
    rewrite NpFacts.add_same_length.
    + simpl. now rewrite <- app_assoc.
    + rewrite NpFacts.length_zip_with; now rewrite !length_map.
Qed.

Lemma play_candidates_run b w :
  length (prior_of (self w) b) = length (mask_of (self w) b) ->
  play_candidates partition_perm b w =
  (top_k_actions partition_perm (K (self w))
     (renormalized (prior_of (self w) b) (mask_of (self w) b)),
   update_world w (Some []) (sim_state w)
     (prior_events b (fallback_taken (prior_of (self w) b)
                                     (mask_of (self w) b)))).
Proof.
  intros Hlen. unfold play_candidates, bind. rewrite (play_prior_run b w Hlen).
  reflexivity.
Qed.

(** [play] once the candidates are known: every candidate is scored by
    [numMCsims] simulations from its own next position, and the head of the
    sorted and reversed list is returned. *)
Lemma play_run b w (cands : list nat) :
  length (prior_of (self w) b) = length (mask_of (self w) b) ->
  top_k_actions partition_perm (K (self w))
    (renormalized (prior_of (self w) b) (mask_of (self w) b)) = Ok cands ->
  exists (scored : list (list Q * nat)) st',
    map snd scored = cands /\
    Forall (fun x =>
              length (fst x) = Z.to_nat (numMCsims (args (self w))) /\
              simulated (self w) (next_board (game (self w)) b (snd x)) (fst x))
           scored /\
    play partition_perm b w =
    (match rev (sort_by fst (map scored_entry scored)) with
     | [] => Raise IndexError
     | (_, action) :: _ => Ok action
     end,
     update_world w (Some (rev (sort_by fst (map scored_entry scored)))) st'
       (prior_events b (fallback_taken (prior_of (self w) b)
                                       (mask_of (self w) b))
        ++ rollout_events (game (self w)) b scored)).
Proof.
  intros Hlen Htop. unfold play. unfold bind at 1.
  rewrite (play_candidates_run b w Hlen), Htop. cbv beta iota.
  set (w1 := update_world w (Some []) (sim_state w) _).
  destruct (for_each_score_run b cands w1 [] eq_refl)
    as [scored [st' [Hm [Hall E]]]].
  exists scored, st'. split; [exact Hm|]. split; [exact Hall|].
  unfold bind. rewrite E.
  rewrite (best_of_qsa_run _ ([] ++ map scored_entry scored)) by reflexivity.
  unfold update_world, rollout_events. simpl.
  now rewrite app_nil_r, <- !app_assoc.
Qed.

(** A non-empty scored list has a head after sorting and reversing, and it
    is the last entry of maximal average. *)
Lemma select_last_max (scored : list (list Q * nat)) :
  scored <> [] ->
  exists outs a rest s1 s2,
    rev (sort_by fst (map scored_entry scored))
    = scored_entry (outs, a) :: rest /\
    scored = s1 ++ (outs, a) :: s2 /\
    Forall (fun x => Np.mean (fst x) <= Np.mean outs) s1 /\
    Forall (fun x => Np.mean (fst x) < Np.mean outs) s2.
Proof.
  intros Hne.
  destruct (head_rev_sort_by fst (map scored_entry scored))
    as [x [rest [l1 [l2 [Hr [Hl [H1 H2]]]]]]].
  { destruct scored; [congruence | discriminate]. }
  apply map_eq_app in Hl. destruct Hl as [s1 [s2' [Hs [Hs1 Hs2]]]].
  apply map_eq_cons in Hs2. destruct Hs2 as [[outs a] [s2 [Hs2 [Hx Hs2']]]].
  subst. exists outs, a, rest, s1, s2. repeat split.
  - exact Hr.
  - rewrite Forall_map in H1. exact H1.
  - rewrite Forall_map in H2. exact H2.
Qed.

(** Everything [play] does before the loop, for any input: [self.qsa] is
    reset, the predictor is asked once, the workaround may be logged, and an
    error is one of numpy's two [ValueError]s. *)
Lemma play_candidates_any b w :
  exists r fallback,
    play_candidates partition_perm b w
    = (r, update_world w (Some []) (sim_state w) (prior_events b fallback)) /\
    (forall e, r = Raise e ->
               (exists n m, e = ValueError_broadcast n m) \/
               (exists k n, e = ValueError_kth k n)).
Proof.
  unfold play_candidates, play_prior, bind, assign_qsa, get_self,
    call_predict, bind, emit, get_self, ret. simpl.
  destruct (predict (nnet (self w)) b) as [Ps v]. simpl.
  unfold renormalize, bind, lift.
  destruct (Np.mul Ps (map b2q (getValidMoves (game (self w)) b 1)))
    as [m|e] eqn:Em.
  2:{ exists (Raise e), false. split; [reflexivity|].
      intros e' E. injection E as <-. left.
      unfold Np.mul, Np.broadcast2 in Em.
      repeat match type of Em with
             | (if ?c then _ else _) = _ => destruct c; try discriminate
             end.
      injection Em as <-. eauto. }
  assert (Htop : forall K P e,
             top_k_actions partition_perm K P = Raise e ->
             exists k n, e = ValueError_kth k n).
  { intros K0 P e. unfold top_k_actions, argpartition.
    repeat match goal with
           | |- context [if ?c then _ else _] => destruct c
           end; simpl; intros E; try discriminate; injection E as <-; eauto. }
  destruct (Qlt_bool 0 (Np.sum m)).
  - unfold ret. eexists _, false. split; [reflexivity|].
    intros e E. right. eapply Htop. exact E.
  - unfold emit, ret. simpl.
    destruct (Np.add m (map b2q (getValidMoves (game (self w)) b 1)))
      as [m'|e] eqn:Ea.
    + eexists _, true. unfold update_world, prior_events. simpl.
      rewrite <- app_assoc. split; [reflexivity|].
      intros e E. right. eapply Htop. exact E.
    + exists (Raise e), true. unfold update_world, prior_events. simpl.
      rewrite <- app_assoc. split; [reflexivity|].
      intros e' E. injection E as <-. left.
      unfold Np.add, Np.broadcast2 in Ea.
      repeat match type of Ea with
             | (if ?c then _ else _) = _ => destruct c; try discriminate
             end.
      injection Ea as <-. eauto.
Qed.


End PlayRuns.



(* ================================================================== *)
(** * [play] succeeds *)
(* ================================================================== *)

Section PlayTotal.
Context {Board SimState : Type}.
Variable partition_perm : list Q -> nat -> list nat.
Hypothesis kernel : kernel_ok partition_perm.

Implicit Types (w : World Board SimState) (b : Board).

(** For [K >= 1] on a non-empty array, lines 56-61 raise nothing: they
    take the indices behind some position of the partitioned array. *)
Lemma top_k_actions_total (K : Z) (P : list Q) :
  (1 <= K)%Z -> (1 <= length P)%nat ->
  exists kth, (kth < length P)%nat /\
    top_k_actions partition_perm K P
    = Ok (skipn kth (partition_perm P kth)).
Proof.
  intros HK Hn.
  pose proof (NpFacts.count_nonzero_le P) as Hle.
  destruct (Z.of_nat (Np.count_nonzero P) <? K)%Z eqn:E.
  - pose proof (argpartition_top _ kernel P (Np.count_nonzero P) Hn Hle)
      as Ha. cbv zeta in Ha.
    eexists. split; [|unfold top_k_actions; rewrite E; exact Ha].
    destruct (Nat.eqb (Np.count_nonzero P) 0) eqn:Ez; [lia|].
    apply Nat.eqb_neq in Ez. lia.
  - apply Z.ltb_ge in E.
    assert (HKn : (Z.to_nat K <= length P)%nat) by lia.
    pose proof (argpartition_top _ kernel P (Z.to_nat K) Hn HKn) as Ha.
    cbv zeta in Ha. replace (Z.of_nat (Z.to_nat K)) with K in Ha by lia.
    apply Z.ltb_ge in E.
    eexists. split; [|unfold top_k_actions; rewrite E; exact Ha].
    destruct (Nat.eqb (Z.to_nat K) 0) eqn:Ez; [lia|]. lia.
Qed.

Lemma skipn_kernel_facts (P : list Q) (kth : nat) :
  (kth < length P)%nat ->
  let cands := skipn kth (partition_perm P kth) in
  cands <> [] /\ NoDup cands /\ forall c, In c cands -> (c < length P)%nat.
Proof.
  intros Hk cands. destruct (kernel P kth Hk) as [Hperm _].
  pose proof (Permutation_length Hperm) as Hlen. rewrite length_seq in Hlen.
  split; [|split].
  - intros E. assert (Hl : length cands = O) by now rewrite E.
    unfold cands in Hl. rewrite length_skipn in Hl. lia.
  - apply NoDup_skipn.
    apply (Permutation_NoDup (Permutation_sym Hperm)), seq_NoDup.
  - intros c Hc.
    assert (Hin : In c (partition_perm P kth)).
    { rewrite <- (firstn_skipn kth). apply in_or_app. now right. }
    apply (Permutation_in _ Hperm) in Hin. apply in_seq in Hin. lia.
Qed.

(** [play] on a non-empty action space with [K >= 1] and a prior as long
    as the mask: it returns the action of the last scored entry of maximal
    average, and leaves the sorted list in [self.qsa]. *)
Lemma play_total b w :
  length (prior_of (self w) b) = length (mask_of (self w) b) ->
  (1 <= K (self w))%Z ->
  (1 <= length (mask_of (self w) b))%nat ->
  exists cands scored st' outs a rest s1 s2,
    top_k_actions partition_perm (K (self w))
      (renormalized (prior_of (self w) b) (mask_of (self w) b)) = Ok cands /\
    NoDup cands /\
    (forall c, In c cands -> (c < length (mask_of (self w) b))%nat) /\
    map snd scored = cands /\
    Forall (fun x =>
              length (fst x) = Z.to_nat (numMCsims (args (self w))) /\
              simulated (self w) (next_board (game (self w)) b (snd x)) (fst x))
           scored /\
    scored = s1 ++ (outs, a) :: s2 /\
    Forall (fun x => Np.mean (fst x) <= Np.mean outs) s1 /\
    Forall (fun x => Np.mean (fst x) < Np.mean outs) s2 /\
    rev (sort_by fst (map scored_entry scored))
    = scored_entry (outs, a) :: rest /\
    play partition_perm b w =
    (Ok a,
     update_world w (Some (scored_entry (outs, a) :: rest)) st'
       (prior_events b (fallback_taken (prior_of (self w) b)
                                       (mask_of (self w) b))
        ++ rollout_events (game (self w)) b scored)).
Proof.
  intros Hlen HK Hn.
  set (P := renormalized (prior_of (self w) b) (mask_of (self w) b)).
  assert (HP : length P = length (mask_of (self w) b))
    by (apply length_renormalized; exact Hlen).
  destruct (top_k_actions_total (K (self w)) P HK) as [kth [Hkth Htop]];
    [lia|].
  destruct (skipn_kernel_facts P kth Hkth) as [Hne [Hnd Hrange]].
  destruct (play_run partition_perm b w _ Hlen Htop)
    as [scored [st' [Hm [Hall E]]]].
  assert (Hsne : scored <> []).
  { intros Es. subst scored. simpl in Hm. congruence. }
  destruct (select_last_max scored Hsne)
    as [outs [a [rest [s1 [s2 [Hr [Hs [H1 H2]]]]]]]].
  exists (skipn kth (partition_perm P kth)), scored, st', outs, a, rest, s1, s2.
  rewrite Hr in E. rewrite <- HP.
  repeat (split; [assumption|]). exact E.
Qed.

End PlayTotal.

(* ================================================================== *)
(** * [getActionProb] *)
(* ================================================================== *)

Section ActionProb.
Context {Board SimState : Type}.
Variable partition_perm : list Q -> nat -> list nat.

Implicit Types (w : World Board SimState) (b : Board).

Lemma getActionProb_ended b (temp : Z) w :
  getGameEnded (game (self w)) b 1 <> 0%Z ->
  getActionProb partition_perm b temp w
  = (Ok (Np.zeros (getActionSize (game (self w)))), w).
Proof.
  intros H. unfold getActionProb, bind, get_self.
  apply Z.eqb_neq in H. rewrite H. reflexivity.
Qed.

Lemma getActionProb_of_play b (temp : Z) w (a : nat) w' :
  getGameEnded (game (self w)) b 1 = 0%Z ->
  play partition_perm b w = (Ok a, w') ->
  (a < getActionSize (game (self w)))%nat ->
  exists probs,
    getActionProb partition_perm b temp w = (Ok probs, w') /\
    one_hot (getActionSize (game (self w))) a probs.
Proof.
  intros Hg Hp Ha. unfold getActionProb, bind, get_self.
  rewrite Hg. simpl. rewrite Hp. unfold lift.
  destruct (NpFacts.set_item_ok (Np.zeros (getActionSize (game (self w)))) a 1)
    as [r [E [Hl [Hn Ho]]]].
  { now rewrite NpFacts.length_zeros. }
  rewrite E. exists r. split; [reflexivity|].
  rewrite NpFacts.length_zeros in Hl. repeat split; try assumption.
  intros j Hj. rewrite (Ho j Hj). apply NpFacts.nth_zeros.
Qed.

(** C6.  On a board the rules provider reports as ended,
    [getActionProb] returns the all-zero vector of the size of the action
    space and leaves the world as it found it: no event is recorded (no
    call of the predictor, no rollout), the simulator state and [self] are
    untouched. *)
Theorem getActionProb_terminal_all_zero b (temp : Z) w :
  getGameEnded (game (self w)) b 1 <> 0%Z ->
  exists probs,
    getActionProb partition_perm b temp w = (Ok probs, w) /\
    length probs = getActionSize (game (self w)) /\
    Forall (fun x => x = 0) probs.
Proof.
  intros H. exists (Np.zeros (getActionSize (game (self w)))).
  split; [now apply getActionProb_ended|].
  split; [apply NpFacts.length_zeros|].
  unfold Np.zeros. apply Forall_forall. intros x Hx.
  now apply repeat_spec in Hx.
Qed.

End ActionProb.

Section Claims.
Context {Board SimState : Type}.
Variable partition_perm : list Q -> nat -> list nat.
Hypothesis kernel : kernel_ok partition_perm.

Implicit Types (w : World Board SimState) (b : Board).

(** C7.  On a board that has not ended, with a prior as long as the mask,
    a mask as long as the action space, a non-empty action space and
    [K >= 1], [getActionProb] returns a vector of the size of the action
    space that is 1 at the action [play] returns and 0 everywhere else. *)
Theorem getActionProb_one_hot b (temp : Z) w :
  getGameEnded (game (self w)) b 1 = 0%Z ->
  length (prior_of (self w) b) = length (mask_of (self w) b) ->
  length (mask_of (self w) b) = getActionSize (game (self w)) ->
  (1 <= getActionSize (game (self w)))%nat ->
  (1 <= K (self w))%Z ->
  exists a w' probs,
    play partition_perm b w = (Ok a, w') /\
    getActionProb partition_perm b temp w = (Ok probs, w') /\
    one_hot (getActionSize (game (self w))) a probs.
Proof.
  intros Hg Hlen Hsize Hn HK.
  destruct (play_total partition_perm kernel b w Hlen HK)
    as (cands & scored & st' & outs & a & rest & s1 & s2 &
        Htop & Hnd & Hrange & Hm & Hall & Hs & H1 & H2 & Hr & Hplay);
    [lia|].
  assert (Ha : (a < getActionSize (game (self w)))%nat).
  { rewrite <- Hsize. apply Hrange. rewrite <- Hm, Hs, map_app. simpl.
    apply in_or_app. right. now left. }
  destruct (getActionProb_of_play partition_perm b temp w a _ Hg Hplay Ha)
    as [probs [E Hone]].
  eexists a, _, probs. repeat split; try eassumption; apply Hone.
Qed.

(** The candidates when the prior is a vector of non-negative numbers as
    long as the mask, the mask allows something and [K >= 1]. *)
Lemma candidates_spec (prior : list Q) (mask : list bool) (K : Z) :
  length prior = length mask ->
  Forall (fun x => 0 <= x) prior ->
  (1 <= K)%Z ->
  In true mask ->
  let P := renormalized prior mask in
  exists cands,
    top_k_actions partition_perm K P = Ok cands /\
    length cands = Nat.min (Z.to_nat K) (Np.count_nonzero P) /\
    NoDup cands /\
    (forall c, In c cands ->
               (c < length mask)%nat /\ ~ nth c P 0 == 0 /\ legal mask c) /\
    (forall c o, In c cands -> (o < length mask)%nat -> ~ In o cands ->
                 nth o P 0 <= nth c P 0) /\
    ((Np.count_nonzero P <= Z.to_nat K)%nat ->
     forall i, In i (support P) -> In i cands).
Proof.
  intros Hlen Hpos HK Hin P.
  assert (HP : length P = length mask) by now apply length_renormalized.
  pose proof (renormalized_count_pos prior mask Hlen Hpos Hin) as Hnz.
  fold P in Hnz.
  pose proof (NpFacts.count_nonzero_le P) as Hle.
  pose proof (renormalized_nonneg prior mask Hlen Hpos) as HPpos. fold P in HPpos.
  set (k := Nat.min (Z.to_nat K) (Np.count_nonzero P)).
  assert (Hk1 : (1 <= k)%nat) by (unfold k; lia).
  assert (Hk2 : (k <= length P)%nat) by (unfold k; lia).
  assert (Hk3 : (k <= Np.count_nonzero P)%nat) by (unfold k; lia).
  exists (skipn (length P - k) (partition_perm P (length P - k))).
  split; [exact (top_k_actions_run partition_perm kernel K P HK Hnz)|].
  split; [exact (cands_length partition_perm kernel P k Hk1 Hk2)|].
  split; [exact (cands_NoDup partition_perm kernel P k Hk1 Hk2)|].
  split; [|split].
  - intros c Hc.
    pose proof (cands_in_range partition_perm kernel P k Hk1 Hk2 c Hc) as Hr.
    pose proof (cands_nonzero partition_perm kernel P k Hk1 Hk2 c HPpos Hk3 Hc)
      as Hnzc.
    rewrite HP in Hr. repeat split; try assumption.
    unfold legal. destruct (nth c mask false) eqn:Em; [reflexivity|].
    exfalso. apply Hnzc. now apply renormalized_illegal.
  - intros c o Hc Ho Hno. rewrite <- HP in Ho.
    exact (cands_top partition_perm kernel P k Hk1 Hk2 c o Hc Ho Hno).
  - intros Hsmall i Hi.
    apply (cands_cover_support partition_perm kernel P k Hk1 Hk2 i HPpos);
      [unfold k; lia | exact Hi].
Qed.

(** C1.  When the prior is a vector of non-negative numbers as long as the
    mask, [K >= 1] and the mask allows at least one action, [play] returns
    an action the mask allows; on a board that has not ended, that action is
    the one [getActionProb] gives all the mass. *)
Theorem play_returns_legal_action b (temp : Z) w :
  length (prior_of (self w) b) = length (mask_of (self w) b) ->
  Forall (fun x => 0 <= x) (prior_of (self w) b) ->
  (1 <= K (self w))%Z ->
  In true (mask_of (self w) b) ->
  exists a w',
    play partition_perm b w = (Ok a, w') /\
    legal (mask_of (self w) b) a /\
    (getGameEnded (game (self w)) b 1 = 0%Z ->
     length (mask_of (self w) b) = getActionSize (game (self w)) ->
     exists probs,
       getActionProb partition_perm b temp w = (Ok probs, w') /\
       one_hot (getActionSize (game (self w))) a probs).
Proof.
  intros Hlen Hpos HK Hin.
  assert (Hn : (1 <= length (mask_of (self w) b))%nat).
  { destruct (mask_of (self w) b); [contradiction | simpl; lia]. }
  destruct (play_total partition_perm kernel b w Hlen HK Hn)
    as (cands & scored & st' & outs & a & rest & s1 & s2 &
        Htop & Hnd & Hrange & Hm & Hall & Hs & H1 & H2 & Hr & Hplay).
  destruct (candidates_spec _ _ _ Hlen Hpos HK Hin)
    as (cands' & Htop' & _ & _ & Hlegal & _).
  rewrite Htop in Htop'. injection Htop' as <-.
  assert (Ha : In a cands).
  { rewrite <- Hm, Hs, map_app. simpl. apply in_or_app. right. now left. }
  eexists a, _. split; [exact Hplay|]. split; [apply (Hlegal a Ha)|].
  intros Hg Hsize.
  apply (getActionProb_of_play partition_perm b temp w a _ Hg Hplay).
  rewrite <- Hsize. now apply Hrange.
Qed.

(** C2.  When the prior is a vector of non-negative numbers as long as the
    mask, the masked prior sums to zero and the mask allows at least one
    action, the array that reaches line 56 gives every allowed action the
    share 1/L (L the number of allowed actions) and every other action 0,
    and it sums to 1; for the mask [1,1,0,1] it is [1/3, 1/3, 0, 1/3].  The
    case is reported by one error-level log record after the call of the
    predictor, and [play] still returns an action (here for [K >= 1]). *)
Theorem fallback_uniform_over_legal b w :
  length (prior_of (self w) b) = length (mask_of (self w) b) ->
  Forall (fun x => 0 <= x) (prior_of (self w) b) ->
  (1 <= K (self w))%Z ->
  In true (mask_of (self w) b) ->
  Np.sum (masked (prior_of (self w) b) (mask_of (self w) b)) == 0 ->
  exists P w1,
    play_prior b w = (Ok P, w1) /\
    trace w1 = trace w ++ [EvPredict b; EvLogError masked_msg] /\
    length P = length (mask_of (self w) b) /\
    (forall i, (i < length (mask_of (self w) b))%nat ->
               nth i P 0 ==
               if nth i (mask_of (self w) b) false
               then 1 / nat2q (num_legal (mask_of (self w) b)) else 0) /\
    Np.sum P == 1 /\
    (mask_of (self w) b = [true; true; false; true] ->
     Forall2 Qeq P [1 # 3; 1 # 3; 0; 1 # 3]) /\
    (exists a w',
        play partition_perm b w = (Ok a, w') /\
        In (EvLogError masked_msg) (trace w')).
Proof.
  intros Hlen Hpos HK Hin Hsum.
  set (prior := prior_of (self w) b) in *.
  set (mask := mask_of (self w) b) in *.
  assert (Hf : fallback_taken prior mask = true).
  { unfold fallback_taken. apply negb_true_iff, Qlt_bool_false.
    rewrite Hsum. apply Qle_refl. }
  assert (Hu : forall i, (i < length mask)%nat ->
             nth i (renormalized prior mask) 0 ==
             if nth i mask false then 1 / nat2q (num_legal mask) else 0).
  { intros i Hi. rewrite (fallback_uniform prior mask Hlen Hpos i Hf Hi).
    destruct (nth i mask false); [reflexivity|]. unfold b2q, Qdiv. ring. }
  exists (renormalized prior mask). eexists.
  split; [exact (play_prior_run b w Hlen)|]. fold prior mask. rewrite Hf.
  split; [reflexivity|].
  split; [now apply length_renormalized|].
  split; [exact Hu|].
  split; [now apply fallback_sum_one|].
  split.
  - intros Em. apply Forall2_nth.
    + rewrite (length_renormalized prior mask Hlen), Em. reflexivity.
    + rewrite (length_renormalized prior mask Hlen). intros i Hi.
      rewrite (Hu i Hi). rewrite Em in Hi |- *.
      destruct i as [|[|[|[|i]]]]; simpl in Hi; try lia; reflexivity.
  - assert (Hn : (1 <= length mask)%nat).
    { destruct mask; [contradiction | simpl; lia]. }
    destruct (play_total partition_perm kernel b w Hlen HK Hn)
      as (cands & scored & st' & outs & a & rest & s1 & s2 &
          _ & _ & _ & _ & _ & _ & _ & _ & _ & Hplay).
    eexists a, _. split; [exact Hplay|].
    fold prior mask. rewrite Hf. simpl.
    apply in_or_app. right. right. now left.
Qed.

Lemma map_nth_seq_bool (l : list bool) :
  map (fun i => nth i l false) (seq 0 (length l)) = l.
Proof.
  induction l as [|x l IH]; simpl; [reflexivity|].
  f_equal. rewrite <- seq_shift, map_map. exact IH.
Qed.

(** No more entries are non-zero at line 56 than the mask allows actions. *)
Lemma count_nonzero_le_legal (prior : list Q) (mask : list bool) :
  length prior = length mask ->
  (Np.count_nonzero (renormalized prior mask) <= num_legal mask)%nat.
Proof.
  intros Hlen. rewrite <- length_support.
  set (legal_set := filter (fun i => nth i mask false) (seq 0 (length mask))).
  assert (Hl : length legal_set = num_legal mask).
  { unfold legal_set, num_legal.
    rewrite <- (length_filter_map (fun v : bool => v)
                  (fun i => nth i mask false)).
    now rewrite map_nth_seq_bool. }
  rewrite <- Hl. apply NoDup_incl_length; [apply NoDup_support|].
  intros i Hi. apply In_support in Hi. destruct Hi as [Hr Hnz].
  rewrite (length_renormalized prior mask Hlen) in Hr.
  apply filter_In. split; [apply in_seq; lia|].
  destruct (nth i mask false) eqn:Em; [reflexivity|].
  exfalso. apply Hnz. now apply renormalized_illegal.
Qed.

Lemma legal_in_range (mask : list bool) (i : nat) :
  legal mask i -> (i < length mask)%nat.
Proof.
  unfold legal. intros H. destruct (Nat.lt_ge_cases i (length mask)) as [|Hge];
    [assumption|].
  rewrite nth_overflow in H by lia. discriminate.
Qed.

(** C3 (as the code has it).  With a prior of non-negative numbers as long
    as the mask, an allowed action and [K >= 1]: the candidates are distinct
    allowed actions with a non-zero entry in the renormalised prior [P];
    there are [min K nz] of them, [nz] counting the non-zero entries of [P],
    which is at most [min K L] for [L] allowed actions; no action left out
    has a larger entry than a candidate; when [nz < K] the candidates are
    exactly the actions with a non-zero entry, and these are all the allowed
    actions as soon as [P] is non-zero on every allowed action.  The actions
    in [self.qsa] after [play] are the candidates. *)
Theorem candidates_top_of_support b w :
  length (prior_of (self w) b) = length (mask_of (self w) b) ->
  Forall (fun x => 0 <= x) (prior_of (self w) b) ->
  (1 <= K (self w))%Z ->
  In true (mask_of (self w) b) ->
  exists P cands w1,
    play_prior b w = (Ok P, w1) /\
    play_candidates partition_perm b w = (Ok cands, w1) /\
    NoDup cands /\
    length cands = Nat.min (Z.to_nat (K (self w))) (Np.count_nonzero P) /\
    (length cands
     <= Nat.min (Z.to_nat (K (self w))) (num_legal (mask_of (self w) b)))%nat /\
    (forall c, In c cands ->
               legal (mask_of (self w) b) c /\ ~ nth c P 0 == 0) /\
    (forall c o, In c cands -> (o < length (mask_of (self w) b))%nat ->
                 ~ In o cands -> nth o P 0 <= nth c P 0) /\
    ((Z.of_nat (Np.count_nonzero P) < K (self w))%Z ->
     forall i, In i cands <->
               (i < length (mask_of (self w) b))%nat /\ ~ nth i P 0 == 0) /\
    ((forall i, legal (mask_of (self w) b) i -> ~ nth i P 0 == 0) ->
     (Z.of_nat (num_legal (mask_of (self w) b)) < K (self w))%Z ->
     forall i, In i cands <-> legal (mask_of (self w) b) i) /\
    (exists a w' q,
        play partition_perm b w = (Ok a, w') /\
        qsa (self w') = Some q /\
        Permutation (map snd q) cands).
Proof.
  intros Hlen Hpos HK Hin.
  set (prior := prior_of (self w) b) in *.
  set (mask := mask_of (self w) b) in *.
  set (P := renormalized prior mask).
  assert (HP : length P = length mask) by now apply length_renormalized.
  destruct (candidates_spec prior mask (K (self w)) Hlen Hpos HK Hin)
    as (cands & Htop & Hlc & Hnd & Hlegal & Htopk & Hcover).
  fold P in Htop, Hlc, Hlegal, Htopk, Hcover.
  pose proof (count_nonzero_le_legal prior mask Hlen) as Hnzl. fold P in Hnzl.
  exists P, cands. eexists.
  split; [exact (play_prior_run b w Hlen)|].
  split; [rewrite (play_candidates_run partition_perm b w Hlen);
          fold prior mask P; now rewrite Htop|].
  split; [exact Hnd|]. split; [exact Hlc|]. split; [lia|].
  split; [intros c Hc; split; apply (Hlegal c Hc)|].
  split; [exact Htopk|].
  split; [|split].
  - intros Hsmall i. split.
    + intros Hi. split; apply (Hlegal i Hi).
    + intros [Hr Hnz]. apply Hcover; [lia|].
      apply In_support. rewrite HP. now split.
  - intros Hall Hsmall i. split.
    + intros Hi. apply (Hlegal i Hi).
    + intros Hi. apply Hcover; [lia|].
      apply In_support. rewrite HP. split; [now apply legal_in_range|].
      now apply Hall.
  - assert (Hn : (1 <= length mask)%nat).
    { destruct mask; [contradiction | simpl; lia]. }
    destruct (play_total partition_perm kernel b w Hlen HK Hn)
      as (cands' & scored & st' & outs & a & rest & s1 & s2 &
          Htop' & _ & _ & Hm & _ & _ & _ & _ & Hr & Hplay).
    fold prior mask P in Htop'. rewrite Htop in Htop'. injection Htop' as <-.
    eexists a, _, _. split; [exact Hplay|]. split; [reflexivity|].
    rewrite <- Hr, <- Hm.
    assert (Es : map snd (map scored_entry scored) = map snd scored)
      by (rewrite map_map; now apply map_ext).
    rewrite <- Es. apply Permutation_map.
    rewrite <- Permutation_rev. apply sort_by_perm.
Qed.



(** The rule "last entry of maximal key" picks one position only. *)
Lemma last_max_unique {A : Type} (key : A -> Q) (x y : A) :
  forall s1 t1 s2 t2 : list A,
  s1 ++ x :: s2 = t1 ++ y :: t2 ->
  Forall (fun z => key z <= key x) s1 -> Forall (fun z => key z < key x) s2 ->
  Forall (fun z => key z <= key y) t1 -> Forall (fun z => key z < key y) t2 ->
  t1 = s1 /\ y = x /\ t2 = s2.
Proof.
  induction s1 as [|z s1 IH]; intros [|z' t1] s2 t2 E Hs1 Hs2 Ht1 Ht2;
    simpl in E.
  - injection E as Ex Es. subst. now repeat split.
  - injection E as Ex Es. subst z' s2. exfalso.
    inversion Ht1 as [|? ? Hxy _]; subst.
    rewrite Forall_forall in Hs2.
    assert (Hyx : key y < key x) by (apply Hs2, in_or_app; right; now left).
    apply (Qlt_irrefl (key y)). now apply Qlt_le_trans with (key x).
  - injection E as Ex Es. subst z t2. exfalso.
    inversion Hs1 as [|? ? Hyx _]; subst.
    rewrite Forall_forall in Ht2.
    assert (Hxy : key x < key y) by (apply Ht2, in_or_app; right; now left).
    apply (Qlt_irrefl (key x)). now apply Qlt_le_trans with (key y).
  - injection E as Ex Es. subst z'. inversion Hs1; inversion Ht1; subst.
    destruct (IH t1 s2 t2 Es) as [-> [-> ->]]; try assumption.
    now repeat split.
Qed.

(** C5 (as the code has it).  With a prior as long as the mask, a
    non-empty action space, [K >= 1] and [numMCsims >= 1]: among the scored
    candidates, taken
    in candidate order, [play] returns the last one whose average is
    maximal: no earlier candidate has a larger average and every later
    candidate has a strictly smaller one.  This rule fixes the returned
    action: the candidate order and the averages admit one such position. *)
Theorem play_tie_break_last b w :
  length (prior_of (self w) b) = length (mask_of (self w) b) ->
  (1 <= K (self w))%Z ->
  (1 <= length (mask_of (self w) b))%nat ->
  (1 <= numMCsims (args (self w)))%Z ->
  exists cands w1 scored outs a w' s1 s2,
    play_candidates partition_perm b w = (Ok cands, w1) /\
    map snd scored = cands /\
    trace w' = trace w1 ++ rollout_events (game (self w)) b scored /\
    play partition_perm b w = (Ok a, w') /\
    scored = s1 ++ (outs, a) :: s2 /\
    Forall (fun x => Np.mean (fst x) <= Np.mean outs) s1 /\
    Forall (fun x => Np.mean (fst x) < Np.mean outs) s2 /\
    (forall t1 outs' a' t2,
        scored = t1 ++ (outs', a') :: t2 ->
        Forall (fun x => Np.mean (fst x) <= Np.mean outs') t1 ->
        Forall (fun x => Np.mean (fst x) < Np.mean outs') t2 ->
        t1 = s1 /\ (outs', a') = (outs, a) /\ t2 = s2).
Proof.
  intros Hlen HK Hn _.
  destruct (play_total partition_perm kernel b w Hlen HK Hn)
    as (cands & scored & st' & outs & a & rest & s1 & s2 &
        Htop & Hnd & Hrange & Hm & Hall & Hs & H1 & H2 & Hr & Hplay).
  exists cands. eexists. exists scored, outs, a.
  match type of Hplay with _ = (_, ?W) => exists W end.
  exists s1, s2.
  split; [rewrite (play_candidates_run partition_perm b w Hlen), Htop;
          reflexivity|].
  split; [exact Hm|].
  split; [unfold update_world; cbn [trace]; now rewrite app_assoc|].
  split; [exact Hplay|]. split; [exact Hs|].
  split; [exact H1|]. split; [exact H2|].
  intros t1 outs' a' t2 Et Ht1 Ht2. rewrite Hs in Et.
  apply (last_max_unique (fun x : list Q * nat => Np.mean (fst x))
           (outs, a) (outs', a') s1 t1 s2 t2 Et); assumption.
Qed.

(** ** No check of [K] or of the shape of the prior *)

(** A prior that cannot be broadcast against the mask stops [play] at
    line 42, after the call of the predictor. *)
Lemma play_shape_error b w :
  length (prior_of (self w) b) <> length (mask_of (self w) b) ->
  length (prior_of (self w) b) <> 1%nat ->
  length (mask_of (self w) b) <> 1%nat ->
  play partition_perm b w =
  (Raise (ValueError_broadcast (length (prior_of (self w) b))
                               (length (mask_of (self w) b))),
   update_world w (Some []) (sim_state w) [EvPredict b]).
Proof.
  unfold prior_of, mask_of. intros Hne H1 H2.
  unfold play, play_candidates, play_prior, bind, assign_qsa, get_self,
    call_predict, bind, emit, get_self, ret. simpl.
  destruct (predict (nnet (self w)) b) as [Ps v] eqn:Ep. simpl in *.
  unfold renormalize, bind, lift.
  rewrite NpFacts.mul_mismatch by (rewrite ?length_map; assumption).
  now rewrite length_map.
Qed.

(** Lines 56-61 for [K <= 0]: the comparison of line 58 fails, and line 61
    asks for position [-K], which numpy rejects only when it lies outside
    the array. *)
Lemma top_k_actions_nonpos (K : Z) (P : list Q) :
  (K <= 0)%Z -> (1 <= length P)%nat ->
  top_k_actions partition_perm K P =
  if (- K <? Z.of_nat (length P))%Z
  then Ok (skipn (Z.to_nat (- K)) (partition_perm P (Z.to_nat (- K))))
  else Raise (ValueError_kth (- K) (length P)).
Proof.
  intros HK Hn. unfold top_k_actions.
  assert (E1 : (Z.of_nat (Np.count_nonzero P) <? K)%Z = false)
    by (apply Z.ltb_ge; lia).
  rewrite E1. unfold argpartition.
  assert (E2 : Nat.eqb (length P) 0 = false) by (apply Nat.eqb_neq; lia).
  assert (E3 : (- K <? 0)%Z = false) by (apply Z.ltb_ge; lia).
  cbv zeta. rewrite E2, !E3. cbn [orb].
  destruct (- K <? Z.of_nat (length P))%Z eqn:E4.
  - apply Z.ltb_lt in E4.
    assert (E5 : (Z.of_nat (length P) <=? - K)%Z = false)
      by (apply Z.leb_gt; lia).
    rewrite E5. cbn [res_map]. f_equal. unfold py_slice_from.
    rewrite E3.
    destruct (kernel P (Z.to_nat (- K))) as [Hperm _]; [lia|].
    pose proof (Permutation_length Hperm) as Hl. rewrite length_seq in Hl.
    rewrite Hl. now rewrite Z.min_l by lia.
  - apply Z.ltb_ge in E4.
    assert (E5 : (Z.of_nat (length P) <=? - K)%Z = true)
      by (apply Z.leb_le; lia).
    rewrite E5. reflexivity.
Qed.

(** [play] once line 61 has produced at least one candidate. *)
Lemma play_from_candidates b w (cands : list nat) :
  length (prior_of (self w) b) = length (mask_of (self w) b) ->
  top_k_actions partition_perm (K (self w))
    (renormalized (prior_of (self w) b) (mask_of (self w) b)) = Ok cands ->
  cands <> [] ->
  exists a w', In a cands /\ play partition_perm b w = (Ok a, w').
Proof.
  intros Hlen Htop Hne.
  destruct (play_run partition_perm b w _ Hlen Htop)
    as [scored [st' [Hm [Hall E]]]].
  assert (Hsne : scored <> []).
  { intros Es. subst scored. simpl in Hm. congruence. }
  destruct (select_last_max scored Hsne)
    as [outs [a [rest [s1 [s2 [Hr [Hs [H1 H2]]]]]]]].
  rewrite Hr in E. eexists a, _. split; [|exact E].
  rewrite <- Hm, Hs, map_app. apply in_or_app. right. now left.
Qed.

(** C9 (as the code has it).  The selector checks neither [K] nor the shape
    of the prior; what fails, fails inside numpy.  [__init__] stores
    whatever [mc_topk] holds.  A prior whose length differs from the
    mask's, neither being 1, makes line 42 raise numpy's broadcasting error
    right after the call of the predictor: no rollout has run and the
    simulator keeps its state.  For [K <= 0], with a prior of non-negative
    numbers as long as a mask of [n] entries that allows an action: when
    [n <= -K], numpy rejects the position [-K] at line 61, again before any
    rollout; when [-K < n], nothing is raised: the candidates are the
    [n + K] entries behind position [-K] of the partitioned index array,
    each of them is scored by [numMCsims] rollouts, in order, and [play]
    stores the sorted list and returns one of them. *)
Theorem play_validates_nothing b w :
  (forall MonteCarlo (g : Game Board) (n : NNet Board) (a : Args),
      K (init (SimState := SimState) MonteCarlo g n a) = mc_topk a) /\
  (length (prior_of (self w) b) <> length (mask_of (self w) b) ->
   length (prior_of (self w) b) <> 1%nat ->
   length (mask_of (self w) b) <> 1%nat ->
   exists w',
     play partition_perm b w =
     (Raise (ValueError_broadcast (length (prior_of (self w) b))
                                  (length (mask_of (self w) b))), w') /\
     trace w' = trace w ++ [EvPredict b] /\
     sim_state w' = sim_state w) /\
  (length (prior_of (self w) b) = length (mask_of (self w) b) ->
   Forall (fun x => 0 <= x) (prior_of (self w) b) ->
   In true (mask_of (self w) b) ->
   (K (self w) <= 0)%Z ->
   ((- K (self w) < Z.of_nat (length (mask_of (self w) b)))%Z ->
    exists w1 scored a w',
      play_candidates partition_perm b w
      = (Ok (skipn (Z.to_nat (- K (self w)))
               (partition_perm
                  (renormalized (prior_of (self w) b) (mask_of (self w) b))
                  (Z.to_nat (- K (self w))))), w1) /\
      trace w1 = trace w ++
                 prior_events b (fallback_taken (prior_of (self w) b)
                                                (mask_of (self w) b)) /\
      map snd scored
      = skipn (Z.to_nat (- K (self w)))
          (partition_perm
             (renormalized (prior_of (self w) b) (mask_of (self w) b))
             (Z.to_nat (- K (self w)))) /\
      NoDup (map snd scored) /\
      (forall c, In c (map snd scored) ->
                 (c < length (mask_of (self w) b))%nat) /\
      Z.of_nat (length scored)
      = (Z.of_nat (length (mask_of (self w) b)) + K (self w))%Z /\
      Forall (fun x =>
                length (fst x) = Z.to_nat (numMCsims (args (self w))) /\
                simulated (self w)
                          (next_board (game (self w)) b (snd x)) (fst x))
             scored /\
      play partition_perm b w = (Ok a, w') /\
      trace w' = trace w1 ++ rollout_events (game (self w)) b scored /\
      qsa (self w') = Some (rev (sort_by fst (map scored_entry scored))) /\
      In a (map snd scored)) /\
   ((Z.of_nat (length (mask_of (self w) b)) <= - K (self w))%Z ->
    exists w',
      play partition_perm b w =
      (Raise (ValueError_kth (- K (self w)) (length (mask_of (self w) b))),
       w') /\
      trace w' = trace w ++
                 prior_events b (fallback_taken (prior_of (self w) b)
                                                (mask_of (self w) b)) /\
      sim_state w' = sim_state w)).
Proof.
  split; [reflexivity|]. split.
  - intros Hne H1 H2. eexists. split; [now apply play_shape_error|].
    split; reflexivity.
  - intros Hlen _ Hin HK.
    assert (Hn : (1 <= length (mask_of (self w) b))%nat).
    { destruct (mask_of (self w) b); [contradiction | simpl; lia]. }
    set (P := renormalized (prior_of (self w) b) (mask_of (self w) b)).
    assert (HP : length P = length (mask_of (self w) b))
      by now apply length_renormalized.
    assert (Htop := top_k_actions_nonpos (K (self w)) P HK ltac:(lia)).
    rewrite HP in Htop. split.
    + intros Hsmall. apply Z.ltb_lt in Hsmall. rewrite Hsmall in Htop.
      apply Z.ltb_lt in Hsmall.
      assert (Hkth : (Z.to_nat (- K (self w)) < length P)%nat) by lia.
      destruct (skipn_kernel_facts partition_perm kernel P _ Hkth)
        as [Hne [Hnd Hrange]].
      destruct (play_run partition_perm b w _ Hlen Htop)
        as [scored [st' [Hm [Hall E]]]].
      assert (Hsne : scored <> []).
      { intros Es. subst scored. simpl in Hm. congruence. }
      destruct (select_last_max scored Hsne)
        as [outs [a [rest [s1 [s2 [Hr [Hs _]]]]]]].
      rewrite Hr in E.
      eexists _, scored, a, _.
      split; [rewrite (play_candidates_run partition_perm b w Hlen);
              fold P; rewrite Htop; reflexivity|].
      split; [reflexivity|].
      split; [exact Hm|].
      split; [rewrite Hm; exact Hnd|].
      split; [intros c Hc; rewrite Hm in Hc; rewrite <- HP;
              now apply Hrange|].
      split.
      { rewrite <- (length_map snd), Hm, length_skipn.
        destruct (kernel P _ Hkth) as [Hperm _].
        rewrite (Permutation_length Hperm), length_seq. lia. }
      split; [exact Hall|].
      split; [exact E|].
      split; [unfold update_world; cbn [trace]; now rewrite app_assoc|].
      split; [simpl; now rewrite Hr|].
      rewrite Hs, map_app. apply in_or_app. right. now left.
    + intros Hbig. apply Z.ltb_ge in Hbig. rewrite Hbig in Htop.
      eexists. split.
      * unfold play. unfold bind at 1.
        rewrite (play_candidates_run partition_perm b w Hlen). fold P.
        rewrite Htop. reflexivity.
      * split; reflexivity.
Qed.

End Claims.

(* ================================================================== *)
(** * What a call writes *)
(* ================================================================== *)

Section Frame.
Context {Board SimState : Type}.
Variable partition_perm : list Q -> nat -> list nat.

Implicit Types (w : World Board SimState) (b : Board).

Lemma same_frame_refl (p : MonteCarloBasedPlayer Board SimState) :
  same_frame p p.
Proof. now repeat split. Qed.

Lemma same_frame_trans (p1 p2 p3 : MonteCarloBasedPlayer Board SimState) :
  same_frame p1 p2 -> same_frame p2 p3 -> same_frame p1 p3.
Proof.
  unfold same_frame. intros (?&?&?&?&?) (?&?&?&?&?).
  repeat split; congruence.
Qed.

Lemma keeps_ret {A : Type} (a : A) :
  keeps_frame (Board := Board) (SimState := SimState) (ret a).
Proof. intros w. split; [apply same_frame_refl | trivial]. Qed.

Lemma keeps_raise {A : Type} (e : Exn) :
  keeps_frame (Board := Board) (SimState := SimState) (A := A) (raise e).
Proof. intros w. split; [apply same_frame_refl | trivial]. Qed.

Lemma keeps_lift {A : Type} (r : Res A) :
  keeps_frame (Board := Board) (SimState := SimState) (lift r).
Proof. intros w. split; [apply same_frame_refl | trivial]. Qed.

Lemma keeps_get_self :
  keeps_frame (Board := Board) (SimState := SimState) get_self.
Proof. intros w. split; [apply same_frame_refl | trivial]. Qed.

Lemma keeps_assign_qsa (q : list (Q * nat)) :
  keeps_frame (Board := Board) (SimState := SimState) (assign_qsa q).
Proof. intros w. split; [now repeat split | discriminate]. Qed.

Lemma keeps_read_qsa :
  keeps_frame (Board := Board) (SimState := SimState) read_qsa.
Proof.
  intros w. unfold read_qsa. destruct (qsa (self w)) eqn:E; simpl;
    (split; [apply same_frame_refl | now rewrite E]).
Qed.

Lemma keeps_emit (e : Event Board) :
  keeps_frame (SimState := SimState) (emit e).
Proof. intros w. split; [apply same_frame_refl | trivial]. Qed.

Lemma keeps_call_simulate b :
  keeps_frame (SimState := SimState) (call_simulate b).
Proof.
  intros w. unfold call_simulate.
  destruct (simulate (mc (self w)) b (sim_state w)).
  split; [apply same_frame_refl | trivial].
Qed.

Lemma keeps_bind {A B : Type} (m : M Board SimState A)
  (f : A -> M Board SimState B) :
  keeps_frame m -> (forall a, keeps_frame (f a)) -> keeps_frame (bind m f).
Proof.
  intros Hm Hf w. unfold bind. destruct (Hm w) as [H1 H2].
  destruct (m w) as [[a|e] w1]; simpl in *; [|now split].
  destruct (Hf a w1) as [H3 H4]. split.
  - now apply same_frame_trans with (self w1).
  - auto.
Qed.

Hint Resolve keeps_ret keeps_raise keeps_lift keeps_get_self keeps_assign_qsa
  keeps_read_qsa keeps_emit keeps_call_simulate : frame.

Ltac frame_step :=
  match goal with
  | |- keeps_frame (bind _ _) => apply keeps_bind; [|intros]
  | |- keeps_frame (match ?x with _ => _ end) => destruct x
  | _ => solve [auto with frame]
  end.

Lemma keeps_call_predict b :
  keeps_frame (SimState := SimState) (call_predict b).
Proof. unfold call_predict. repeat frame_step. Qed.

Lemma keeps_modify_qsa (f : list (Q * nat) -> list (Q * nat)) :
  keeps_frame (Board := Board) (SimState := SimState) (modify_qsa f).
Proof. unfold modify_qsa. repeat frame_step. Qed.

Lemma keeps_rollouts (n : nat) (s : Board) (values : list Q) :
  keeps_frame (SimState := SimState) (rollouts n s values).
Proof.
  revert values. induction n as [|n IH]; intros values; simpl;
    [auto with frame|].
  apply keeps_bind; [auto with frame | intros; apply IH].
Qed.


Hint Resolve keeps_call_predict keeps_modify_qsa keeps_rollouts : frame.

Lemma keeps_renormalize (Ps valids : list Q) :
  keeps_frame (Board := Board) (SimState := SimState) (renormalize Ps valids).
Proof. unfold renormalize. repeat frame_step. Qed.

Lemma keeps_score_action b (action : nat) :
  keeps_frame (SimState := SimState) (score_action b action).
Proof. unfold score_action. repeat frame_step. Qed.

Lemma keeps_best_of_qsa :
  keeps_frame (Board := Board) (SimState := SimState) best_of_qsa.
Proof. unfold best_of_qsa. repeat frame_step. Qed.

Hint Resolve keeps_renormalize keeps_score_action keeps_best_of_qsa : frame.









End Frame.

(* ================================================================== *)
(** * The theorems on concrete boards *)
(* ================================================================== *)

(** Side conditions on the toy worlds are settled by evaluation. *)
Ltac toy_side :=
  first
    [ reflexivity
    | simpl; lia
    | simpl; tauto
    | simpl; repeat (apply Forall_cons; [unfold Qle; simpl; lia|]);
      apply Forall_nil
    | vm_compute; reflexivity ].

(** The theorem of C1 at the world [Toy.w_top3]. *)
Lemma play_returns_legal_action_witness :
  kernel_ok argsort_kernel /\
  (length (prior_of (self Toy.w_top3) O) = length (mask_of (self Toy.w_top3) O) /\
   Forall (fun x => 0 <= x) (prior_of (self Toy.w_top3) O) /\
   (1 <= K (self Toy.w_top3))%Z /\
   In true (mask_of (self Toy.w_top3) O)) /\
  exists a w',
    play argsort_kernel O Toy.w_top3 = (Ok a, w') /\
    legal (mask_of (self Toy.w_top3) O) a /\
    (getGameEnded (game (self Toy.w_top3)) O 1 = 0%Z ->
     length (mask_of (self Toy.w_top3) O) = getActionSize (game (self Toy.w_top3)) ->
     exists probs,
       getActionProb argsort_kernel O 1%Z Toy.w_top3 = (Ok probs, w') /\
       one_hot (getActionSize (game (self Toy.w_top3))) a probs).
Proof.
  assert (H1 : length (prior_of (self Toy.w_top3) O) = length (mask_of (self Toy.w_top3) O))
    by toy_side.
  assert (H2 : Forall (fun x => 0 <= x) (prior_of (self Toy.w_top3) O))
    by toy_side.
  assert (H3 : (1 <= K (self Toy.w_top3))%Z)
    by toy_side.
  assert (H4 : In true (mask_of (self Toy.w_top3) O))
    by toy_side.
  split; [exact argsort_kernel_ok|].
  split; [exact (conj H1 (conj H2 (conj H3 H4)))|].
  exact (play_returns_legal_action argsort_kernel argsort_kernel_ok
           O 1%Z Toy.w_top3 H1 H2 H3 H4).
Defined.

(** The theorem of C2 at the world [Toy.w_fallback]. *)
Lemma fallback_uniform_over_legal_witness :
  kernel_ok argsort_kernel /\
  (length (prior_of (self Toy.w_fallback) O) = length (mask_of (self Toy.w_fallback) O) /\
   Forall (fun x => 0 <= x) (prior_of (self Toy.w_fallback) O) /\
   (1 <= K (self Toy.w_fallback))%Z /\
   In true (mask_of (self Toy.w_fallback) O) /\
   Np.sum (masked (prior_of (self Toy.w_fallback) O) (mask_of (self Toy.w_fallback) O)) == 0) /\
  exists P w1,
    play_prior O Toy.w_fallback = (Ok P, w1) /\
    trace w1 = trace Toy.w_fallback ++ [EvPredict O; EvLogError masked_msg] /\
    length P = length (mask_of (self Toy.w_fallback) O) /\
    (forall i, (i < length (mask_of (self Toy.w_fallback) O))%nat ->
               nth i P 0 ==
               if nth i (mask_of (self Toy.w_fallback) O) false
               then 1 / nat2q (num_legal (mask_of (self Toy.w_fallback) O)) else 0) /\
    Np.sum P == 1 /\
    (mask_of (self Toy.w_fallback) O = [true; true; false; true] ->
     Forall2 Qeq P [1 # 3; 1 # 3; 0; 1 # 3]) /\
    (exists a w',
        play argsort_kernel O Toy.w_fallback = (Ok a, w') /\
        In (EvLogError masked_msg) (trace w')).
Proof.
  assert (H1 : length (prior_of (self Toy.w_fallback) O) = length (mask_of (self Toy.w_fallback) O))
    by toy_side.
  assert (H2 : Forall (fun x => 0 <= x) (prior_of (self Toy.w_fallback) O))
    by toy_side.
  assert (H3 : (1 <= K (self Toy.w_fallback))%Z)
    by toy_side.
  assert (H4 : In true (mask_of (self Toy.w_fallback) O))
    by toy_side.
  assert (H5 : Np.sum (masked (prior_of (self Toy.w_fallback) O) (mask_of (self Toy.w_fallback) O)) == 0)
    by toy_side.
  split; [exact argsort_kernel_ok|].
  split; [exact (conj H1 (conj H2 (conj H3 (conj H4 H5))))|].
  exact (fallback_uniform_over_legal argsort_kernel argsort_kernel_ok
           O Toy.w_fallback H1 H2 H3 H4 H5).
Defined.

(** The theorem of C3 at the world [Toy.w_two_legal]. *)
Lemma candidates_top_of_support_witness :
  kernel_ok argsort_kernel /\
  (length (prior_of (self Toy.w_two_legal) O) = length (mask_of (self Toy.w_two_legal) O) /\
   Forall (fun x => 0 <= x) (prior_of (self Toy.w_two_legal) O) /\
   (1 <= K (self Toy.w_two_legal))%Z /\
   In true (mask_of (self Toy.w_two_legal) O)) /\
  exists P cands w1,
    play_prior O Toy.w_two_legal = (Ok P, w1) /\
    play_candidates argsort_kernel O Toy.w_two_legal = (Ok cands, w1) /\
    NoDup cands /\
    length cands = Nat.min (Z.to_nat (K (self Toy.w_two_legal))) (Np.count_nonzero P) /\
    (length cands
     <= Nat.min (Z.to_nat (K (self Toy.w_two_legal))) (num_legal (mask_of (self Toy.w_two_legal) O)))%nat /\
    (forall c, In c cands ->
               legal (mask_of (self Toy.w_two_legal) O) c /\ ~ nth c P 0 == 0) /\
    (forall c o, In c cands -> (o < length (mask_of (self Toy.w_two_legal) O))%nat ->
                 ~ In o cands -> nth o P 0 <= nth c P 0) /\
    ((Z.of_nat (Np.count_nonzero P) < K (self Toy.w_two_legal))%Z ->
     forall i, In i cands <->
               (i < length (mask_of (self Toy.w_two_legal) O))%nat /\ ~ nth i P 0 == 0) /\
    ((forall i, legal (mask_of (self Toy.w_two_legal) O) i -> ~ nth i P 0 == 0) ->
     (Z.of_nat (num_legal (mask_of (self Toy.w_two_legal) O)) < K (self Toy.w_two_legal))%Z ->
     forall i, In i cands <-> legal (mask_of (self Toy.w_two_legal) O) i) /\
    (exists a w' q,
        play argsort_kernel O Toy.w_two_legal = (Ok a, w') /\
        qsa (self w') = Some q /\
        Permutation (map snd q) cands).
Proof.
  assert (H1 : length (prior_of (self Toy.w_two_legal) O) = length (mask_of (self Toy.w_two_legal) O))
    by toy_side.
  assert (H2 : Forall (fun x => 0 <= x) (prior_of (self Toy.w_two_legal) O))
    by toy_side.
  assert (H3 : (1 <= K (self Toy.w_two_legal))%Z)
    by toy_side.
  assert (H4 : In true (mask_of (self Toy.w_two_legal) O))
    by toy_side.
  split; [exact argsort_kernel_ok|].
  split; [exact (conj H1 (conj H2 (conj H3 H4)))|].
  exact (candidates_top_of_support argsort_kernel argsort_kernel_ok
           O Toy.w_two_legal H1 H2 H3 H4).
Defined.


(** The theorem of C5 at the world [Toy.w_tie]. *)
Lemma play_tie_break_last_witness :
  kernel_ok argsort_kernel /\
  (length (prior_of (self Toy.w_tie) O) = length (mask_of (self Toy.w_tie) O) /\
   (1 <= K (self Toy.w_tie))%Z /\
   (1 <= length (mask_of (self Toy.w_tie) O))%nat /\
   (1 <= numMCsims (args (self Toy.w_tie)))%Z) /\
  exists cands w1 scored outs a w' s1 s2,
    play_candidates argsort_kernel O Toy.w_tie = (Ok cands, w1) /\
    map snd scored = cands /\
    trace w' = trace w1 ++ rollout_events (game (self Toy.w_tie)) O scored /\
    play argsort_kernel O Toy.w_tie = (Ok a, w') /\
    scored = s1 ++ (outs, a) :: s2 /\
    Forall (fun x => Np.mean (fst x) <= Np.mean outs) s1 /\
    Forall (fun x => Np.mean (fst x) < Np.mean outs) s2 /\
    (forall t1 outs' a' t2,
        scored = t1 ++ (outs', a') :: t2 ->
        Forall (fun x => Np.mean (fst x) <= Np.mean outs') t1 ->
        Forall (fun x => Np.mean (fst x) < Np.mean outs') t2 ->
        t1 = s1 /\ (outs', a') = (outs, a) /\ t2 = s2).
Proof.
  assert (H1 : length (prior_of (self Toy.w_tie) O) = length (mask_of (self Toy.w_tie) O))
    by toy_side.
  assert (H2 : (1 <= K (self Toy.w_tie))%Z)
    by toy_side.
  assert (H3 : (1 <= length (mask_of (self Toy.w_tie) O))%nat)
    by toy_side.
  assert (H4 : (1 <= numMCsims (args (self Toy.w_tie)))%Z)
    by toy_side.
  split; [exact argsort_kernel_ok|].
  split; [exact (conj H1 (conj H2 (conj H3 H4)))|].
  exact (play_tie_break_last argsort_kernel argsort_kernel_ok
           O Toy.w_tie H1 H2 H3 H4).
Defined.

(** The theorem of C7 at the world [Toy.w_top3]. *)
Lemma getActionProb_one_hot_witness :
  kernel_ok argsort_kernel /\
  (getGameEnded (game (self Toy.w_top3)) O 1 = 0%Z /\
   length (prior_of (self Toy.w_top3) O) = length (mask_of (self Toy.w_top3) O) /\
   length (mask_of (self Toy.w_top3) O) = getActionSize (game (self Toy.w_top3)) /\
   (1 <= getActionSize (game (self Toy.w_top3)))%nat /\
   (1 <= K (self Toy.w_top3))%Z) /\
  exists a w' probs,
    play argsort_kernel O Toy.w_top3 = (Ok a, w') /\
    getActionProb argsort_kernel O 1%Z Toy.w_top3 = (Ok probs, w') /\
    one_hot (getActionSize (game (self Toy.w_top3))) a probs.
Proof.
  assert (H1 : getGameEnded (game (self Toy.w_top3)) O 1 = 0%Z)
    by toy_side.
  assert (H2 : length (prior_of (self Toy.w_top3) O) = length (mask_of (self Toy.w_top3) O))
    by toy_side.
  assert (H3 : length (mask_of (self Toy.w_top3) O) = getActionSize (game (self Toy.w_top3)))
    by toy_side.
  assert (H4 : (1 <= getActionSize (game (self Toy.w_top3)))%nat)
    by toy_side.
  assert (H5 : (1 <= K (self Toy.w_top3))%Z)
    by toy_side.
  split; [exact argsort_kernel_ok|].
  split; [exact (conj H1 (conj H2 (conj H3 (conj H4 H5))))|].
  exact (getActionProb_one_hot argsort_kernel argsort_kernel_ok
           O 1%Z Toy.w_top3 H1 H2 H3 H4 H5).
Defined.

(** The theorem of C6 at the world [Toy.w_ended]. *)
Lemma getActionProb_terminal_all_zero_witness :
  (getGameEnded (game (self Toy.w_ended)) O 1 <> 0%Z) /\
  exists probs,
    getActionProb argsort_kernel O 1%Z Toy.w_ended = (Ok probs, Toy.w_ended) /\
    length probs = getActionSize (game (self Toy.w_ended)) /\
    Forall (fun x => x = 0) probs.
Proof.
  assert (H1 : getGameEnded (game (self Toy.w_ended)) O 1 <> 0%Z) by toy_side.
  split; [exact H1|].
  exact (getActionProb_terminal_all_zero argsort_kernel O 1%Z Toy.w_ended H1).
Defined.

(** The theorem of C9 on three boards: a prior of the wrong length
    ([Toy.w_wrong_shape]), [K = -1] on three actions ([Toy.w_K_minus1]) and
    [K = -5] on two actions ([Toy.w_K_minus5]). *)
Lemma play_validates_nothing_witness :
  kernel_ok argsort_kernel /\
  ((length (prior_of (self Toy.w_wrong_shape) O)
    <> length (mask_of (self Toy.w_wrong_shape) O) /\
    length (prior_of (self Toy.w_wrong_shape) O) <> 1%nat /\
    length (mask_of (self Toy.w_wrong_shape) O) <> 1%nat) /\
   exists w',
     play argsort_kernel O Toy.w_wrong_shape =
     (Raise (ValueError_broadcast 3 4), w') /\
     trace w' = trace Toy.w_wrong_shape ++ [EvPredict O] /\
     sim_state w' = sim_state Toy.w_wrong_shape) /\
  ((length (prior_of (self Toy.w_K_minus1) O)
    = length (mask_of (self Toy.w_K_minus1) O) /\
    Forall (fun x => 0 <= x) (prior_of (self Toy.w_K_minus1) O) /\
    In true (mask_of (self Toy.w_K_minus1) O) /\
    (K (self Toy.w_K_minus1) <= 0)%Z /\
    (- K (self Toy.w_K_minus1)
     < Z.of_nat (length (mask_of (self Toy.w_K_minus1) O)))%Z) /\
   exists w1 scored a w',
     play_candidates argsort_kernel O Toy.w_K_minus1
     = (Ok [0%nat; 1%nat], w1) /\
     map snd scored = [0%nat; 1%nat] /\
     Z.of_nat (length scored) = (3 + -1)%Z /\
     play argsort_kernel O Toy.w_K_minus1 = (Ok a, w') /\
     trace w' = trace w1
                ++ rollout_events (game (self Toy.w_K_minus1)) O scored /\
     qsa (self w') = Some (rev (sort_by fst (map scored_entry scored))) /\
     In a (map snd scored)) /\
  ((length (prior_of (self Toy.w_K_minus5) O)
    = length (mask_of (self Toy.w_K_minus5) O) /\
    Forall (fun x => 0 <= x) (prior_of (self Toy.w_K_minus5) O) /\
    In true (mask_of (self Toy.w_K_minus5) O) /\
    (K (self Toy.w_K_minus5) <= 0)%Z /\
    (Z.of_nat (length (mask_of (self Toy.w_K_minus5) O))
     <= - K (self Toy.w_K_minus5))%Z) /\
   exists w',
     play argsort_kernel O Toy.w_K_minus5 =
     (Raise (ValueError_kth 5 2), w') /\
     trace w' = trace Toy.w_K_minus5 ++ [EvPredict O] /\
     sim_state w' = sim_state Toy.w_K_minus5).
Proof.
  split; [exact argsort_kernel_ok|].
  assert (A1 : length (prior_of (self Toy.w_wrong_shape) O)
               <> length (mask_of (self Toy.w_wrong_shape) O))
    by (simpl; lia).
  assert (A2 : length (prior_of (self Toy.w_wrong_shape) O) <> 1%nat)
    by (simpl; lia).
  assert (A3 : length (mask_of (self Toy.w_wrong_shape) O) <> 1%nat)
    by (simpl; lia).
  assert (B1 : length (prior_of (self Toy.w_K_minus1) O)
               = length (mask_of (self Toy.w_K_minus1) O)) by toy_side.
  assert (B2 : Forall (fun x => 0 <= x) (prior_of (self Toy.w_K_minus1) O))
    by toy_side.
  assert (B3 : In true (mask_of (self Toy.w_K_minus1) O)) by toy_side.
  assert (B4 : (K (self Toy.w_K_minus1) <= 0)%Z) by toy_side.
  assert (B5 : (- K (self Toy.w_K_minus1)
                < Z.of_nat (length (mask_of (self Toy.w_K_minus1) O)))%Z)
    by toy_side.
  assert (C1 : length (prior_of (self Toy.w_K_minus5) O)
               = length (mask_of (self Toy.w_K_minus5) O)) by toy_side.
  assert (C2 : Forall (fun x => 0 <= x) (prior_of (self Toy.w_K_minus5) O))
    by toy_side.
  assert (C3 : In true (mask_of (self Toy.w_K_minus5) O)) by toy_side.
  assert (C4 : (K (self Toy.w_K_minus5) <= 0)%Z) by toy_side.
  assert (C5 : (Z.of_nat (length (mask_of (self Toy.w_K_minus5) O))
                <= - K (self Toy.w_K_minus5))%Z) by toy_side.
  split; [|split].
  - split; [exact (conj A1 (conj A2 A3))|].
    exact (proj1 (proj2 (play_validates_nothing argsort_kernel
                           argsort_kernel_ok O Toy.w_wrong_shape))
             A1 A2 A3).
  - split; [exact (conj B1 (conj B2 (conj B3 (conj B4 B5))))|].
    destruct (proj1 (proj2 (proj2 (play_validates_nothing argsort_kernel
                                     argsort_kernel_ok O Toy.w_K_minus1))
                       B1 B2 B3 B4) B5)
      as (w1 & scored & a & w' & H1 & _ & H3 & _ & _ & H6 & _ & H8 & H9
          & H10 & H11).
    exists w1, scored, a, w'.
    split; [exact H1|]. split; [exact H3|]. split; [exact H6|].
    split; [exact H8|]. split; [exact H9|]. split; [exact H10|exact H11].
  - split; [exact (conj C1 (conj C2 (conj C3 (conj C4 C5))))|].
    exact (proj2 (proj2 (proj2 (play_validates_nothing argsort_kernel
                                  argsort_kernel_ok O Toy.w_K_minus5))
                    C1 C2 C3 C4) C5).
Defined.


(* ================================================================== *)
(** * Where the code departs from the specification *)
(* ================================================================== *)

(** The concrete runs below use the reference kernel.  On their inputs
    numpy's promise leaves the kernel no choice, so every admissible kernel
    gives the same candidates and the same action. *)

Lemma kernel_two (pp : list Q -> nat -> list nat) (x y : Q) :
  kernel_ok pp ->
  (x < y -> pp [x; y] O = [0; 1]%nat) /\ (y < x -> pp [x; y] O = [1; 0]%nat).
Proof.
  intros Hk. destruct (Hk [x; y] O) as [Hperm Hle]; [simpl; lia|].
  simpl in Hperm. apply Permutation_sym in Hperm.
  apply Permutation_length_2_inv in Hperm.
  specialize (Hle O 1%nat (Nat.le_refl _) (Nat.le_0_l _) ltac:(simpl; lia)).
  destruct Hperm as [E|E]; rewrite E in *; simpl in Hle; split; intros H;
    try reflexivity; exfalso; apply (Qlt_irrefl x).
  - now apply Qle_lt_trans with y.
  - now apply Qlt_le_trans with y.
Qed.

Lemma kernel_three_top (pp : list Q -> nat -> list nat) (x : Q) :
  kernel_ok pp -> 0 < x -> skipn 2 (pp [x; 0; 0] 2%nat) = [0%nat].
Proof.
  intros Hk Hx. destruct (Hk [x; 0; 0] 2%nat) as [Hperm Hle]; [simpl; lia|].
  pose proof (Permutation_length Hperm) as Hlen. simpl in Hperm, Hlen.
  destruct (pp [x; 0; 0] 2%nat) as [|i0 [|i1 [|i2 [|]]]]; try discriminate.
  simpl. f_equal.
  assert (Hin : forall i, In i [i0; i1; i2] -> (i < 3)%nat).
  { intros i Hi. apply (Permutation_in _ Hperm) in Hi. simpl in Hi. lia. }
  assert (H0 : In 0%nat [i0; i1; i2]).
  { apply (Permutation_in _ (Permutation_sym Hperm)). now left. }
  assert (Htop : forall i, In i [i0; i1; i2] ->
                           nth i [x; 0; 0] 0 <= nth i2 [x; 0; 0] 0).
  { intros i Hi. apply (In_nth _ _ O) in Hi. destruct Hi as [n [Hn <-]].
    apply (Hle n 2%nat); simpl in *; lia. }
  specialize (Htop O H0). simpl in Htop.
  assert (H2 : (i2 < 3)%nat) by (apply Hin; simpl; tauto).
  destruct i2 as [|[|[|]]]; try lia; try reflexivity; simpl in Htop;
    exfalso; apply (Qlt_irrefl 0); now apply Qlt_le_trans with x.
Qed.

Lemma zero_prior_candidates_any_kernel (pp : list Q -> nat -> list nat) :
  kernel_ok pp ->
  fst (play_candidates pp O Toy.w_zero_prior) = Ok [0%nat].
Proof.
  intros Hk. rewrite (play_candidates_run pp O Toy.w_zero_prior eq_refl).
  cbn [fst].
  rewrite (top_k_actions_run pp Hk) by (first [simpl; lia | vm_compute; lia]).
  set (P := renormalized _ _). vm_compute in P. subst P.
  change (Ok (skipn 2 (pp [1; 0; 0] 2%nat)) = Ok [0%nat]).
  now rewrite (kernel_three_top pp 1 Hk).
Qed.

Lemma tie_action_any_kernel (pp : list Q -> nat -> list nat) :
  kernel_ok pp -> fst (play pp O Toy.w_tie) = Ok 1%nat.
Proof.
  intros Hk. vm_compute.
  match goal with |- context [pp [?x; ?y] O] =>
    rewrite (proj1 (kernel_two pp x y Hk)) by reflexivity end.
  reflexivity.
Qed.

Lemma zero_K_action_any_kernel (pp : list Q -> nat -> list nat) :
  kernel_ok pp -> fst (play pp O Toy.w_K0) = Ok 1%nat.
Proof.
  intros Hk. vm_compute.
  match goal with |- context [pp [?x; ?y] O] =>
    rewrite (proj2 (kernel_two pp x y Hk)) by reflexivity end.
  reflexivity.
Qed.

(** C3 fails as stated.  Two actions are allowed and [K] is 3, so the
    candidates should be both allowed actions; the predictor gives the
    allowed action 1 the prior zero, and action 1 is not a candidate. *)
Lemma candidates_miss_legal_action_counterexample :
  mask_of (self Toy.w_zero_prior) O = [true; true; false] /\
  prior_of (self Toy.w_zero_prior) O = [1; 0; 0] /\
  K (self Toy.w_zero_prior) = 3%Z /\
  (num_legal (mask_of (self Toy.w_zero_prior) O) < 3)%nat /\
  fst (play_candidates argsort_kernel O Toy.w_zero_prior) = Ok [0%nat] /\
  legal (mask_of (self Toy.w_zero_prior) O) 1 /\
  ~ In 1%nat [0%nat].
Proof.
  repeat split; try reflexivity.
  - vm_compute. lia.
  - simpl. intros [H|H]; [discriminate | exact H].
Qed.

(** C5 fails as stated.  The candidates are 0 and 1 in this order and both
    averages are 0; the claim asks for the first candidate, action 0, and
    [play] returns action 1. *)
Lemma tie_returns_last_candidate_counterexample :
  fst (play_candidates argsort_kernel O Toy.w_tie) = Ok [0%nat; 1%nat] /\
  qsa (self (snd (play argsort_kernel O Toy.w_tie)))
  = Some [(0, 1%nat); (0, 0%nat)] /\
  fst (play argsort_kernel O Toy.w_tie) = Ok 1%nat /\
  1%nat <> 0%nat.
Proof.
  repeat split; try reflexivity. discriminate.
Qed.


(** C9 fails as stated.  With [K = 0] nothing is raised, at construction or
    in [play]: every action is scored, and the action returned here is one
    the mask forbids. *)
Lemma zero_K_is_tolerated_counterexample :
  K (self Toy.w_K0) = 0%Z /\
  mask_of (self Toy.w_K0) O = [true; false] /\
  fst (play_candidates argsort_kernel O Toy.w_K0) = Ok [1%nat; 0%nat] /\
  fst (play argsort_kernel O Toy.w_K0) = Ok 1%nat /\
  ~ legal (mask_of (self Toy.w_K0) O) 1.
Proof.
  repeat split; try reflexivity. unfold legal. simpl. discriminate.
Qed.

(* ================================================================== *)
(** * Further properties of the Monte-Carlo player *)
(* ================================================================== *)

Module ArgmaxFacts.
Import NpMore.

(** The scan over [pre ++ a], when [best] at [best_i] is the first largest
    entry of [pre]. *)
Lemma argmax_from_spec (a : list Q) :
  forall (pre : list Q) (best_i : nat) (best : Q),
  (best_i < length pre)%nat ->
  nth best_i pre 0 = best ->
  (forall j, (j < length pre)%nat -> nth j pre 0 <= best) ->
  (forall j, (j < best_i)%nat -> nth j pre 0 < best) ->
  let r := argmax_from best_i best (length pre) a in
  (r < length (pre ++ a))%nat /\
  (forall j, (j < length (pre ++ a))%nat ->
             nth j (pre ++ a) 0 <= nth r (pre ++ a) 0) /\
  (forall j, (j < r)%nat -> nth j (pre ++ a) 0 < nth r (pre ++ a) 0).
Proof.
  induction a as [|x a IH]; intros pre best_i best Hi Hb Hle Hlt; simpl.
  - rewrite app_nil_r. rewrite Hb. repeat split; assumption.
  - assert (Hnth : forall j, (j < length pre)%nat ->
                             nth j (pre ++ [x]) 0 = nth j pre 0).
    { intros j Hj. now rewrite app_nth1. }
    assert (Hx : nth (length pre) (pre ++ [x]) 0 = x).
    { rewrite app_nth2 by lia. now rewrite Nat.sub_diag. }
    assert (Hlen : length (pre ++ [x]) = S (length pre)).
    { rewrite length_app. simpl. lia. }
    replace (pre ++ x :: a) with ((pre ++ [x]) ++ a)
      by (now rewrite <- app_assoc).
    rewrite <- Hlen.
    destruct (Qlt_bool best x) eqn:E.
    + apply Qlt_bool_true in E. apply IH.
      * lia.
      * exact Hx.
      * intros j Hj. rewrite Hlen in Hj.
        destruct (Nat.eq_dec j (length pre)) as [->|Hne].
        -- rewrite Hx. apply Qle_refl.
        -- rewrite Hnth by lia. apply Qle_trans with best;
             [apply Hle; lia | now apply Qlt_le_weak].
      * intros j Hj. rewrite Hnth by lia.
        apply Qle_lt_trans with best; [now apply Hle | exact E].
    + apply Qlt_bool_false in E. apply IH.
      * lia.
      * now rewrite Hnth.
      * intros j Hj. rewrite Hlen in Hj.
        destruct (Nat.eq_dec j (length pre)) as [->|Hne].
        -- now rewrite Hx.
        -- rewrite Hnth by lia. apply Hle. lia.
      * intros j Hj. rewrite Hnth by lia. now apply Hlt.
Qed.

(** [np.argmax] returns the first index of a largest entry. *)
Lemma argmax_spec (a : list Q) (r : nat) :
  argmax a = Return r ->
  (r < length a)%nat /\
  (forall j, (j < length a)%nat -> nth j a 0 <= nth r a 0) /\
  (forall j, (j < r)%nat -> nth j a 0 < nth r a 0).
Proof.
  destruct a as [|x a]; simpl; [discriminate|].
  intros E. injection E as <-.
  apply (argmax_from_spec a [x] O x); simpl; try lia; try reflexivity.
  - intros [|j] Hj; [apply Qle_refl | lia].
Qed.

Lemma argmax_nonempty (a : list Q) :
  a <> [] -> exists r, argmax a = Return r.
Proof.
  destruct a as [|x a]; [congruence|]. intros _. simpl. eauto.
Qed.

Lemma argmax_one_hot (n i : nat) (v : list Q) :
  one_hot n i v -> argmax v = Return i.
Proof.
  intros (Hlen & Hi & H1 & H0).
  destruct (argmax_nonempty v) as [r Hr].
  { intros E. subst v. simpl in Hlen. lia. }
  rewrite Hr. f_equal.
  destruct (argmax_spec v r Hr) as (Hr1 & Hmax & _).
  destruct (Nat.eq_dec r i) as [|Hne]; [assumption|].
  specialize (Hmax i ltac:(lia)). rewrite H1, (H0 r Hne) in Hmax.
  exfalso. revert Hmax. unfold Qle. simpl. lia.
Qed.

Lemma argmax_zeros (n : nat) :
  (1 <= n)%nat -> argmax (Np.zeros n) = Return O.
Proof.
  intros Hn. destruct (argmax_nonempty (Np.zeros n)) as [r Hr].
  { destruct n; [lia | discriminate]. }
  rewrite Hr. f_equal.
  destruct (argmax_spec _ r Hr) as (_ & _ & Hfirst).
  destruct r as [|r]; [reflexivity|].
  specialize (Hfirst O ltac:(lia)). rewrite !NpFacts.nth_zeros in Hfirst.
  exfalso. now apply (Qlt_irrefl 0).
Qed.

End ArgmaxFacts.

Section MorePlayer.
Context {Board SimState : Type}.
Variable partition_perm : list Q -> nat -> list nat.

Implicit Types (w : World Board SimState) (b : Board).

(** X2.  On an ended board the arena's move function returns action 0
    when the action space is not empty, whatever the mask says, and fails
    with numpy's empty-argmax error when it is empty; in both cases the
    world is left as it was. *)
Theorem n1p_ended_board_answers_zero b w :
  getGameEnded (game (self w)) b 1 <> 0%Z ->
  ((1 <= getActionSize (game (self w)))%nat ->
   n1p partition_perm b w = (Return O, w)) /\
  (getActionSize (game (self w)) = O ->
   n1p partition_perm b w = (Throw ValueError_argmax_empty, w)).
Proof.
  intros H. unfold n1p. rewrite (getActionProb_ended partition_perm b 1 w H).
  split; intros Hn.
  - now rewrite ArgmaxFacts.argmax_zeros.
  - rewrite Hn. reflexivity.
Qed.

Lemma count_simulate_app (e1 e2 : list (Event Board)) :
  count_simulate (e1 ++ e2) = (count_simulate e1 + count_simulate e2)%nat.
Proof. unfold count_simulate. now rewrite filter_app, length_app. Qed.

Lemma count_predict_app (e1 e2 : list (Event Board)) :
  count_predict (e1 ++ e2) = (count_predict e1 + count_predict e2)%nat.
Proof. unfold count_predict. now rewrite filter_app, length_app. Qed.

Lemma count_prior_events b (fallback : bool) :
  count_simulate (prior_events b fallback) = O /\
  count_predict (prior_events b fallback) = 1%nat.
Proof. destruct fallback; split; reflexivity. Qed.

Lemma count_rollout_events (g : Game Board) b
  (scored : list (list Q * nat)) (n : nat) :
  Forall (fun x => length (fst x) = n) scored ->
  count_simulate (rollout_events g b scored) = (n * length scored)%nat /\
  count_predict (rollout_events g b scored) = O.
Proof.
  induction 1 as [|x scored Hx _ [IH1 IH2]]; simpl.
  - split; [unfold count_simulate; simpl; lia | reflexivity].
  - unfold rollout_events in *. simpl.
    rewrite count_simulate_app, count_predict_app, IH1, IH2.
    assert (Hs : forall vs, count_simulate
                   (map (EvSimulate (next_board g b (snd x))) vs) = length vs
                 /\ count_predict
                   (map (EvSimulate (next_board g b (snd x))) vs) = O).
    { induction vs as [|v vs [I1 I2]]; [split; reflexivity|].
      unfold count_simulate, count_predict in *. simpl. split; lia. }
    destruct (Hs (fst x)) as [-> ->]. split; lia.
Qed.

(** X5.  When [play] raises, the error is numpy's broadcasting or
    out-of-bounds [ValueError] or the [IndexError] of an empty candidate
    list; the simulator has not been called and keeps its state, and
    [self.qsa] is left empty. *)
Theorem play_failure_runs_no_simulation b w (e : Exn)
  (w' : World Board SimState) :
  play partition_perm b w = (Raise e, w') ->
  ((exists n m, e = ValueError_broadcast n m) \/
   (exists k n, e = ValueError_kth k n) \/
   e = IndexError) /\
  sim_state w' = sim_state w /\
  qsa (self w') = Some [] /\
  exists evs, trace w' = trace w ++ evs /\ count_simulate evs = O.
Proof.
  intros Hp. destruct (play_candidates_any partition_perm b w) as [r [fb [Hc Herr]]].
  unfold play in Hp. unfold bind at 1 in Hp. rewrite Hc in Hp.
  destruct r as [cands|e0].
  - set (w1 := update_world w (Some []) (sim_state w) (prior_events b fb))
      in *.
    destruct (for_each_score_run b cands w1 [] eq_refl)
      as [scored [st' [Hm [Hall E]]]].
    unfold bind in Hp. rewrite E in Hp.
    rewrite (best_of_qsa_run _ (map scored_entry scored)) in Hp
      by reflexivity.
    destruct scored as [|x scored].
    + simpl in Hm. subst cands. simpl in E. unfold ret in E.
      injection E as Est. simpl in Hp. injection Hp as <- <-.
      split; [right; right; reflexivity|].
      unfold update_world. simpl. split.
      * simpl in *. congruence.
      * split; [reflexivity|]. exists (prior_events b fb).
        rewrite !app_nil_r. split; [reflexivity|].
        apply count_prior_events.
    + exfalso.
      destruct (select_last_max (x :: scored)) as
        [outs [a [rest [s1 [s2 [Hr _]]]]]]; [discriminate|].
      rewrite Hr in Hp. discriminate.
  - injection Hp as <- <-.
    split.
    + destruct (Herr e0 eq_refl) as [H|H]; [left | right; left]; exact H.
    + split; [reflexivity|]. split; [reflexivity|].
      exists (prior_events b fb). split; [reflexivity|].
      apply count_prior_events.
Qed.

Hypothesis kernel : kernel_ok partition_perm.

(** [play] under its input contract: the action is a candidate, allowed by
    the mask, and the world after the call is known. *)
Lemma play_contract_run b w :
  length (prior_of (self w) b) = length (mask_of (self w) b) ->
  Forall (fun x => 0 <= x) (prior_of (self w) b) ->
  (1 <= K (self w))%Z ->
  In true (mask_of (self w) b) ->
  exists cands scored st' a v rest,
    map snd scored = cands /\
    length cands
    = Nat.min (Z.to_nat (K (self w)))
        (Np.count_nonzero
           (renormalized (prior_of (self w) b) (mask_of (self w) b))) /\
    Forall (fun x =>
              length (fst x) = Z.to_nat (numMCsims (args (self w)))) scored /\
    legal (mask_of (self w) b) a /\
    (a < length (mask_of (self w) b))%nat /\
    rev (sort_by fst (map scored_entry scored)) = (v, a) :: rest /\
    play partition_perm b w =
    (Ok a,
     update_world w (Some ((v, a) :: rest)) st'
       (prior_events b (fallback_taken (prior_of (self w) b)
                                       (mask_of (self w) b))
        ++ rollout_events (game (self w)) b scored)).
Proof.
  intros Hlen Hpos HK Hin.
  assert (Hn : (1 <= length (mask_of (self w) b))%nat).
  { destruct (mask_of (self w) b); [contradiction | simpl; lia]. }
  destruct (play_total partition_perm kernel b w Hlen HK Hn)
    as (cands & scored & st' & outs & a & rest & s1 & s2 &
        Htop & Hnd & Hrange & Hm & Hall & Hs & H1 & H2 & Hr & Hplay).
  destruct (candidates_spec partition_perm kernel _ _ _ Hlen Hpos HK Hin)
    as (cands' & Htop' & Hlc & _ & Hlegal & _).
  rewrite Htop in Htop'. injection Htop' as <-.
  assert (Ha : In a cands).
  { rewrite <- Hm, Hs, map_app. simpl. apply in_or_app. right. now left. }
  exists cands, scored, st', a, (Np.mean outs), rest.
  split; [exact Hm|]. split; [exact Hlc|].
  split; [eapply Forall_impl; [|exact Hall]; now intros x [Hx _]|].
  split; [apply (Hlegal a Ha)|]. split; [now apply Hrange|].
  split; [exact Hr|]. exact Hplay.
Qed.

(** X1.  On a board that has not ended, under the input contract of
    [play] (prior of non-negative numbers as long as the mask, mask as long
    as the action space, an allowed action, [K >= 1]), the arena's move
    function returns the very action [play] selects, and the mask allows
    it. *)
Theorem n1p_returns_play_action b w :
  getGameEnded (game (self w)) b 1 = 0%Z ->
  length (prior_of (self w) b) = length (mask_of (self w) b) ->
  length (mask_of (self w) b) = getActionSize (game (self w)) ->
  Forall (fun x => 0 <= x) (prior_of (self w) b) ->
  (1 <= K (self w))%Z ->
  In true (mask_of (self w) b) ->
  exists a w',
    play partition_perm b w = (Ok a, w') /\
    n1p partition_perm b w = (Return a, w') /\
    legal (mask_of (self w) b) a.
Proof.
  intros Hg Hlen Hsize Hpos HK Hin.
  destruct (play_contract_run b w Hlen Hpos HK Hin)
    as (cands & scored & st' & a & v & rest &
        _ & _ & _ & Hlegal & Ha & _ & Hplay).
  rewrite Hsize in Ha.
  destruct (getActionProb_of_play partition_perm b 1 w a _ Hg Hplay Ha)
    as [probs [E Hone]].
  eexists a, _. split; [exact Hplay|]. split; [|exact Hlegal].
  unfold n1p. rewrite E. now rewrite (ArgmaxFacts.argmax_one_hot _ _ _ Hone).
Qed.

(** X3.  Under the input contract, one call of [play] asks the predictor
    exactly once, before anything else, and asks the simulator
    [numMCsims * min(K, nz)] times, [nz] counting the non-zero entries of
    the renormalised prior: never more than [numMCsims * K] and never more
    than [numMCsims] times the number of allowed actions. *)
Theorem play_rollout_budget b w :
  length (prior_of (self w) b) = length (mask_of (self w) b) ->
  Forall (fun x => 0 <= x) (prior_of (self w) b) ->
  (1 <= K (self w))%Z ->
  In true (mask_of (self w) b) ->
  exists a w' evs,
    play partition_perm b w = (Ok a, w') /\
    trace w' = trace w ++ EvPredict b :: evs /\
    count_predict evs = O /\
    count_simulate evs
    = (Z.to_nat (numMCsims (args (self w)))
       * Nat.min (Z.to_nat (K (self w)))
           (Np.count_nonzero
              (renormalized (prior_of (self w) b) (mask_of (self w) b))))%nat /\
    (count_simulate evs
     <= Z.to_nat (numMCsims (args (self w))) * Z.to_nat (K (self w)))%nat /\
    (count_simulate evs
     <= Z.to_nat (numMCsims (args (self w)))
        * num_legal (mask_of (self w) b))%nat.
Proof.
  intros Hlen Hpos HK Hin.
  destruct (play_contract_run b w Hlen Hpos HK Hin)
    as (cands & scored & st' & a & v & rest &
        Hm & Hlc & Hall & _ & _ & _ & Hplay).
  destruct (count_rollout_events (game (self w)) b scored _ Hall) as [Hcs Hcp].
  assert (Hls : length scored = length cands)
    by (rewrite <- Hm; now rewrite length_map).
  pose proof (count_nonzero_le_legal _ _ Hlen) as Hnzl.
  set (fb := fallback_taken (prior_of (self w) b) (mask_of (self w) b)) in *.
  eexists a, _, ((if fb then [EvLogError masked_msg] else [])
                  ++ rollout_events (game (self w)) b scored).
  split; [exact Hplay|].
  split; [reflexivity|].
  assert (Hlog : count_simulate
                   (if fb then [EvLogError (Board := Board) masked_msg]
                    else []) = O
                 /\ count_predict
                   (if fb then [EvLogError (Board := Board) masked_msg]
                    else []) = O)
    by (destruct fb; split; reflexivity).
  destruct Hlog as [Hl1 Hl2].
  rewrite count_simulate_app, count_predict_app, Hl1, Hl2, Hcs, Hcp, Hls, Hlc.
  split; [reflexivity|]. split; [reflexivity|].
  split; apply Nat.mul_le_mono_l; lia.
Qed.

End MorePlayer.
(* ================================================================== *)
(** * Properties of [Net] *)
(* ================================================================== *)

Module MlpFacts.
Import Torch Mlp.

(** ** Module names *)

Lemma decimal_inj (i j : nat) : decimal i = decimal j -> i = j.
Proof.
  unfold decimal. intros E.
  apply (f_equal DecimalString.NilEmpty.uint_of_string) in E.
  rewrite !DecimalString.NilEmpty.usu in E. injection E as E.
  apply (f_equal Nat.of_uint) in E.
  now rewrite !DecimalNat.Unsigned.of_to in E.
Qed.

Lemma in_names2 (s : string) (a k : nat) :
  In s (flat_map names2 (seq a k)) ->
  exists j, (a <= j < a + k)%nat /\
            (s = String.append "Linear_" (decimal j) \/
             s = String.append "Activation_" (decimal j)).
Proof.
  intros H. apply in_flat_map in H. destruct H as [j [Hj Hs]].
  apply in_seq in Hj. exists j. split; [lia|].
  simpl in Hs. intuition.
Qed.

Lemma linear_name_fresh (i : nat) :
  ~ In (String.append "Linear_" (decimal i)) (flat_map names2 (seq 0 i)).
Proof.
  intros H. apply in_names2 in H. destruct H as [j [Hj [E|E]]].
  - simpl in E. injection E as E. apply decimal_inj in E. lia.
  - simpl in E. discriminate.
Qed.

Lemma activation_name_fresh (i : nat) :
  ~ In (String.append "Activation_" (decimal i))
       (flat_map names2 (seq 0 i)
        ++ [String.append "Linear_" (decimal i)]).
Proof.
  intros H. apply in_app_or in H. destruct H as [H|[H|[]]].
  - apply in_names2 in H. destruct H as [j [Hj [E|E]]].
    + simpl in E. discriminate.
    + simpl in E. injection E as E. apply decimal_inj in E. lia.
  - simpl in H. discriminate.
Qed.

Lemma output_name_fresh (k : nat) :
  ~ In "Output_Linear"%string (flat_map names2 (seq 0 k)).
Proof.
  intros H. apply in_names2 in H.
  destruct H as [j [Hj [E|E]]]; simpl in E; discriminate.
Qed.

Lemma flat_map_names2_S (k : nat) :
  flat_map names2 (seq 0 (S k))
  = flat_map names2 (seq 0 k) ++ names2 k.
Proof.
  rewrite seq_S, flat_map_app. simpl. reflexivity.
Qed.

Lemma NoDup_names2 (k : nat) : NoDup (flat_map names2 (seq 0 k)).
Proof.
  induction k as [|k IH]; [constructor|].
  rewrite flat_map_names2_S. unfold names2 at 2.
  change [String.append "Linear_" (decimal k);
          String.append "Activation_" (decimal k)]
    with ([String.append "Linear_" (decimal k)]
          ++ [String.append "Activation_" (decimal k)]).
  rewrite app_assoc. apply NoDup_app.
  - apply NoDup_app; [exact IH | repeat constructor; intros [] |].
    intros s Hs [<-|[]]. now apply (linear_name_fresh k).
  - repeat constructor. intros [].
  - intros s Hs [<-|[]]. now apply (activation_name_fresh k).
Qed.

Lemma NoDup_module_names (k : nat) : NoDup (module_names k).
Proof.
  unfold module_names. apply NoDup_app.
  - apply NoDup_names2.
  - repeat constructor. intros [].
  - intros s Hs [<-|[]]. now apply (output_name_fresh k).
Qed.

Lemma length_module_names (k : nat) :
  length (module_names k) = (2 * k + 1)%nat.
Proof.
  unfold module_names. rewrite length_app. simpl.
  induction k as [|k IH]; [reflexivity|].
  rewrite flat_map_names2_S, length_app. simpl. lia.
Qed.

(** An entry stored under a name that is not there yet goes to the end of
    the list. *)
Lemma set_module_fresh (mods : list (string * Layer)) (name : string)
  (m : Layer) :
  ~ In name (map fst mods) -> set_module mods name m = mods ++ [(name, m)].
Proof.
  induction mods as [|[k v] mods IH]; simpl; intros H; [reflexivity|].
  destruct (String.eqb_spec k name) as [->|Hne]; [tauto|].
  rewrite IH by tauto. reflexivity.
Qed.

Lemma dtype_eqb_refl (d : DType) : dtype_eqb d d = true.
Proof. unfold dtype_eqb. destruct (DType_eq_dec d d); congruence. Qed.

Lemma dtype_eqb_neq (a b : DType) : a <> b -> dtype_eqb a b = false.
Proof. unfold dtype_eqb. destruct (DType_eq_dec a b); congruence. Qed.

(** ** What [__init__] builds *)

Section Built.
Variable RngState : Type.
Variable draw : RngState -> Q * RngState.
Variable default_dtype : DType.
Variable eval_nn : string -> Outcome PyObject.

Lemma length_draws (n : nat) (st : RngState) :
  length (fst (draws RngState draw n st)) = n.
Proof.
  revert st; induction n as [|n IH]; intros st; simpl; [reflexivity|].
  destruct (draw st) as [x st1]. specialize (IH st1).
  destruct (draws RngState draw n st1). simpl in *. now rewrite IH.
Qed.

Lemma draw_rows_shape (rows cols : nat) (st : RngState) :
  length (fst (draw_rows RngState draw rows cols st)) = rows /\
  Forall (fun r => length r = cols)
         (fst (draw_rows RngState draw rows cols st)).
Proof.
  revert st; induction rows as [|rows IH]; intros st; simpl;
    [split; [reflexivity | constructor]|].
  pose proof (length_draws cols st) as Hd.
  destruct (draws RngState draw cols st) as [r st1]. specialize (IH st1).
  destruct (draw_rows RngState draw rows cols st1). simpl in *.
  destruct IH as [IH1 IH2]. split; [now rewrite IH1 | now constructor].
Qed.

Lemma nn_Linear_ok (in_num out_num : nat) (st : RngState) :
  let l := fst (nn_Linear RngState draw default_dtype in_num out_num st) in
  in_features l = in_num /\ out_features l = out_num /\
  linear_ok l /\ param_dtype l = default_dtype.
Proof.
  unfold nn_Linear.
  pose proof (draw_rows_shape out_num in_num st) as [H1 H2].
  destruct (draw_rows RngState draw out_num in_num st) as [w st1].
  pose proof (length_draws out_num st1) as H3.
  destruct (draws RngState draw out_num st1) as [b st2]. simpl in *.
  split; [reflexivity|]. split; [reflexivity|].
  split; [|reflexivity]. split; [exact H1|]. split; [exact H2 | exact H3].
Qed.

Lemma chain_app (c : nat) (m1 m2 : list (string * Layer)) :
  chain c (m1 ++ m2)
  = match chain c m1 with
    | Some c1 => chain c1 m2
    | None => None
    end.
Proof.
  revert c; induction m1 as [|[k [l|f|]] m1 IH]; intros c; simpl;
    [reflexivity | | apply IH | reflexivity].
  destruct (Nat.eqb (in_features l) c); [apply IH | reflexivity].
Qed.

Lemma linear_dims_app (m1 m2 : list (string * Layer)) :
  linear_dims (m1 ++ m2) = linear_dims m1 ++ linear_dims m2.
Proof.
  induction m1 as [|[k [l|f|]] m1 IH]; simpl;
    [reflexivity | | exact IH | exact IH].
  now rewrite IH.
Qed.

Lemma last_cons_default {A : Type} (a d : A) (l : list A) :
  last (a :: l) d = last l a.
Proof.
  revert a d; induction l as [|x l IH]; intros a d; [reflexivity|].
  change (last (a :: x :: l) d) with (last (x :: l) d).
  now rewrite !IH.
Qed.

Lemma combine_chain (c : nat) (hidden : list nat) (o : nat) :
  combine (c :: hidden) hidden ++ [(last hidden c, o)]
  = combine (c :: hidden) (hidden ++ [o]).
Proof.
  revert c; induction hidden as [|h t IH]; intros c; [reflexivity|].
  rewrite last_cons_default.
  change (combine (c :: h :: t) (h :: t))
    with ((c, h) :: combine (h :: t) t).
  change (combine (c :: h :: t) ((h :: t) ++ [o]))
    with ((c, h) :: combine (h :: t) (t ++ [o])).
  rewrite <- IH. reflexivity.
Qed.

(** The loop over the hidden layers, started at index [i] with the
    entries of the indices below [i] registered, when the activation text
    evaluates to a module or to [None]. *)
Lemma hidden_layers_spec (actv : string) (m : Layer) :
  eval_nn (String.append "nn." actv) = Return (ModuleOrNone m) ->
  forall (hidden : list nat) (i in_num : nat) (mods : list (string * Layer))
         (st : RngState),
  map fst mods = flat_map names2 (seq 0 i) ->
  exists new st',
    hidden_layers RngState draw default_dtype eval_nn actv i in_num hidden
                  mods st
    = Return (last hidden in_num, mods ++ new, st') /\
    map fst (mods ++ new) = flat_map names2 (seq 0 (i + length hidden)) /\
    Forall (linear_or default_dtype m) new /\
    (hidden <> [] -> first_linear default_dtype new) /\
    (forall f, m = ActivationLayer f ->
       linear_dims new = combine (in_num :: hidden) hidden /\
       chain in_num new = Some (last hidden in_num) /\
       Forall (layer_ok default_dtype) new).
Proof.
  intros Hev. induction hidden as [|out_num hidden IH];
    intros i in_num mods st Hnames.
  - exists [], st. simpl. rewrite app_nil_r, Nat.add_0_r.
    split; [reflexivity|]. split; [exact Hnames|].
    split; [constructor|]. split; [congruence|].
    intros f _. repeat split. constructor.
  - cbn [hidden_layers].
    pose proof (nn_Linear_ok in_num out_num st) as (Hin & Hout & Hok & Hdt).
    destruct (nn_Linear RngState draw default_dtype in_num out_num st)
      as [layer st1].
    simpl in Hin, Hout, Hok, Hdt. cbn [add_module]. rewrite Hev.
    cbn [add_module].
    rewrite (set_module_fresh mods)
      by (rewrite Hnames; apply linear_name_fresh).
    rewrite set_module_fresh.
    2:{ rewrite map_app, Hnames. simpl. apply activation_name_fresh. }
    rewrite <- app_assoc. simpl app.
    match goal with |- context [hidden_layers _ _ _ _ _ _ _ _ ?ms _] =>
      destruct (IH (S i) out_num ms st1)
        as (new & st' & E & Hn & Hlo & _ & Hact)
    end.
    { rewrite map_app, Hnames, flat_map_names2_S. reflexivity. }
    eexists (_ :: _ :: new), st'.
    split; [|split; [|split; [|split]]].
    + rewrite E, last_cons_default, <- app_assoc. reflexivity.
    + rewrite <- app_assoc in Hn. cbn [app] in Hn. cbn [length].
      rewrite Nat.add_succ_r. exact Hn.
    + constructor;
        [right; exists layer; split; [reflexivity|]; split;
         [exact Hok | exact Hdt]|].
      constructor; [now left | exact Hlo].
    + intros _. exact Hdt.
    + intros f Hf. destruct (Hact f Hf) as (Hd & Hc & Hl). subst m.
      split; [|split].
      * cbn [linear_dims combine]. rewrite Hin, Hout, Hd. reflexivity.
      * cbn [chain]. rewrite Hin, Nat.eqb_refl, Hout, Hc.
        now rewrite last_cons_default.
      * constructor; [split; [exact Hok | exact Hdt]|].
        constructor; [exact I | exact Hl].
Qed.

(** [Net.__init__] when the activation text evaluates to a module or to
    [None]. *)
Lemma init_spec (actv : string) (m : Layer) (input_feature_num : nat)
  (hidden : list nat) (output_feature_num : nat) (st : RngState) :
  eval_nn (String.append "nn." actv) = Return (ModuleOrNone m) ->
  exists net st',
    init RngState draw default_dtype eval_nn actv input_feature_num hidden
         output_feature_num st = Return (net, st') /\
    Mlp.input_feature_num net = input_feature_num /\
    map fst (mlp net) = module_names (length hidden) /\
    Forall (linear_or default_dtype m) (mlp net) /\
    first_linear default_dtype (mlp net) /\
    (forall f, m = ActivationLayer f ->
       linear_dims (mlp net)
       = combine (input_feature_num :: hidden)
                 (hidden ++ [output_feature_num]) /\
       chain input_feature_num (mlp net) = Some output_feature_num /\
       Forall (layer_ok default_dtype) (mlp net)).
Proof.
  intros Hev. unfold init.
  destruct (hidden_layers_spec actv m Hev hidden O input_feature_num [] st
              eq_refl) as (new & st1 & E & Hn & Hlo & Hfirst & Hact).
  rewrite E. simpl app in *. simpl plus in Hn.
  pose proof (nn_Linear_ok (last hidden input_feature_num)
                output_feature_num st1) as (Hin & Hout & Hok & Hdt).
  destruct (nn_Linear RngState draw default_dtype
              (last hidden input_feature_num) output_feature_num st1)
    as [out_layer st2].
  simpl in Hin, Hout, Hok, Hdt. cbn [add_module].
  rewrite set_module_fresh by (rewrite Hn; apply output_name_fresh).
  eexists _, st2. split; [reflexivity|]. simpl.
  split; [reflexivity|]. split; [|split; [|split]].
  - rewrite map_app, Hn. reflexivity.
  - apply Forall_app. split; [exact Hlo|].
    constructor; [|constructor].
    right. exists out_layer. split; [reflexivity|].
    split; [exact Hok | exact Hdt].
  - destruct hidden as [|h hidden].
    + simpl in E. injection E as <- _. simpl. exact Hdt.
    + assert (Hf : first_linear default_dtype new)
        by (apply Hfirst; discriminate).
      destruct new as [|[k [l|f|]] new]; simpl in Hf |- *;
        try contradiction. exact Hf.
  - intros f Hf. destruct (Hact f Hf) as (Hd & Hc & Hl).
    split; [|split].
    + rewrite linear_dims_app, Hd. cbn [linear_dims]. rewrite Hin, Hout.
      apply combine_chain.
    + rewrite chain_app, Hc. simpl. now rewrite Hin, Nat.eqb_refl, Hout.
    + apply Forall_app. split; [exact Hl|].
      apply Forall_cons; [split; [exact Hok | exact Hdt] | apply Forall_nil].
Qed.

End Built.

(** ** The forward pass *)

Lemma chunks_shape (k n : nat) (flat : list Q) :
  length flat = (k * n)%nat ->
  length (chunks k n flat) = k /\
  Forall (fun r => length r = n) (chunks k n flat).
Proof.
  revert flat; induction k as [|k IH]; intros flat Hl; simpl;
    [split; [reflexivity | constructor]|].
  destruct (IH (skipn n flat)) as [H1 H2].
  { rewrite length_skipn, Hl. simpl. lia. }
  split; [now rewrite H1|]. constructor; [|exact H2].
  rewrite length_firstn, Hl. simpl. lia.
Qed.

Lemma view_rows_ok (n batch : nat) (x : Tensor) :
  (1 <= n)%nat -> numel x = (batch * n)%nat -> view_allowed x n = true ->
  exists v, view_rows n x = Return (dtype x, v) /\
            wf v /\ t_rows v = batch /\ t_cols v = n.
Proof.
  intros Hn Hl Hv. unfold view_rows.
  assert (E0 : Nat.eqb n 0 = false) by (apply Nat.eqb_neq; lia).
  rewrite E0, Hv, Hl, Nat.Div0.mod_mul, Nat.eqb_refl, Nat.div_mul by lia.
  eexists. split; [reflexivity|].
  destruct (chunks_shape batch n (elements x) Hl) as [H1 H2].
  repeat split; simpl; assumption.
Qed.

Lemma add_rows_same (rows : list (list Q)) (b : list Q) :
  Forall (fun r => length r = length b) rows ->
  exists d, add_rows rows b = Ok d /\ length d = length rows /\
            Forall (fun r => length r = length b) d.
Proof.
  induction 1 as [|r rows Hr _ (d & E & Hl & Hd)]; simpl.
  - exists []. repeat split; constructor.
  - rewrite (NpFacts.add_same_length r b Hr), E.
    eexists. split; [reflexivity|]. split; [simpl; now rewrite Hl|].
    constructor; [|exact Hd].
    rewrite NpFacts.length_zip_with; assumption.
Qed.

Lemma linear_forward_shape (l : Linear) (x : Tensor2) :
  linear_ok l -> wf x -> t_cols x = in_features l ->
  exists y, linear_forward l (param_dtype l, x) = Return (param_dtype l, y) /\
            wf y /\ t_rows y = t_rows x /\ t_cols y = out_features l.
Proof.
  intros (Hw1 & Hw2 & Hb) [Hx1 Hx2] Hc. unfold linear_forward, matmul.
  cbn [fst snd]. rewrite dtype_eqb_refl.
  simpl. rewrite Hc, Nat.eqb_refl. simpl.
  match goal with |- context [add_rows ?rows _] =>
    destruct (add_rows_same rows (bias l)) as (d & E & Hl & Hd) end.
  { rewrite Forall_forall. intros r Hr. apply in_map_iff in Hr.
    destruct Hr as [r0 [<- _]]. now rewrite length_map, length_seq, Hb. }
  rewrite E. eexists. split; [reflexivity|].
  rewrite length_map in Hl. rewrite Hb in Hd.
  assert (Hcols : (if Nat.eqb (out_features l) 1 then length (bias l)
                   else out_features l) = out_features l).
  { destruct (Nat.eqb_spec (out_features l) 1) as [E1|]; [|reflexivity].
    now rewrite Hb. }
  unfold wf. simpl. rewrite Hcols. repeat split; try congruence.
Qed.

Lemma layer_forward_shape (d : DType) (nm : string * Layer) (x : Tensor2)
  (c : nat) :
  layer_ok d nm -> wf x -> t_cols x = c ->
  forall c', chain c [nm] = Some c' ->
  exists y, layer_forward (snd nm) (d, x) = Return (d, y) /\ wf y /\
            t_rows y = t_rows x /\ t_cols y = c'.
Proof.
  destruct nm as [k [l|f|]]; unfold layer_ok; simpl;
    intros Hok Hwf Hc c' Hch; [| |contradiction].
  - destruct (Nat.eqb_spec (in_features l) c) as [E|]; [|discriminate].
    injection Hch as <-. destruct Hok as [Hok <-].
    apply linear_forward_shape; try assumption. congruence.
  - injection Hch as <-. eexists. split; [reflexivity|].
    destruct Hwf as [H1 H2]. unfold wf. simpl. repeat split.
    + now rewrite length_map.
    + rewrite Forall_map. eapply Forall_impl; [|exact H2].
      intros r Hr. simpl in *. now rewrite length_map.
    + exact Hc.
Qed.

(** A module list whose sizes chain, on a tensor of the element type of
    its parameters, never meets an error. *)
Lemma sequential_forward_shape (d : DType) (mods : list (string * Layer)) :
  Forall (layer_ok d) mods ->
  forall (x : Tensor2) (c c' : nat),
  wf x -> t_cols x = c -> chain c mods = Some c' ->
  exists y, sequential_forward mods (d, x) = Return (d, y) /\ wf y /\
            t_rows y = t_rows x /\ t_cols y = c'.
Proof.
  induction 1 as [|nm mods Hnm _ IH]; intros x c c' Hwf Hc Hch.
  - simpl in Hch. injection Hch as <-. exists x.
    split; [reflexivity|]. split; [exact Hwf|]. split; [reflexivity|exact Hc].
  - change (nm :: mods) with ([nm] ++ mods) in Hch.
    rewrite chain_app in Hch.
    destruct (chain c [nm]) as [c1|] eqn:E1; [|discriminate].
    destruct (layer_forward_shape d nm x c Hnm Hwf Hc c1 E1)
      as (y1 & Ey & Hwf1 & Hr1 & Hc1).
    destruct (IH y1 c1 c' Hwf1 Hc1 Hch) as (y & Ey' & Hwfy & Hry & Hcy).
    exists y. destruct nm as [k m]. cbn [sequential_forward snd] in *.
    rewrite Ey.
    split; [exact Ey'|]. split; [exact Hwfy|]. split; [congruence|exact Hcy].
Qed.

(** A module list that starts with an [nn.Linear] refuses a tensor of
    another element type than its parameters'. *)
Lemma sequential_forward_dtype (d : DType) (mods : list (string * Layer))
  (x : Typed2) :
  first_linear d mods -> fst x <> d ->
  sequential_forward mods x = Throw (RuntimeError_dtype (fst x) d).
Proof.
  destruct mods as [|[k [l|f|]] mods]; simpl; try contradiction.
  intros <- Hne. unfold linear_forward.
  now rewrite dtype_eqb_neq.
Qed.

Section Network.
Variable RngState : Type.
Variable draw : RngState -> Q * RngState.
Variable default_dtype : DType.
Variable eval_nn : string -> Outcome PyObject.

(** X6.  What [Net.__init__] registers, for [k] hidden layers.  When the
    activation text evaluates to a module or to [None], [__init__]
    succeeds, saves [input_feature_num] and registers [2 * k + 1] entries
    named [Linear_0], [Activation_0], ..., [Linear_(k-1)],
    [Activation_(k-1)], [Output_Linear] in this order; the names are
    pairwise different, so no registration replaces an earlier one, and
    every entry is a fresh [nn.Linear] or the value of the text.  When the
    text evaluates to any other object (the class [ReLU], say, for the text
    without parentheses) and there is a hidden layer, [__init__] raises the
    [TypeError] of [add_module]. *)
Theorem init_registers_named_modules (actv : string)
  (input_feature_num : nat) (hidden : list nat) (output_feature_num : nat)
  (st : RngState) :
  (forall m : Layer,
      eval_nn (String.append "nn." actv) = Return (ModuleOrNone m) ->
      exists net st',
        init RngState draw default_dtype eval_nn actv input_feature_num
             hidden output_feature_num st = Return (net, st') /\
        Mlp.input_feature_num net = input_feature_num /\
        map fst (mlp net) = module_names (length hidden) /\
        NoDup (map fst (mlp net)) /\
        length (mlp net) = (2 * length hidden + 1)%nat /\
        (forall name v, In (name, v) (mlp net) ->
                        v = m \/ exists l, v = LinearLayer l)) /\
  (forall typename : string,
      eval_nn (String.append "nn." actv) = Return (OtherObject typename) ->
      hidden <> [] ->
      init RngState draw default_dtype eval_nn actv input_feature_num
           hidden output_feature_num st
      = Throw (TypeError_not_module typename)).
Proof.
  split.
  - intros m Hev.
    destruct (init_spec RngState draw default_dtype eval_nn actv m
                input_feature_num hidden output_feature_num st Hev)
      as (net & st' & E & Hi & Hn & Hlo & _).
    exists net, st'. split; [exact E|]. split; [exact Hi|].
    split; [exact Hn|]. split; [|split].
    + rewrite Hn. apply NoDup_module_names.
    + rewrite <- (length_map fst), Hn. apply length_module_names.
    + intros name v Hin. rewrite Forall_forall in Hlo.
      destruct (Hlo _ Hin) as [H|[l [H _]]]; simpl in H;
        [now left | right; now exists l].
  - intros typename Hev Hne. destruct hidden as [|h hidden]; [congruence|].
    unfold init. cbn [hidden_layers].
    destruct (nn_Linear RngState draw default_dtype input_feature_num h st).
    cbn [add_module]. rewrite Hev. reflexivity.
Qed.


(** X8.  The forward pass of a constructed network with an entry-wise
    activation, for [input_feature_num >= 1], on a tensor of
    [batch * input_feature_num] elements, of whatever shape, whose layout
    allows the view in rows (a contiguous tensor, say) and whose element
    type is that of the parameters: it returns a well-shaped tensor of
    [batch] rows and [output_feature_num] columns of that element type,
    and no layer meets an error. *)
Theorem forward_output_shape (actv : string) (f : Q -> Q)
  (input_feature_num : nat) (hidden : list nat) (output_feature_num : nat)
  (st : RngState) (x : Tensor) (batch : nat) :
  eval_nn (String.append "nn." actv)
  = Return (ModuleOrNone (ActivationLayer f)) ->
  (1 <= input_feature_num)%nat ->
  numel x = (batch * input_feature_num)%nat ->
  view_allowed x input_feature_num = true ->
  dtype x = default_dtype ->
  exists net st' logits,
    init RngState draw default_dtype eval_nn actv input_feature_num hidden
         output_feature_num st = Return (net, st') /\
    forward net x = Return (default_dtype, logits) /\
    wf logits /\
    t_rows logits = batch /\ t_cols logits = output_feature_num.
Proof.
  intros Hev Hn Hl Hv Hd.
  destruct (init_spec RngState draw default_dtype eval_nn actv _
              input_feature_num hidden output_feature_num st Hev)
    as (net & st' & E & Hi & _ & _ & _ & Hact).
  destruct (Hact f eq_refl) as (_ & Hch & Hok).
  destruct (view_rows_ok input_feature_num batch x Hn Hl Hv)
    as (x2 & Ev & Hwf & Hr & Hc).
  destruct (sequential_forward_shape default_dtype (mlp net) Hok x2 _ _
              Hwf Hc Hch)
    as (y & Ey & Hwfy & Hry & Hcy).
  exists net, st', y. split; [exact E|]. unfold forward.
  rewrite Hi, Ev, Hd, Ey.
  split; [reflexivity|]. split; [exact Hwfy|]. split; [congruence|exact Hcy].
Qed.

(** X9.  The forward pass of a constructed network with an entry-wise
    activation raises in exactly three cases, and never in a layer for a
    reason of shape.  (1) [view] cannot infer the number of rows:
    [input_feature_num] is 0 or does not divide the number of elements.
    (2) The sizes fit, but the sizes and strides of the tensor do not allow
    the view (a tensor that is not contiguous).  (3) The view succeeds, but
    the element type of the tensor is not that of the parameters: the
    first [nn.Linear] refuses it. *)
Theorem forward_raises_exactly (actv : string) (f : Q -> Q)
  (input_feature_num : nat) (hidden : list nat) (output_feature_num : nat)
  (st : RngState) :
  eval_nn (String.append "nn." actv)
  = Return (ModuleOrNone (ActivationLayer f)) ->
  exists net st',
    init RngState draw default_dtype eval_nn actv input_feature_num hidden
         output_feature_num st = Return (net, st') /\
    forall (x : Tensor) (e : PyExn),
      forward net x = Throw e <->
      ((input_feature_num = O \/ numel x mod input_feature_num <> O) /\
       e = RuntimeError_view (numel x) input_feature_num) \/
      (input_feature_num <> O /\ numel x mod input_feature_num = O /\
       view_allowed x input_feature_num = false /\
       e = RuntimeError_view_stride) \/
      (input_feature_num <> O /\ numel x mod input_feature_num = O /\
       view_allowed x input_feature_num = true /\
       dtype x <> default_dtype /\
       e = RuntimeError_dtype (dtype x) default_dtype).
Proof.
  intros Hev.
  destruct (init_spec RngState draw default_dtype eval_nn actv _
              input_feature_num hidden output_feature_num st Hev)
    as (net & st' & E & Hi & _ & _ & Hfirst & Hact).
  destruct (Hact f eq_refl) as (_ & Hch & Hok).
  exists net, st'. split; [exact E|]. intros x e.
  unfold forward. rewrite Hi. clear Hi E Hact.
  destruct (Nat.eq_dec input_feature_num 0) as [Hz|Hnz].
  { subst input_feature_num. unfold view_rows. simpl. split.
    - intros H. injection H as <-. left. split; [now left | reflexivity].
    - intros [[_ ->]|[(H & _)|(H & _)]]; [reflexivity | easy | easy]. }
  destruct (Nat.eq_dec (numel x mod input_feature_num) 0) as [Hm|Hm].
  2:{ unfold view_rows.
      assert (E0 : Nat.eqb input_feature_num 0 = false)
        by now apply Nat.eqb_neq.
      assert (E1 : Nat.eqb (numel x mod input_feature_num) 0 = false)
        by now apply Nat.eqb_neq.
      rewrite E0, E1. split.
      - intros H. injection H as <-. left. split; [now right | reflexivity].
      - intros [[_ ->]|[(_ & H & _)|(_ & H & _)]];
          [reflexivity | easy | easy]. }
  destruct (view_allowed x input_feature_num) eqn:Hv.
  2:{ unfold view_rows.
      assert (E0 : Nat.eqb input_feature_num 0 = false)
        by now apply Nat.eqb_neq.
      rewrite E0, Hm, Hv. simpl. split.
      - intros H. injection H as <-. right. left. now repeat split.
      - intros [[[H|H] _]|[(_ & _ & _ & ->)|(_ & _ & H & _)]];
          [easy | easy | reflexivity | discriminate]. }
  assert (Hl : numel x
               = (numel x / input_feature_num * input_feature_num)%nat).
  { rewrite Nat.mul_comm. now apply Nat.Div0.div_exact. }
  destruct (view_rows_ok input_feature_num _ x ltac:(lia) Hl Hv)
    as (x2 & Ev & Hwf & Hr & Hc).
  rewrite Ev.
  destruct (DType_eq_dec (dtype x) default_dtype) as [Hd|Hd].
  - rewrite Hd.
    destruct (sequential_forward_shape default_dtype (mlp net) Hok x2 _ _
                Hwf Hc Hch) as (y & Ey & _).
    rewrite Ey. split; [discriminate|].
    intros [[[H|H] _]|[(_ & _ & H & _)|(_ & _ & _ & H & _)]];
      [easy | easy | discriminate | easy].
  - rewrite (sequential_forward_dtype default_dtype (mlp net) (dtype x, x2)
               Hfirst Hd).
    cbn [fst]. split.
    + intros H. injection H as <-. right. right. now repeat split.
    + intros [[[H|H] _]|[(_ & _ & H & _)|(_ & _ & _ & _ & ->)]];
        [easy | easy | discriminate | reflexivity].
Qed.

(** X10.  The activation text is evaluated inside the loop over the
    hidden layers only.  With no hidden layer [Net.__init__] succeeds
    whatever the text is and the network is the single module
    [Output_Linear] from [input_feature_num] to [output_feature_num]; with
    at least one hidden layer a text whose evaluation raises makes
    [__init__] raise that error. *)
Theorem init_evaluates_activation_per_hidden_layer (actv : string)
  (input_feature_num : nat) (output_feature_num : nat) (st : RngState) :
  (exists l st',
      init RngState draw default_dtype eval_nn actv input_feature_num []
           output_feature_num st
      = Return ({| Mlp.input_feature_num := input_feature_num;
                   mlp := [("Output_Linear"%string, LinearLayer l)] |}, st') /\
      in_features l = input_feature_num /\
      out_features l = output_feature_num /\ linear_ok l) /\
  (forall e h hidden,
      eval_nn (String.append "nn." actv) = Throw e ->
      init RngState draw default_dtype eval_nn actv input_feature_num
           (h :: hidden) output_feature_num st = Throw e).
Proof.
  split.
  - unfold init. simpl.
    pose proof (nn_Linear_ok RngState draw default_dtype input_feature_num
                  output_feature_num st) as (Hin & Hout & Hok & _).
    destruct (nn_Linear RngState draw default_dtype input_feature_num
                output_feature_num st) as [l st'].
    exists l, st'. simpl in *.
    split; [reflexivity|]. split; [exact Hin|]. split; [exact Hout|exact Hok].
  - intros e h hidden Hev. unfold init. cbn [hidden_layers].
    destruct (nn_Linear RngState draw default_dtype input_feature_num h st).
    cbn [add_module]. now rewrite Hev.
Qed.

End Network.

End MlpFacts.
(* ================================================================== *)
(** * Properties of [sq_loss] and [SimpleGraph] *)
(* ================================================================== *)

Module GraphFacts.
Import Graph.

Lemma Qsquare_nonneg (x : Q) : 0 <= x ^ 2.
Proof. simpl. nra. Qed.

Lemma Qsquare_zero (x : Q) : x ^ 2 == 0 <-> x == 0.
Proof.
  simpl. split; intros H; [|rewrite H; ring].
  destruct (Qeq_dec x 0) as [|Hne]; [assumption|].
  exfalso. destruct (Qmult_integral _ _ H); contradiction.
Qed.

Lemma nth_map_Q (f : Q -> Q) (l : list Q) (i : nat) :
  (i < length l)%nat -> nth i (map f l) 0 = f (nth i l 0).
Proof.
  intros Hi. rewrite (nth_indep _ 0 (f 0)) by (now rewrite length_map).
  apply map_nth.
Qed.

Lemma sq_loss_float_entries (y_true y_prediction : list Q) :
  length y_true = length y_prediction ->
  exists loss,
    sq_loss y_true y_prediction = Ok loss /\
    length loss = length y_true /\
    forall i, (i < length y_true)%nat ->
              nth i loss 0 == (nth i y_true 0 - nth i y_prediction 0) ^ 2 /\
              0 <= nth i loss 0 /\
              (nth i loss 0 == 0 <-> nth i y_true 0 == nth i y_prediction 0).
Proof.
  intros Hl. unfold sq_loss, Np.broadcast2. rewrite Hl, Nat.eqb_refl.
  eexists. split; [reflexivity|].
  assert (Hz : length (Np.zip_with Qminus y_true y_prediction)
               = length y_true) by now apply NpFacts.length_zip_with.
  split; [rewrite length_map; congruence|].
  intros i Hi.
  rewrite nth_map_Q by lia.
  rewrite NpFacts.nth_zip_with by (try assumption; lia).
  split; [reflexivity|]. split; [apply Qsquare_nonneg|].
  rewrite Qsquare_zero. split; intros H; lra.
Qed.

(** ** 64-bit integers *)

Lemma wrap64_range (z : Z) : int64 (wrap64 z).
Proof.
  unfold int64, wrap64.
  pose proof (Z.mod_pos_bound (z + 2 ^ 63) (2 ^ 64) ltac:(lia)). lia.
Qed.

Lemma wrap64_small (z : Z) : int64 z -> wrap64 z = z.
Proof.
  unfold int64, wrap64. intros H.
  rewrite Z.mod_small by lia. lia.
Qed.

Lemma wrap64_square (u : Z) : wrap64 (wrap64 u ^ 2) = wrap64 (u ^ 2).
Proof.
  unfold wrap64 at 1 3. f_equal.
  set (q := ((u + 2 ^ 63) / 2 ^ 64)%Z).
  assert (E : wrap64 u = (u - 2 ^ 64 * q)%Z).
  { unfold wrap64, q. rewrite Z.mod_eq by lia. lia. }
  rewrite E.
  replace ((u - 2 ^ 64 * q) ^ 2 + 2 ^ 63)%Z
    with (u ^ 2 + 2 ^ 63 + (q * (2 ^ 64 * q - 2 * u)) * 2 ^ 64)%Z by ring.
  apply Z.mod_add. lia.
Qed.

Lemma length_zip_with_int (f : Z -> Z -> Z) (a b : list Z) :
  length a = length b -> length (zip_with_int f a b) = length a.
Proof.
  revert b; induction a as [|x a IH]; intros [|y b] H; simpl in *;
    try discriminate; [reflexivity|].
  now rewrite IH by lia.
Qed.

Lemma nth_zip_with_int (f : Z -> Z -> Z) (a b : list Z) (i : nat) :
  length a = length b -> (i < length a)%nat ->
  nth i (zip_with_int f a b) 0%Z = f (nth i a 0%Z) (nth i b 0%Z).
Proof.
  revert b i; induction a as [|x a IH]; intros [|y b] i H Hi; simpl in *;
    try discriminate; try lia.
  destruct i as [|i]; [reflexivity|]. apply IH; lia.
Qed.

Lemma nth_map_Z (f : Z -> Z) (l : list Z) (i : nat) :
  (i < length l)%nat -> nth i (map f l) 0%Z = f (nth i l 0%Z).
Proof.
  intros Hi. rewrite (nth_indep _ 0%Z (f 0%Z)) by (now rewrite length_map).
  apply map_nth.
Qed.

Lemma length_to_float (t : Tensor1) : length (to_float t) = length1 t.
Proof. destruct t; simpl; [reflexivity | apply length_map]. Qed.

(** X11.  [sq_loss] on two 1-D tensors of the same length returns a loss
    of that length.  When one of them is floating (entries taken exactly),
    the loss is floating and entry [i] is the square of the difference of
    the two entries [i]: no entry is negative, and an entry is zero exactly
    where prediction and target agree.  When both are [int64], the loss is
    [int64] and entry [i] is that square wrapped to 64 bits; it is the
    square itself, hence not negative, and zero exactly where the two
    agree, provided the square is below [2^63]. *)
Theorem sq_loss_entries (y_true y_prediction : Tensor1) :
  length1 y_true = length1 y_prediction ->
  (is_floating y_true || is_floating y_prediction = true ->
   exists loss,
     sq_loss_dtype y_true y_prediction = Ok (FloatTensor loss) /\
     length loss = length1 y_true /\
     forall i, (i < length1 y_true)%nat ->
       nth i loss 0
       == (nth i (to_float y_true) 0 - nth i (to_float y_prediction) 0) ^ 2 /\
       0 <= nth i loss 0 /\
       (nth i loss 0 == 0 <->
        nth i (to_float y_true) 0 == nth i (to_float y_prediction) 0)) /\
  (forall a c : list Z,
     y_true = Int64Tensor a -> y_prediction = Int64Tensor c ->
     Forall int64 a -> Forall int64 c ->
     exists loss,
       sq_loss_dtype y_true y_prediction = Ok (Int64Tensor loss) /\
       length loss = length a /\
       Forall int64 loss /\
       forall i, (i < length a)%nat ->
         nth i loss 0%Z = wrap64 ((nth i a 0 - nth i c 0) ^ 2)%Z /\
         (((nth i a 0 - nth i c 0) ^ 2 < 2 ^ 63)%Z ->
          nth i loss 0%Z = ((nth i a 0 - nth i c 0) ^ 2)%Z /\
          (0 <= nth i loss 0)%Z /\
          (nth i loss 0%Z = 0%Z <-> nth i a 0%Z = nth i c 0%Z))).
Proof.
  intros Hl. split.
  - intros Hf.
    assert (Hl' : length (to_float y_true) = length (to_float y_prediction))
      by (now rewrite !length_to_float).
    destruct (sq_loss_float_entries _ _ Hl') as (loss & E & Hlen & Hent).
    rewrite length_to_float in Hlen, Hent.
    exists loss. split; [|split; [exact Hlen | exact Hent]].
    destruct y_true as [a|a], y_prediction as [c|c]; simpl in Hf;
      try discriminate; unfold sq_loss_dtype; now rewrite E.
  - intros a c -> -> _ _. simpl in Hl.
    assert (Eb : Nat.eqb (length a) (length c) = true)
      by (apply Nat.eqb_eq; exact Hl).
    unfold sq_loss_dtype, broadcast2_int. rewrite Eb.
    eexists. split; [reflexivity|].
    assert (Hz : length (zip_with_int (fun x y => wrap64 (x - y)) a c)
                 = length a) by now apply length_zip_with_int.
    split; [rewrite length_map; exact Hz|]. split.
    { rewrite Forall_map. apply Forall_forall. intros x _.
      apply wrap64_range. }
    intros i Hi.
    rewrite nth_map_Z by lia.
    rewrite nth_zip_with_int by assumption.
    rewrite wrap64_square.
    split; [reflexivity|]. intros Hsmall.
    set (d := (nth i a 0 - nth i c 0)%Z) in *.
    assert (Hsq : (0 <= d ^ 2)%Z) by (rewrite Z.pow_2_r; nia).
    rewrite wrap64_small by (unfold int64; lia).
    split; [reflexivity|]. split; [exact Hsq|].
    rewrite Z.pow_2_r. split; intros H; [nia | subst d; nia].
Qed.

(** The int64 loss can be negative when the square passes [2^63]. *)
Example sq_loss_int64_wraps :
  sq_loss_dtype (Int64Tensor [3037000500%Z]) (Int64Tensor [0%Z])
  = Ok (Int64Tensor [(-9223372036709301616)%Z]).
Proof. reflexivity. Qed.

(** The theorem for the integer target [7] and the floating prediction
    [1/2], and for the integer tensors [7, 1] and [0, 1]. *)
Lemma sq_loss_entries_witness :
  (length1 (Int64Tensor [7%Z]) = length1 (FloatTensor [1 # 2]) /\
   is_floating (Int64Tensor [7%Z]) || is_floating (FloatTensor [1 # 2])
   = true /\
   exists loss,
     sq_loss_dtype (Int64Tensor [7%Z]) (FloatTensor [1 # 2])
     = Ok (FloatTensor loss) /\
     length loss = 1%nat /\
     forall i, (i < 1)%nat ->
       nth i loss 0 == (nth i [7] 0 - nth i [1 # 2] 0) ^ 2 /\
       0 <= nth i loss 0 /\
       (nth i loss 0 == 0 <-> nth i [7] 0 == nth i [1 # 2] 0)) /\
  (length1 (Int64Tensor [7%Z; 1%Z]) = length1 (Int64Tensor [0%Z; 1%Z]) /\
   Forall int64 [7%Z; 1%Z] /\ Forall int64 [0%Z; 1%Z] /\
   exists loss,
     sq_loss_dtype (Int64Tensor [7%Z; 1%Z]) (Int64Tensor [0%Z; 1%Z])
     = Ok (Int64Tensor loss) /\
     length loss = 2%nat /\
     Forall int64 loss /\
     forall i, (i < 2)%nat ->
       nth i loss 0%Z
       = wrap64 ((nth i [7; 1] 0 - nth i [0; 1] 0) ^ 2)%Z /\
       (((nth i [7; 1] 0 - nth i [0; 1] 0) ^ 2 < 2 ^ 63)%Z ->
        nth i loss 0%Z = ((nth i [7; 1] 0 - nth i [0; 1] 0) ^ 2)%Z /\
        (0 <= nth i loss 0)%Z /\
        (nth i loss 0%Z = 0%Z <-> nth i [7; 1]%Z 0%Z = nth i [0; 1]%Z 0%Z))).
Proof.
  assert (A1 : length1 (Int64Tensor [7%Z]) = length1 (FloatTensor [1 # 2]))
    by reflexivity.
  assert (A2 : is_floating (Int64Tensor [7%Z])
               || is_floating (FloatTensor [1 # 2]) = true) by reflexivity.
  assert (B1 : length1 (Int64Tensor [7%Z; 1%Z])
               = length1 (Int64Tensor [0%Z; 1%Z])) by reflexivity.
  assert (B2 : Forall int64 [7%Z; 1%Z])
    by (repeat constructor; unfold int64; lia).
  assert (B3 : Forall int64 [0%Z; 1%Z])
    by (repeat constructor; unfold int64; lia).
  split.
  - split; [exact A1|]. split; [exact A2|].
    exact (proj1 (sq_loss_entries _ _ A1) A2).
  - split; [exact B1|]. split; [exact B2|]. split; [exact B3|].
    exact (proj2 (sq_loss_entries _ _ B1) _ _ eq_refl eq_refl B2 B3).
Defined.




Section Forward.
Variable tanh : Q -> Q.

(** X13.  The weight and the bias of a [SimpleGraph] are one-element
    tensors, so [forward] accepts a 1-D tensor of any length, the empty one
    included: it never raises, returns as many predictions as there are
    features, and prediction [i] is [tanh (x_i * w + b)]. *)
Theorem forward_broadcasts_parameters (w0 b0 : Q) (x : list Q) :
  exists prediction,
    forward tanh (init w0 b0) x = Ok prediction /\
    length prediction = length x /\
    forall i, (i < length x)%nat ->
              nth i prediction 0 = tanh (nth i x 0 * w0 + b0).
Proof.
  assert (Hmul : Np.mul x [w0] = Ok (map (fun v => v * w0) x)).
  { unfold Np.mul, Np.broadcast2. simpl length.
    destruct (Nat.eqb_spec (length x) 1) as [E|E]; [|reflexivity].
    destruct x as [|v [|? ?]]; try discriminate. reflexivity. }
  assert (Hadd : Np.add (map (fun v => v * w0) x) [b0]
                 = Ok (map (fun v => v * w0 + b0) x)).
  { unfold Np.add, Np.broadcast2. rewrite length_map. simpl length.
    destruct (Nat.eqb_spec (length x) 1) as [E|E].
    - destruct x as [|v [|? ?]]; try discriminate. reflexivity.
    - simpl. now rewrite map_map. }
  unfold forward, init. simpl w. simpl b. rewrite Hmul, Hadd.
  eexists. split; [reflexivity|]. split; [now rewrite !length_map|].
  intros i Hi. rewrite map_map.
  rewrite (nth_indep _ 0 (tanh (0 * w0 + b0))) by (now rewrite length_map).
  exact (map_nth (fun v => tanh (v * w0 + b0)) x 0 i).
Qed.

End Forward.

End GraphFacts.

(* ================================================================== *)
(** * Further properties of [ex_net_rsm] *)
(* ================================================================== *)

Module RsmFacts.
Import Torch.

Lemma rsm_entry_dot (h rsm : Tensor2) (i j : nat) :
  wf h -> ex_net_rsm h = Ok rsm ->
  (i < t_rows h)%nat -> (j < t_rows h)%nat ->
  entry rsm i j = dot (nth i (t_data h) []) (nth j (t_data h) []).
Proof.
  intros Hwf E Hi Hj. unfold ex_net_rsm in E. pose proof Hwf as [Hlen _].
  rewrite (TorchFacts.entry_matmul _ _ _ _ _ E) by (simpl; lia).
  now rewrite TorchFacts.column_transpose.
Qed.

Lemma ex_net_rsm_total (h : Tensor2) : exists rsm, ex_net_rsm h = Ok rsm.
Proof.
  unfold ex_net_rsm, matmul. simpl. rewrite Nat.eqb_refl. eauto.
Qed.

Lemma dot_self_nonneg (u : list Q) : 0 <= dot u u.
Proof.
  induction u as [|x u IH]; simpl; [discriminate | nra].
Qed.


Lemma Qsq_nonneg (x : Q) : 0 <= x * x.
Proof. nra. Qed.

Lemma Qsq_le (s t : Q) : 0 <= s -> t * t <= s * s -> t <= s.
Proof.
  intros Hs H. destruct (Qlt_le_dec s t) as [Hlt|]; [|assumption].
  exfalso. nra.
Qed.

Lemma cauchy_step (x y d A B : Q) :
  0 <= A -> 0 <= B -> d * d <= A * B ->
  (x * y + d) * (x * y + d) <= (x * x + A) * (y * y + B).
Proof.
  intros HA HB Hd.
  assert (Hxx := Qsq_nonneg x). assert (Hyy := Qsq_nonneg y).
  assert (Hs : 0 <= x * x * B + y * y * A).
  { apply Qplus_nonneg; apply Qmult_le_0_compat; assumption. }
  assert (H : 2 * x * y * d <= x * x * B + y * y * A).
  { apply Qsq_le; [exact Hs|].
    assert (Hc : 0 <= 4 * (x * x) * (y * y)).
    { apply Qmult_le_0_compat; [|exact Hyy].
      apply Qmult_le_0_compat; [discriminate | exact Hxx]. }
    assert (H2 : (d * d) * (4 * (x * x) * (y * y))
                 <= (A * B) * (4 * (x * x) * (y * y)))
      by (apply Qmult_le_compat_r; assumption).
    assert (H4 := Qsq_nonneg (x * x * B - y * y * A)).
    assert (H1 : (2 * x * y * d) * (2 * x * y * d)
                 == (d * d) * (4 * (x * x) * (y * y))) by ring.
    assert (H3 : (x * x * B + y * y * A) * (x * x * B + y * y * A)
                 == (A * B) * (4 * (x * x) * (y * y))
                    + (x * x * B - y * y * A) * (x * x * B - y * y * A))
      by ring.
    rewrite H1, H3. lra. }
  assert (E : (x * x + A) * (y * y + B) - (x * y + d) * (x * y + d)
              == (x * x * B + y * y * A - 2 * x * y * d) + (A * B - d * d))
    by ring.
  lra.
Qed.

Lemma dot_cauchy_schwarz (u v : list Q) :
  dot u v * dot u v <= dot u u * dot v v.
Proof.
  revert v; induction u as [|x u IH]; intros [|y v]; cbn [dot].
  - lra.
  - lra.
  - lra.
  - apply cauchy_step; [apply dot_self_nonneg | apply dot_self_nonneg | apply IH].
Qed.


(** X15.  The similarity of two rows is bounded by their norms
    (Cauchy-Schwarz): the square of entry [(i, j)] is at most the product
    of the diagonal entries [(i, i)] and [(j, j)]. *)
Theorem rsm_cauchy_schwarz (h : Tensor2) (i j : nat) :
  wf h -> (i < t_rows h)%nat -> (j < t_rows h)%nat ->
  exists rsm,
    ex_net_rsm h = Ok rsm /\
    entry rsm i j * entry rsm i j <= entry rsm i i * entry rsm j j.
Proof.
  intros Hwf Hi Hj. destruct (ex_net_rsm_total h) as [rsm E].
  exists rsm. split; [exact E|].
  rewrite (rsm_entry_dot h rsm i j Hwf E Hi Hj),
          (rsm_entry_dot h rsm i i Hwf E Hi Hi),
          (rsm_entry_dot h rsm j j Hwf E Hj Hj).
  apply dot_cauchy_schwarz.
Qed.

End RsmFacts.
(* ================================================================== *)
(** * The scored list and a prior of one element *)
(* ================================================================== *)

Lemma mul_single_prior (x : Q) (valids : list Q) :
  length valids <> 1%nat ->
  Np.mul [x] valids
  = Ok (Np.zip_with Qmult (repeat x (length valids)) valids).
Proof.
  intros Hn. unfold Np.mul, Np.broadcast2. simpl length.
  destruct (Nat.eqb_spec 1 (length valids)) as [E|_]; [congruence|].
  simpl. f_equal. clear Hn.
  induction valids as [|v valids IH]; simpl; [reflexivity | now rewrite IH].
Qed.

Section ScoredList.
Context {Board SimState : Type}.
Variable partition_perm : list Q -> nat -> list nat.
Hypothesis kernel : kernel_ok partition_perm.

Implicit Types (w : World Board SimState) (b : Board).


(** [play] once lines 38-61 have produced at least one candidate. *)
Lemma play_after_candidates b w (cands : list nat)
  (w1 : World Board SimState) :
  play_candidates partition_perm b w = (Ok cands, w1) ->
  qsa (self w1) = Some [] ->
  cands <> [] ->
  exists a w', In a cands /\ play partition_perm b w = (Ok a, w').
Proof.
  intros Hc Hq Hne. unfold play. unfold bind at 1. rewrite Hc.
  destruct (for_each_score_run b cands w1 [] Hq)
    as [scored [st' [Hm [Hall E]]]].
  unfold bind. rewrite E.
  rewrite (best_of_qsa_run _ (map scored_entry scored)) by reflexivity.
  assert (Hsne : scored <> []).
  { intros Es. subst scored. simpl in Hm. congruence. }
  destruct (select_last_max scored Hsne)
    as [outs [a [rest [s1 [s2 [Hr [Hs _]]]]]]].
  rewrite Hr. eexists a, _. split; [|reflexivity].
  rewrite <- Hm, Hs, map_app. apply in_or_app. right. now left.
Qed.

(** X16.  A prior of a single non-negative number is not rejected: line
    42 broadcasts it, and [play] goes on exactly as if the predictor had
    returned that number for every action (here for a mask of at least two
    entries that allows an action, and [K >= 1]); the action returned is
    allowed by the mask. *)
Theorem play_broadcasts_single_prior b w (x : Q) :
  prior_of (self w) b = [x] ->
  0 <= x ->
  (2 <= length (mask_of (self w) b))%nat ->
  In true (mask_of (self w) b) ->
  (1 <= K (self w))%Z ->
  exists fallback a w',
    play_prior b w
    = (Ok (renormalized (repeat x (length (mask_of (self w) b)))
                        (mask_of (self w) b)),
       update_world w (Some []) (sim_state w) (prior_events b fallback)) /\
    play partition_perm b w = (Ok a, w') /\
    legal (mask_of (self w) b) a.
Proof.
  unfold prior_of, mask_of. intros Hp Hx Hn Hin HK.
  set (mask := getValidMoves (game (self w)) b 1) in *.
  set (P := renormalized (repeat x (length mask)) mask).
  assert (Hprior : play_prior b w
                   = (Ok P, update_world w (Some []) (sim_state w)
                              (prior_events b
                                 (fallback_taken (repeat x (length mask))
                                                 mask)))).
  { unfold play_prior, bind, assign_qsa, get_self, call_predict, bind, emit,
      get_self, ret. simpl.
    destruct (predict (nnet (self w)) b) as [Ps v]. simpl in Hp. subst Ps.
    fold mask. unfold renormalize, bind, lift.
    rewrite mul_single_prior by (rewrite length_map; lia).
    rewrite length_map.
    unfold P, renormalized, fallback_taken, masked, prior_events,
      update_world.
    destruct (Qlt_bool 0 _) eqn:Es; simpl; [reflexivity|].
    unfold emit, ret. simpl. rewrite NpFacts.add_same_length.
    - simpl. now rewrite <- app_assoc.
    - rewrite NpFacts.length_zip_with;
        rewrite ?repeat_length, ?length_map; reflexivity. }
  assert (Hlen : length (repeat x (length mask)) = length mask)
    by apply repeat_length.
  assert (Hpos : Forall (fun v => 0 <= v) (repeat x (length mask))).
  { apply Forall_forall. intros v Hv. apply repeat_spec in Hv. now subst v. }
  pose proof (candidates_spec partition_perm kernel _ _ _ Hlen Hpos HK Hin)
    as Hspec.
  cbv zeta in Hspec. fold P in Hspec.
  destruct Hspec as (cands & Htop & Hlc & _ & Hlegal & _).
  pose proof (renormalized_count_pos _ _ Hlen Hpos Hin) as Hnz.
  fold P in Hnz.
  assert (Hne : cands <> []).
  { intros E. subst cands. simpl in Hlc. lia. }
  assert (Hc : play_candidates partition_perm b w
               = (Ok cands,
                  update_world w (Some []) (sim_state w)
                    (prior_events b
                       (fallback_taken (repeat x (length mask)) mask)))).
  { unfold play_candidates, bind. rewrite Hprior. unfold get_self, lift.
    simpl. now rewrite Htop. }
  destruct (play_after_candidates b w _ _ Hc eq_refl Hne)
    as [a [w' [Ha Hplay]]].
  exists (fallback_taken (repeat x (length mask)) mask), a, w'.
  split; [exact Hprior|]. split; [exact Hplay|].
  apply (Hlegal a Ha).
Qed.

End ScoredList.
(* ================================================================== *)
(** * The forward pass works row by row *)
(* ================================================================== *)

Module MlpRows.
Import Torch Mlp MlpFacts.

Lemma chunks_app (k1 k2 n : nat) (x1 x2 : list Q) :
  length x1 = (k1 * n)%nat ->
  chunks (k1 + k2) n (x1 ++ x2) = chunks k1 n x1 ++ chunks k2 n x2.
Proof.
  revert x1; induction k1 as [|k1 IH]; intros x1 Hl; simpl in *.
  - apply length_zero_iff_nil in Hl. now subst.
  - assert (Hn : (n <= length x1)%nat) by lia.
    rewrite firstn_app, skipn_app.
    replace (n - length x1)%nat with O by lia. simpl.
    rewrite app_nil_r. f_equal. apply IH.
    rewrite length_skipn. lia.
Qed.

Lemma view_rows_run (n batch : nat) (x : Tensor) :
  (1 <= n)%nat -> numel x = (batch * n)%nat -> view_allowed x n = true ->
  view_rows n x
  = Return (dtype x, {| t_rows := batch; t_cols := n;
                        t_data := chunks batch n (elements x) |}).
Proof.
  intros Hn Hl Hv. unfold view_rows.
  assert (E0 : Nat.eqb n 0 = false) by (apply Nat.eqb_neq; lia).
  now rewrite E0, Hv, Hl, Nat.Div0.mod_mul, Nat.eqb_refl, Nat.div_mul by lia.
Qed.

Lemma add_rows_app (r1 r2 d1 d2 : list (list Q)) (b : list Q) :
  add_rows r1 b = Ok d1 -> add_rows r2 b = Ok d2 ->
  add_rows (r1 ++ r2) b = Ok (d1 ++ d2).
Proof.
  revert d1; induction r1 as [|r r1 IH]; intros d1 H1 H2; simpl in *.
  - injection H1 as <-. exact H2.
  - destruct (Np.add r b) as [r'|]; [|discriminate].
    destruct (add_rows r1 b) as [d|]; [|discriminate].
    injection H1 as <-. now rewrite (IH d eq_refl H2).
Qed.

Lemma layer_forward_stack (m : Layer) (d d' : DType)
  (x1 x2 y1 y2 : Tensor2) :
  t_cols x1 = t_cols x2 ->
  layer_forward m (d, x1) = Return (d', y1) ->
  layer_forward m (d, x2) = Return (d', y2) ->
  layer_forward m (d, stack_rows x1 x2) = Return (d', stack_rows y1 y2) /\
  t_cols y1 = t_cols y2.
Proof.
  intros Hc. destruct m as [l|f|]; simpl; [| |discriminate].
  - unfold linear_forward, matmul. cbn [fst snd]. simpl. rewrite <- Hc.
    destruct (dtype_eqb d (param_dtype l)); [|discriminate].
    destruct (Nat.eqb (t_cols x1) (in_features l)); [|discriminate].
    simpl.
    destruct (add_rows (map _ (t_data x1)) (bias l)) as [d1|] eqn:E1;
      [|discriminate].
    destruct (add_rows (map _ (t_data x2)) (bias l)) as [d2|] eqn:E2;
      [|discriminate].
    intros H1 H2. injection H1 as <- <-. injection H2 as <-.
    rewrite map_app, (add_rows_app _ _ _ _ _ E1 E2).
    split; reflexivity.
  - intros H1 H2. injection H1 as <- <-. injection H2 as <-.
    unfold stack_rows. simpl. rewrite map_app. split; [reflexivity|exact Hc].
Qed.

(** Stacking two batches commutes with the forward pass of any module
    list that accepts both. *)
Lemma sequential_forward_stack (d : DType) (mods : list (string * Layer)) :
  Forall (layer_ok d) mods ->
  forall (x1 x2 y1 y2 : Tensor2) (c c' : nat),
  wf x1 -> wf x2 -> t_cols x1 = c -> t_cols x2 = c ->
  chain c mods = Some c' ->
  sequential_forward mods (d, x1) = Return (d, y1) ->
  sequential_forward mods (d, x2) = Return (d, y2) ->
  sequential_forward mods (d, stack_rows x1 x2)
  = Return (d, stack_rows y1 y2).
Proof.
  induction 1 as [|nm mods Hnm _ IH];
    intros x1 x2 y1 y2 c c' Hw1 Hw2 Hc1 Hc2 Hch H1 H2.
  - simpl in *. injection H1 as <-. injection H2 as <-. reflexivity.
  - change (nm :: mods) with ([nm] ++ mods) in Hch.
    rewrite chain_app in Hch.
    destruct (chain c [nm]) as [c1|] eqn:Ec; [|discriminate].
    destruct (layer_forward_shape d nm x1 c Hnm Hw1 Hc1 c1 Ec)
      as (z1 & Ez1 & Hwz1 & _ & Hcz1).
    destruct (layer_forward_shape d nm x2 c Hnm Hw2 Hc2 c1 Ec)
      as (z2 & Ez2 & Hwz2 & _ & Hcz2).
    destruct nm as [k m]. cbn [sequential_forward snd] in *.
    rewrite Ez1 in H1. rewrite Ez2 in H2.
    destruct (layer_forward_stack m d d x1 x2 z1 z2 ltac:(congruence)
                Ez1 Ez2) as [E _].
    rewrite E. exact (IH z1 z2 y1 y2 c1 c' Hwz1 Hwz2 Hcz1 Hcz2 Hch H1 H2).
Qed.

Section Constructed.
Variable RngState : Type.
Variable draw : RngState -> Q * RngState.
Variable default_dtype : DType.
Variable eval_nn : string -> Outcome PyObject.

(** X17.  In exact arithmetic, the forward pass of a constructed network
    (entry-wise activation, [input_feature_num >= 1]) treats the rows of a
    batch one by one.  Take two tensors that can each be cut into rows of
    [input_feature_num] entries, and a third whose elements are those of
    the first followed by those of the second, all three of the element
    type of the parameters and with a layout that allows the view.  Then
    all three runs succeed, and the logits of the third are the logits of
    the first followed by the logits of the second. *)
Theorem forward_is_row_wise (actv : string) (f : Q -> Q)
  (input_feature_num : nat) (hidden : list nat) (output_feature_num : nat)
  (st : RngState) (x1 x2 x : Tensor) (k1 k2 : nat) :
  eval_nn (String.append "nn." actv)
  = Return (ModuleOrNone (ActivationLayer f)) ->
  (1 <= input_feature_num)%nat ->
  numel x1 = (k1 * input_feature_num)%nat ->
  numel x2 = (k2 * input_feature_num)%nat ->
  elements x = elements x1 ++ elements x2 ->
  view_allowed x1 input_feature_num = true ->
  view_allowed x2 input_feature_num = true ->
  view_allowed x input_feature_num = true ->
  dtype x1 = default_dtype ->
  dtype x2 = default_dtype ->
  dtype x = default_dtype ->
  exists net st' y1 y2,
    init RngState draw default_dtype eval_nn actv input_feature_num hidden
         output_feature_num st = Return (net, st') /\
    forward net x1 = Return (default_dtype, y1) /\
    forward net x2 = Return (default_dtype, y2) /\
    forward net x = Return (default_dtype, stack_rows y1 y2).
Proof.
  intros Hev Hn Hl1 Hl2 Hx Hv1 Hv2 Hv Hd1 Hd2 Hd.
  destruct (init_spec RngState draw default_dtype eval_nn actv _
              input_feature_num hidden output_feature_num st Hev)
    as (net & st' & E & Hi & _ & _ & _ & Hact).
  destruct (Hact f eq_refl) as (_ & Hch & Hok).
  assert (Hl : numel x = ((k1 + k2) * input_feature_num)%nat).
  { unfold numel in *. rewrite Hx, length_app. lia. }
  pose proof (view_rows_run _ k1 x1 Hn Hl1 Hv1) as Ev1.
  pose proof (view_rows_run _ k2 x2 Hn Hl2 Hv2) as Ev2.
  pose proof (view_rows_run _ (k1 + k2) x Hn Hl Hv) as Ev.
  rewrite Hx, (chunks_app k1 k2 _ _ _ Hl1) in Ev.
  destruct (chunks_shape k1 _ _ Hl1) as [Ha1 Hb1].
  destruct (chunks_shape k2 _ _ Hl2) as [Ha2 Hb2].
  set (v1 := {| t_rows := k1; t_cols := input_feature_num;
                t_data := chunks k1 input_feature_num (elements x1) |}) in *.
  set (v2 := {| t_rows := k2; t_cols := input_feature_num;
                t_data := chunks k2 input_feature_num (elements x2) |}) in *.
  assert (Hw1 : wf v1) by (split; assumption).
  assert (Hw2 : wf v2) by (split; assumption).
  destruct (sequential_forward_shape default_dtype (mlp net) Hok v1 _ _
              Hw1 eq_refl Hch) as (y1 & Ey1 & _).
  destruct (sequential_forward_shape default_dtype (mlp net) Hok v2 _ _
              Hw2 eq_refl Hch) as (y2 & Ey2 & _).
  exists net, st', y1, y2. split; [exact E|].
  unfold forward. rewrite Hi, Ev1, Ev2, Ev, Hd1, Hd2, Hd.
  split; [exact Ey1|]. split; [exact Ey2|].
  exact (sequential_forward_stack default_dtype (mlp net) Hok v1 v2 y1 y2
           _ _ Hw1 Hw2 eq_refl eq_refl Hch Ey1 Ey2).
Qed.

End Constructed.

End MlpRows.
(* ================================================================== *)
(** * The further theorems on concrete inputs *)
(* ================================================================== *)

(** The theorem of X1 at the world [Toy.w_top3]. *)
Lemma n1p_returns_play_action_witness :
  kernel_ok argsort_kernel /\
  (getGameEnded (game (self Toy.w_top3)) O 1 = 0%Z /\
   length (prior_of (self Toy.w_top3) O) = length (mask_of (self Toy.w_top3) O) /\
   length (mask_of (self Toy.w_top3) O) = getActionSize (game (self Toy.w_top3)) /\
   Forall (fun x => 0 <= x) (prior_of (self Toy.w_top3) O) /\
   (1 <= K (self Toy.w_top3))%Z /\
   In true (mask_of (self Toy.w_top3) O)) /\
  exists a w',
    play argsort_kernel O Toy.w_top3 = (Ok a, w') /\
    n1p argsort_kernel O Toy.w_top3 = (Return a, w') /\
    legal (mask_of (self Toy.w_top3) O) a.
Proof.
  assert (H1 : getGameEnded (game (self Toy.w_top3)) O 1 = 0%Z)
    by toy_side.
  assert (H2 : length (prior_of (self Toy.w_top3) O) = length (mask_of (self Toy.w_top3) O))
    by toy_side.
  assert (H3 : length (mask_of (self Toy.w_top3) O) = getActionSize (game (self Toy.w_top3)))
    by toy_side.
  assert (H4 : Forall (fun x => 0 <= x) (prior_of (self Toy.w_top3) O))
    by toy_side.
  assert (H5 : (1 <= K (self Toy.w_top3))%Z)
    by toy_side.
  assert (H6 : In true (mask_of (self Toy.w_top3) O))
    by toy_side.
  split; [exact argsort_kernel_ok|].
  split; [exact (conj H1 (conj H2 (conj H3 (conj H4 (conj H5 H6)))))|].
  exact (n1p_returns_play_action argsort_kernel argsort_kernel_ok
           O Toy.w_top3 H1 H2 H3 H4 H5 H6).
Defined.

(** The theorem of X3 at the world [Toy.w_top3]. *)
Lemma play_rollout_budget_witness :
  kernel_ok argsort_kernel /\
  (length (prior_of (self Toy.w_top3) O) = length (mask_of (self Toy.w_top3) O) /\
   Forall (fun x => 0 <= x) (prior_of (self Toy.w_top3) O) /\
   (1 <= K (self Toy.w_top3))%Z /\
   In true (mask_of (self Toy.w_top3) O)) /\
  exists a w' evs,
    play argsort_kernel O Toy.w_top3 = (Ok a, w') /\
    trace w' = trace Toy.w_top3 ++ EvPredict O :: evs /\
    count_predict evs = O /\
    count_simulate evs
    = (Z.to_nat (numMCsims (args (self Toy.w_top3)))
       * Nat.min (Z.to_nat (K (self Toy.w_top3)))
           (Np.count_nonzero
              (renormalized (prior_of (self Toy.w_top3) O) (mask_of (self Toy.w_top3) O))))%nat /\
    (count_simulate evs
     <= Z.to_nat (numMCsims (args (self Toy.w_top3))) * Z.to_nat (K (self Toy.w_top3)))%nat /\
    (count_simulate evs
     <= Z.to_nat (numMCsims (args (self Toy.w_top3)))
        * num_legal (mask_of (self Toy.w_top3) O))%nat.
Proof.
  assert (H1 : length (prior_of (self Toy.w_top3) O) = length (mask_of (self Toy.w_top3) O))
    by toy_side.
  assert (H2 : Forall (fun x => 0 <= x) (prior_of (self Toy.w_top3) O))
    by toy_side.
  assert (H3 : (1 <= K (self Toy.w_top3))%Z)
    by toy_side.
  assert (H4 : In true (mask_of (self Toy.w_top3) O))
    by toy_side.
  split; [exact argsort_kernel_ok|].
  split; [exact (conj H1 (conj H2 (conj H3 H4)))|].
  exact (play_rollout_budget argsort_kernel argsort_kernel_ok
           O Toy.w_top3 H1 H2 H3 H4).
Defined.


(** The theorem of X16 at the world [toy_single_prior]. *)
Lemma play_broadcasts_single_prior_witness :
  kernel_ok argsort_kernel /\
  (prior_of (self toy_single_prior) O = [(1 # 2)] /\
   0 <= 1 # 2 /\
   (2 <= length (mask_of (self toy_single_prior) O))%nat /\
   In true (mask_of (self toy_single_prior) O) /\
   (1 <= K (self toy_single_prior))%Z) /\
  exists fallback a w',
    play_prior O toy_single_prior
    = (Ok (renormalized (repeat (1 # 2) (length (mask_of (self toy_single_prior) O)))
                        (mask_of (self toy_single_prior) O)),
       update_world toy_single_prior (Some []) (sim_state toy_single_prior) (prior_events O fallback)) /\
    play argsort_kernel O toy_single_prior = (Ok a, w') /\
    legal (mask_of (self toy_single_prior) O) a.
Proof.
  assert (H1 : prior_of (self toy_single_prior) O = [(1 # 2)])
    by toy_side.
  assert (H2 : 0 <= 1 # 2)
    by (unfold Qle; simpl; lia).
  assert (H3 : (2 <= length (mask_of (self toy_single_prior) O))%nat)
    by toy_side.
  assert (H4 : In true (mask_of (self toy_single_prior) O))
    by toy_side.
  assert (H5 : (1 <= K (self toy_single_prior))%Z)
    by toy_side.
  split; [exact argsort_kernel_ok|].
  split; [exact (conj H1 (conj H2 (conj H3 (conj H4 H5))))|].
  exact (play_broadcasts_single_prior argsort_kernel argsort_kernel_ok
           O toy_single_prior (1 # 2) H1 H2 H3 H4 H5).
Defined.

(** The theorem of X2 at the world [Toy.w_ended]. *)
Lemma n1p_ended_board_answers_zero_witness :
  getGameEnded (game (self Toy.w_ended)) O 1 <> 0%Z /\
  ((1 <= getActionSize (game (self Toy.w_ended)))%nat ->
   n1p argsort_kernel O Toy.w_ended = (Return O, Toy.w_ended)) /\
  (getActionSize (game (self Toy.w_ended)) = O ->
   n1p argsort_kernel O Toy.w_ended
   = (Throw ValueError_argmax_empty, Toy.w_ended)).
Proof.
  assert (H1 : getGameEnded (game (self Toy.w_ended)) O 1 <> 0%Z)
    by toy_side.
  split; [exact H1|].
  exact (n1p_ended_board_answers_zero argsort_kernel O Toy.w_ended H1).
Defined.

(** The theorem of X5 at the world [toy_bad_shape], where the prior has
    three entries and the mask four. *)
Lemma play_failure_runs_no_simulation_witness :
  play argsort_kernel O toy_bad_shape
  = (Raise (ValueError_broadcast 3 4),
     snd (play argsort_kernel O toy_bad_shape)) /\
  ((exists n m, ValueError_broadcast 3 4 = ValueError_broadcast n m) \/
   (exists k n, ValueError_broadcast 3 4 = ValueError_kth k n) \/
   ValueError_broadcast 3 4 = IndexError) /\
  sim_state (snd (play argsort_kernel O toy_bad_shape))
  = sim_state toy_bad_shape /\
  qsa (self (snd (play argsort_kernel O toy_bad_shape))) = Some [] /\
  exists evs,
    trace (snd (play argsort_kernel O toy_bad_shape))
    = trace toy_bad_shape ++ evs /\
    count_simulate evs = O.
Proof.
  assert (H1 : play argsort_kernel O toy_bad_shape
               = (Raise (ValueError_broadcast 3 4),
                  snd (play argsort_kernel O toy_bad_shape)))
    by reflexivity.
  split; [exact H1|].
  exact (play_failure_runs_no_simulation argsort_kernel O toy_bad_shape
           _ _ H1).
Defined.

Module MlpWitnesses.
Import Torch Mlp MlpFacts.

(** The theorem of X6 for [Net('LeakyReLU(0.1)', 2, [3, 2], 1)], whose
    text evaluates to a module, and for [Net('ReLU', 2, [3, 2], 1)], whose
    text evaluates to a class. *)
Lemma init_registers_named_modules_witness :
  (toy_eval (String.append "nn." "LeakyReLU(0.1)")
   = Return (ModuleOrNone (ActivationLayer toy_leaky)) /\
   exists net st',
     init nat toy_draw Float32 toy_eval "LeakyReLU(0.1)" 2 [3; 2]%nat 1 O
     = Return (net, st') /\
     Mlp.input_feature_num net = 2%nat /\
     map fst (mlp net) = module_names (length [3; 2]%nat) /\
     NoDup (map fst (mlp net)) /\
     length (mlp net) = (2 * length [3; 2]%nat + 1)%nat /\
     (forall name v, In (name, v) (mlp net) ->
                     v = ActivationLayer toy_leaky \/
                     exists l, v = LinearLayer l)) /\
  (toy_eval (String.append "nn." "ReLU") = Return (OtherObject "type") /\
   [3; 2]%nat <> [] /\
   init nat toy_draw Float32 toy_eval "ReLU" 2 [3; 2]%nat 1 O
   = Throw (TypeError_not_module "type")).
Proof.
  assert (H1 : toy_eval (String.append "nn." "LeakyReLU(0.1)")
               = Return (ModuleOrNone (ActivationLayer toy_leaky)))
    by reflexivity.
  assert (H2 : toy_eval (String.append "nn." "ReLU")
               = Return (OtherObject "type")) by reflexivity.
  assert (H3 : [3; 2]%nat <> []) by discriminate.
  split.
  - split; [exact H1|].
    exact (proj1 (init_registers_named_modules nat toy_draw Float32
                    toy_eval "LeakyReLU(0.1)" 2 [3; 2]%nat 1 O) _ H1).
  - split; [exact H2|]. split; [exact H3|].
    exact (proj2 (init_registers_named_modules nat toy_draw Float32
                    toy_eval "ReLU" 2 [3; 2]%nat 1 O) _ H2 H3).
Defined.


(** The theorem of X8 for [Net('LeakyReLU(0.1)', 2, [3, 2], 1)] and a
    contiguous [float32] input of three rows of two features. *)
Lemma forward_output_shape_witness :
  (toy_eval (String.append "nn." "LeakyReLU(0.1)")
   = Return (ModuleOrNone (ActivationLayer toy_leaky)) /\
   (1 <= 2)%nat /\
   numel (toy_tensor Float32 [1; 2; 3; 4; -5; -6]) = (3 * 2)%nat /\
   view_allowed (toy_tensor Float32 [1; 2; 3; 4; -5; -6]) 2 = true /\
   dtype (toy_tensor Float32 [1; 2; 3; 4; -5; -6]) = Float32) /\
  exists net st' logits,
    init nat toy_draw Float32 toy_eval "LeakyReLU(0.1)" 2 [3; 2]%nat 1 O
    = Return (net, st') /\
    forward net (toy_tensor Float32 [1; 2; 3; 4; -5; -6])
    = Return (Float32, logits) /\
    wf logits /\
    t_rows logits = 3%nat /\ t_cols logits = 1%nat.
Proof.
  assert (H1 : toy_eval (String.append "nn." "LeakyReLU(0.1)")
               = Return (ModuleOrNone (ActivationLayer toy_leaky)))
    by reflexivity.
  assert (H2 : (1 <= 2)%nat) by lia.
  assert (H3 : numel (toy_tensor Float32 [1; 2; 3; 4; -5; -6])
               = (3 * 2)%nat) by reflexivity.
  assert (H4 : view_allowed (toy_tensor Float32 [1; 2; 3; 4; -5; -6]) 2
               = true) by reflexivity.
  assert (H5 : dtype (toy_tensor Float32 [1; 2; 3; 4; -5; -6]) = Float32)
    by reflexivity.
  split; [exact (conj H1 (conj H2 (conj H3 (conj H4 H5))))|].
  exact (forward_output_shape nat toy_draw Float32 toy_eval
           "LeakyReLU(0.1)" toy_leaky 2 [3; 2]%nat 1 O
           (toy_tensor Float32 [1; 2; 3; 4; -5; -6]) 3 H1 H2 H3 H4 H5).
Defined.

(** The theorem of X9 for [Net('LeakyReLU(0.1)', 2, [3, 2], 1)] with
    [float32] parameters; in particular an [int64] input of the right size
    is refused by the first layer. *)
Lemma forward_raises_exactly_witness :
  toy_eval (String.append "nn." "LeakyReLU(0.1)")
  = Return (ModuleOrNone (ActivationLayer toy_leaky)) /\
  exists net st',
    init nat toy_draw Float32 toy_eval "LeakyReLU(0.1)" 2 [3; 2]%nat 1 O
    = Return (net, st') /\
    forward net (toy_tensor Int64 [1; 2; 3; 4])
    = Throw (RuntimeError_dtype Int64 Float32) /\
    forward net (toy_transposed Float32 [1; 2; 3; 4])
    = Throw RuntimeError_view_stride /\
    forward net (toy_tensor Float32 [1; 2; 3])
    = Throw (RuntimeError_view 3 2).
Proof.
  assert (H1 : toy_eval (String.append "nn." "LeakyReLU(0.1)")
               = Return (ModuleOrNone (ActivationLayer toy_leaky)))
    by reflexivity.
  split; [exact H1|].
  destruct (forward_raises_exactly nat toy_draw Float32 toy_eval
              "LeakyReLU(0.1)" toy_leaky 2 [3; 2]%nat 1 O H1)
    as (net & st' & E & Hx).
  exists net, st'. split; [exact E|]. split; [|split].
  - apply Hx. right. right.
    split; [discriminate|]. split; [reflexivity|]. split; [reflexivity|].
    split; [discriminate | reflexivity].
  - apply Hx. right. left.
    split; [discriminate|]. split; [reflexivity|].
    split; reflexivity.
  - apply Hx. left. split; [right; discriminate | reflexivity].
Defined.

End MlpWitnesses.

Module RsmWitnesses.
Import Torch RsmFacts.


(** The theorem of X15 at [toy_activity], rows 0
    and 1. *)
Lemma rsm_cauchy_schwarz_witness :
  (wf toy_activity /\
   (0 < t_rows toy_activity)%nat /\
   (1 < t_rows toy_activity)%nat) /\
  exists rsm,
    ex_net_rsm toy_activity = Ok rsm /\
    entry rsm 0 1 * entry rsm 0 1 <= entry rsm 0 0 * entry rsm 1 1.
Proof.
  assert (H1 : wf toy_activity).
  { split; [reflexivity|]. repeat constructor. }
  assert (H2 : (0 < t_rows toy_activity)%nat)
    by (simpl; lia).
  assert (H3 : (1 < t_rows toy_activity)%nat)
    by (simpl; lia).
  split; [exact (conj H1 (conj H2 H3))|].
  exact (rsm_cauchy_schwarz _ 0%nat 1%nat H1 H2 H3).
Defined.

End RsmWitnesses.

Module MlpRowsWitness.
Import Torch Mlp MlpRows.

(** The theorem of X17 for [Net('LeakyReLU(0.1)', 2, [3, 2], 1)], a batch
    of one row and a batch of two rows. *)
Lemma forward_is_row_wise_witness :
  (toy_eval (String.append "nn." "LeakyReLU(0.1)")
   = Return (ModuleOrNone (ActivationLayer toy_leaky)) /\
   (1 <= 2)%nat /\
   numel (toy_tensor Float32 [1; 2]) = (1 * 2)%nat /\
   numel (toy_tensor Float32 [3; 4; -5; -6]) = (2 * 2)%nat /\
   elements (toy_tensor Float32 [1; 2; 3; 4; -5; -6])
   = elements (toy_tensor Float32 [1; 2])
     ++ elements (toy_tensor Float32 [3; 4; -5; -6])) /\
  exists net st' y1 y2,
    init nat toy_draw Float32 toy_eval "LeakyReLU(0.1)" 2 [3; 2]%nat 1 O
    = Return (net, st') /\
    forward net (toy_tensor Float32 [1; 2]) = Return (Float32, y1) /\
    forward net (toy_tensor Float32 [3; 4; -5; -6]) = Return (Float32, y2) /\
    forward net (toy_tensor Float32 [1; 2; 3; 4; -5; -6])
    = Return (Float32, stack_rows y1 y2).
Proof.
  assert (H1 : toy_eval (String.append "nn." "LeakyReLU(0.1)")
               = Return (ModuleOrNone (ActivationLayer toy_leaky)))
    by reflexivity.
  assert (H2 : (1 <= 2)%nat) by lia.
  assert (H3 : numel (toy_tensor Float32 [1; 2]) = (1 * 2)%nat)
    by reflexivity.
  assert (H4 : numel (toy_tensor Float32 [3; 4; -5; -6]) = (2 * 2)%nat)
    by reflexivity.
  assert (H5 : elements (toy_tensor Float32 [1; 2; 3; 4; -5; -6])
               = elements (toy_tensor Float32 [1; 2])
                 ++ elements (toy_tensor Float32 [3; 4; -5; -6]))
    by reflexivity.
  split; [exact (conj H1 (conj H2 (conj H3 (conj H4 H5))))|].
  exact (forward_is_row_wise nat toy_draw Float32 toy_eval "LeakyReLU(0.1)"
           toy_leaky 2 [3; 2]%nat 1 O
           (toy_tensor Float32 [1; 2]) (toy_tensor Float32 [3; 4; -5; -6])
           (toy_tensor Float32 [1; 2; 3; 4; -5; -6]) 1 2
           H1 H2 H3 H4 H5 eq_refl eq_refl eq_refl eq_refl eq_refl eq_refl).
Defined.

End MlpRowsWitness.
